(** * DepMap gene analysis: CRISPR fitness against an immune proxy

    A shallow embedding of the statistical core of [gene_analysis.py]
    (cohort selection, the per-gene correlation loop, the per-cancer
    multiple-testing correction, ranking and the summary row) and of the
    [jaccard] helper of [post_analysis_enrichment.py].

    Conventions of the embedding.
    - A binary64 cell of a table is a [float]: [None] is NaN (a missing
      value), [Some q] is a finite number, kept as an exact rational;
      rounding and infinities are not modelled.
    - A pandas DataFrame is a [Frame]: its row labels, its column labels
      and the cell found under a (row, column) label pair.  Labels are
      taken to be unique, as they are in the DepMap releases the script
      reads, so that selecting by label yields exactly one cell.
    - [scipy.stats.spearmanr] is a parameter of the pipeline. *)

From Stdlib Require Import Ascii String QArith Qminmax Qabs Zdivisibility.
From stdpp Require Import gmap strings list sorting.

Local Open Scope string_scope.
Local Open Scope list_scope.

(** ** Floats *)

Definition float : Type := option Q.

Definition NaN : float := None.

(** [np.isnan]. *)
Definition isnan (x : float) : bool :=
  match x with None => true | Some _ => false end.

(** IEEE comparisons: anything compared with NaN is false. *)
Definition float_le (a b : float) : Prop :=
  match a, b with
  | Some x, Some y => (x <= y)%Q
  | _, _ => False
  end.

Definition float_lt (a b : float) : Prop :=
  match a, b with
  | Some x, Some y => (x < y)%Q
  | _, _ => False
  end.

(** Python's [int / int]: true division, [ZeroDivisionError] (here [None])
    when the divisor is zero. *)
Definition true_div (a b : nat) : option Q :=
  if decide (b = 0%nat) then None
  else Some (inject_Z (Z.of_nat a) / inject_Z (Z.of_nat b))%Q.

(** ** [post_analysis_enrichment.py]: Jaccard similarity *)

Module Enrichment.

(** [def jaccard(a, b)], lines 90-94. *)
Definition jaccard (a b : list string) : option Q :=
  let A : gset string := list_to_set a in
  let B : gset string := list_to_set b in
  if decide (A = ∅ ∧ B = ∅) then Some 0%Q
  else true_div (size (A ∩ B)) (size (A ∪ B)).

End Enrichment.

(** ** [gene_analysis.py] *)

Module GeneAnalysis.

(** *** Strings *)

(** Python's [sub in s] on strings: [sub] occurs somewhere in [s]. *)
Fixpoint contains (sub s : string) : bool :=
  String.prefix sub s ||
  match s with
  | EmptyString => false
  | String _ s' => contains sub s'
  end.

(** [str.lower], on the ASCII letters (other bytes are left as they are). *)
Definition ascii_lower (c : ascii) : ascii :=
  let n := nat_of_ascii c in
  if (65 <=? n)%nat && (n <=? 90)%nat then ascii_of_nat (n + 32) else c.

Fixpoint lower (s : string) : string :=
  match s with
  | EmptyString => EmptyString
  | String c s' => String (ascii_lower c) (lower s')
  end.

(** [s.replace('/', '_')]. *)
Fixpoint replace_slash (s : string) : string :=
  match s with
  | EmptyString => EmptyString
  | String c s' =>
      String (if Ascii.eqb c "/"%char then "_"%char else c) (replace_slash s')
  end.

(** Python's [sorted] on a list of strings (code-point order). *)
Definition sorted (l : list string) : list string := merge_sort String.le l.

(** [Series.unique()]: the distinct values in order of first appearance. *)
Fixpoint unique (l : list string) : list string :=
  match l with
  | [] => []
  | x :: t => x :: List.filter (λ y, negb (String.eqb x y)) (unique t)
  end.

(** [Series.dropna()]. *)
Definition dropna {A} (l : list (option A)) : list A := omap id l.

(** *** Tables *)

(** A row of [Model.csv]: the disease label may be missing. *)
Record ModelRow := {
  ModelID : string;
  OncotreePrimaryDisease : option string
}.

Record Frame := {
  index : list string;
  columns : list string;
  cell : string → string → float   (* row label, column label *)
}.

(** A row of the per-cancer association table.  The derived plotting column
    [-log10P] plays no part in sorting or in the summary and is left out. *)
Record AssocRow := {
  Gene : string;
  Spearman_r : float;
  P : float;
  FDR : float
}.

Record SummaryRow := {
  Cancer : string;
  N_Models : nat;
  Top_Positive : string;
  Top_Negative : string
}.

(** *** Numeric helpers *)

Definition Qsum (l : list Q) : Q := foldr Qplus 0%Q l.

(** [DataFrame.mean(axis=1)] on one row: missing cells are skipped
    ([skipna=True]); a row with no value left has mean NaN. *)
Definition mean (vals : list float) : float :=
  match dropna vals with
  | [] => NaN
  | present => Some (Qsum present / inject_Z (Z.of_nat (length present)))%Q
  end.

(** Elementwise float operations of numpy. *)
Definition fdiv (a b : float) : float :=
  match a, b with
  | Some x, Some y => Some (x / y)%Q
  | _, _ => NaN
  end.

(** [np.minimum]: NaN if either argument is NaN. *)
Definition minimum (a b : float) : float :=
  match a, b with
  | Some x, Some y => Some (Qmin x y)
  | _, _ => NaN
  end.

(** The order sorting routines use on floats: numbers ascending, NaN last. *)
Definition nan_last_leb (a b : float) : bool :=
  match a, b with
  | _, None => true
  | None, Some _ => false
  | Some x, Some y => Qle_bool x y
  end.

Definition nan_last_le (a b : float) : Prop := nan_last_leb a b.

(** The order of a descending sort: numbers descending, NaN still last. *)
Definition nan_last_geb (a b : float) : bool :=
  match a, b with
  | _, None => true
  | None, Some _ => false
  | Some x, Some y => Qle_bool y x
  end.

Definition nan_last_ge (a b : float) : Prop := nan_last_geb a b.

(** Rows compared by a float column [key]. *)
Definition by_le {A} (key : A → float) : relation A :=
  λ a b, nan_last_le (key a) (key b).

Definition by_ge {A} (key : A → float) : relation A :=
  λ a b, nan_last_ge (key a) (key b).

(** *** numpy primitives

    The array operations the multiple-testing correction below is made
    of. *)

(** [v[i]], NaN out of range. *)
Definition get (v : list float) (i : nat) : float :=
  match v !! i with Some x => x | None => NaN end.

(** [np.argsort]: the positions of [v] in ascending order of their values. *)
Definition argsort (v : list float) : list nat :=
  map fst (merge_sort (λ a b, nan_last_le (snd a) (snd b))
                      (imap (λ i x, (i, x)) v)).

(** [np.take(v, ind)]. *)
Definition np_take (v : list float) (ind : list nat) : list float :=
  map (get v) ind.

(** [out[ind] = vals] on an array [out]. *)
Definition scatter (out : list float) (ind : list nat) (vals : list float)
  : list float :=
  foldl (λ acc iv, <[iv.1 := iv.2]> acc) out (zip ind vals).

(** [np.minimum.accumulate]. *)
Fixpoint accumulate_from (acc : float) (l : list float) : list float :=
  match l with
  | [] => []
  | x :: t => let m := minimum acc x in m :: accumulate_from m t
  end.

Definition minimum_accumulate (l : list float) : list float :=
  match l with
  | [] => []
  | x :: t => x :: accumulate_from x t
  end.

(** [a[a > 1] = 1]: NaN compares false and stays. *)
Definition clip_one (a : list float) : list float :=
  map (λ v, match v with
            | Some x => if Qle_bool x 1 then v else Some 1%Q
            | None => v
            end) a.

(** [_ecdf(x)]: [np.arange(1, nobs+1) / float(nobs)]. *)
Definition ecdf (nobs : nat) : list float :=
  map (λ k, Some (inject_Z (Z.of_nat k) / inject_Z (Z.of_nat nobs))%Q)
      (seq 1 nobs).

(** Modelled from the spec: [statsmodels.stats.multitest.multipletests] is a
    third-party routine and is not part of the sources.  This is the
    Benjamini-Hochberg step-up adjustment the specification names (4.3), in
    the shape that routine computes it for [method="fdr_bh"]: sort the raw
    p-values, divide the k-th smallest by k/n, take the running minimum from
    the largest down, cap at 1, and put every adjusted value back at the
    position its raw value came from.  Only the adjusted p-values (component
    [1] of the library's result) are modelled. *)
Definition multipletests (pvals : list float) : list float :=
  let sortind := argsort pvals in
  let pvals_sorted := np_take pvals sortind in
  let ecdffactor := ecdf (length pvals_sorted) in
  let pvals_corrected_raw := zip_with fdiv pvals_sorted ecdffactor in
  let pvals_corrected :=
    clip_one (reverse (minimum_accumulate (reverse pvals_corrected_raw))) in
  scatter (replicate (length pvals) NaN) sortind (clip_one pvals_corrected).

(** The running minimum from the right, by recursion on the list: what
    [reverse (minimum_accumulate (reverse l))] computes. *)
Fixpoint cummin_right (l : list float) : list float :=
  match l with
  | [] => []
  | x :: t =>
      match cummin_right t with
      | [] => [x]
      | (m :: _) as r => minimum m x :: r
      end
  end.

(** The Benjamini-Hochberg adjustment as it is usually stated, on a list of
    raw p-values without NaN.  A value [t] of the list has rank
    [count_le qs t], the number of entries not above it; its step-up bound
    is [t] divided by rank over list length.  The adjusted value of [p] is
    the least of 1 and the bounds of the entries not below [p]. *)
Definition count_le (qs : list Q) (t : Q) : nat :=
  length (List.filter (λ q, Qle_bool q t) qs).

Definition bh_bound (qs : list Q) (t : Q) : Q :=
  (t / (inject_Z (Z.of_nat (count_le qs t))
        / inject_Z (Z.of_nat (length qs))))%Q.

Definition bh_adjusted (qs : list Q) (p a : Q) : Prop :=
  (a <= 1)%Q
  ∧ (∀ t, t ∈ qs → (p <= t)%Q → (a <= bh_bound qs t)%Q)
  ∧ ((a == 1)%Q ∨ ∃ t, t ∈ qs ∧ (p <= t)%Q ∧ (a == bh_bound qs t)%Q).

(** A raw p-value is a probability: NaN aside, it is never negative. *)
Definition pvalue_okb (p : float) : bool :=
  match p with
  | Some q => Qle_bool 0 q
  | None => true
  end.

Definition pvalue_ok (p : float) : Prop := pvalue_okb p.

(** [DataFrame.sort_values(by, ascending=...)] on the association table:
    rows with a number under [by] in the requested order, rows with NaN
    last.  A descending sort reverses, sorts ascending and reverses again. *)
Definition sort_values (by_ : AssocRow → float) (ascending : bool)
    (df : list AssocRow) : list AssocRow :=
  let non_nans := List.filter (λ r, negb (isnan (by_ r))) df in
  let nans := List.filter (λ r, isnan (by_ r)) df in
  let asc := merge_sort (λ a b, nan_last_le (by_ a) (by_ b)) in
  (if ascending then asc non_nans else reverse (asc (reverse non_nans)))
  ++ nans.

(** [x[mask]]. *)
Definition bool_index {A} (v : list A) (m : list bool) : list A :=
  map fst (List.filter snd (zip v m)).

(** [~np.isnan(x) & ~np.isnan(y)]. *)
Definition mask (x y : list float) : list bool :=
  zip_with (λ a b, negb (isnan a) && negb (isnan b)) x y.

(** [mask.sum()]. *)
Definition mask_sum (m : list bool) : nat := length (List.filter id m).

Definition immune_markers : list string :=
  ["CD274"; "CXCL9"; "CXCL10"; "STAT1"; "IRF1"; "HLA-A"; "HLA-B"; "B2M";
   "TAP1"; "TGFB1"].

(** The outcome of one iteration of the loop over cancer types. *)
Inductive Outcome :=
  | SkippedCohort (n_models : nat)       (* line 60-62 *)
  | NoValidResults                       (* line 79-81 *)
  | Processed (results_df : list AssocRow) (summary : SummaryRow).

(** What the run leaves behind: the tables written, by path, in the order
    they were written, and the summary rows. *)
Record Output := {
  files : list (string * list AssocRow);
  summary_rows : list SummaryRow
}.

Section pipeline.

(** [scipy.stats.spearmanr(x, y)]: coefficient and two-sided p-value. *)
Variable spearmanr : list float → list float → float * float.

(** The three tables after Step 1: [Model.csv], the fitness matrix with
    genes as rows and models as columns, and the expression matrix indexed
    by [ModelID]. *)
Variable model : list ModelRow.
Variable crispr : Frame.
Variable omics_expr : Frame.

(** Step 2, line 38. *)
Definition immune_genes : list string :=
  List.filter (λ col, existsb (λ marker, contains marker col) immune_markers)
              (columns omics_expr).

(** Line 47. *)
Definition unique_cancers : list string :=
  sorted (unique (dropna (map OncotreePrimaryDisease model))).

(** Line 57. *)
Definition cancer_models (cancer : string) : list string :=
  unique (map ModelID
    (List.filter
       (λ r, match OncotreePrimaryDisease r with
             | Some d => String.eqb (lower d) (lower cancer)
             | None => false
             end) model)).

(** Line 58, before sorting: the three-way intersection. *)
Definition common_set (cancer : string) : gset string :=
  (list_to_set (columns crispr) ∩ list_to_set (index omics_expr))
  ∩ list_to_set (cancer_models cancer).

(** Line 58. *)
Definition common_models (cancer : string) : list string :=
  sorted (elements (common_set cancer)).

(** Line 67: one score per model of the cohort, in cohort order. *)
Definition immune_proxy (common : list string) : list float :=
  map (λ m, mean (map (cell omics_expr m) immune_genes)) common.

(** Lines 71-77: one pass of the gene loop; [None] is [continue]. *)
Definition gene_result (common : list string) (gene : string)
  : option (string * float * float) :=
  let x := map (cell crispr gene) common in
  let y := immune_proxy common in
  let m := mask x y in
  if (mask_sum m <? 5)%nat then None
  else
    let '(rho, p) := spearmanr (bool_index x m) (bool_index y m) in
    Some (gene, rho, p).

(** Lines 69-77. *)
Definition results (common : list string) : list (string * float * float) :=
  omap (gene_result common) (index crispr).

(** Lines 83-84: the table with its FDR column, before sorting. *)
Definition with_fdr (res : list (string * float * float)) : list AssocRow :=
  zip_with (λ r f, {| Gene := r.1.1; Spearman_r := r.1.2; P := r.2;
                      FDR := f |})
           res (multipletests (map snd res)).

(** Lines 83-86. *)
Definition results_df (res : list (string * float * float)) : list AssocRow :=
  sort_values FDR true (with_fdr res).

(** Lines 107-114. *)
Definition summary_row (cancer : string) (n : nat) (df : list AssocRow)
  : SummaryRow :=
  let top_pos := take 3 (sort_values Spearman_r false df) in
  let top_neg := take 3 (sort_values Spearman_r true df) in
  {| Cancer := cancer;
     N_Models := n;
     Top_Positive := String.concat "; " (map Gene top_pos);
     Top_Negative := String.concat "; " (map Gene top_neg) |}.

(** The body of the loop, lines 53-114. *)
Definition analyze (cancer : string) : Outcome :=
  let common := common_models cancer in
  if (length common <? 25)%nat then SkippedCohort (length common)
  else
    match results common with
    | [] => NoValidResults
    | res =>
        let df := results_df res in
        Processed df (summary_row cancer (length common) df)
    end.

(** Line 89. *)
Definition out_file (cancer : string) : string :=
  "Cancer_Specific_Results/CRISPR_TME_" ++ replace_slash cancer
  ++ "_Results.csv".

Definition step (st : Output) (cancer : string) : Output :=
  match analyze cancer with
  | Processed df row =>
      {| files := files st ++ [(out_file cancer, df)];
         summary_rows := summary_rows st ++ [row] |}
  | _ => st
  end.

(** Steps 3 and 4. *)
Definition main : Output :=
  foldl step {| files := []; summary_rows := [] |} unique_cancers.

End pipeline.

End GeneAnalysis.

(** ** Rank correlation *)

Module Spearman.
Import GeneAnalysis.

Section spearmanr.

(** The two functions of real analysis the routine calls: the square root,
    and the survival function of Student's t distribution with [dof] degrees
    of freedom.  Neither has rational values in general; they are taken as
    given. *)
Variable sqrt : Q → Q.
Variable t_sf : Q → nat → Q.

(** Twice the rank of [a] in [v] under [scipy.stats.rankdata]'s default
    method, which gives tied values the average of the ranks they span: with
    [less] values below [a] and [equal] values tied with it, [a] included,
    the rank is [less + (equal + 1) / 2]. *)
Definition rank2 (v : list Q) (a : Q) : Z :=
  2 * Z.of_nat (length (List.filter (λ b, negb (Qle_bool a b)) v))
  + Z.of_nat (length (List.filter (λ b, Qeq_bool b a) v)) + 1.

Definition rankdata (v : list Q) : list Q :=
  map (λ a, inject_Z (rank2 v a) / 2)%Q v.

Definition Qmean (v : list Q) : Q :=
  (Qsum v / inject_Z (Z.of_nat (length v)))%Q.

(** [np.cov] of two variables, normalised by [n - 1]. *)
Definition cov (u v : list Q) : Q :=
  (Qsum (zip_with (λ a b, (a - Qmean u) * (b - Qmean v)) u v)
   / (inject_Z (Z.of_nat (length u)) - 1))%Q.

(** [np.corrcoef]: Pearson's coefficient, the covariance over the two
    standard deviations, clipped to [-1, 1].  The product of the two roots
    is written as the root of the product. *)
Definition corrcoef (u v : list Q) : Q :=
  Qmax (-1) (Qmin 1 (cov u v / sqrt (cov u u * cov v v)))%Q.

(** [(a[0] == a).all()]. *)
Definition constant (v : list Q) : bool :=
  match v with
  | [] => true
  | a :: _ => forallb (Qeq_bool a) v
  end.

(** Modelled from the spec: [scipy.stats.spearmanr] is a third-party routine
    and is not part of the sources.  This is the rank correlation of the
    specification (4.2) in the shape that routine computes it for two
    vectors of one length: NaN for both results when there are fewer than
    two observations, when a vector is constant, or when a value is NaN;
    otherwise the coefficient is Pearson's coefficient of the average ranks,
    and the two-sided p-value is that of [t = rs * sqrt (dof / ((rs + 1) *
    (1 - rs)))] under Student's t distribution with [dof = n - 2] degrees of
    freedom.  Where the routine divides by zero, at a coefficient of 1 or
    -1, its [t] is infinite and its p-value 0, or NaN when [dof] is 0 as
    well. *)
Definition spearmanr (x y : list float) : float * float :=
  let n_obs := length x in
  if (n_obs <=? 1)%nat then (NaN, NaN)
  else if existsb isnan x || existsb isnan y then (NaN, NaN)
  else
    let a := dropna x in
    let b := dropna y in
    if constant a || constant b then (NaN, NaN)
    else
      let rs := corrcoef (rankdata a) (rankdata b) in
      let dof := (n_obs - 2)%nat in
      let den := ((rs + 1) * (1 - rs))%Q in
      let prob :=
        if Qeq_bool den 0 then (if (dof =? 0)%nat then NaN else Some 0%Q)
        else
          let t := (rs * sqrt (Qmax 0 (inject_Z (Z.of_nat dof) / den)))%Q in
          Some (2 * t_sf (Qabs t) dof)%Q in
      (Some rs, prob).

End spearmanr.

End Spearman.

(** ** A small data set

    Twenty-five lung models and two melanoma models, five fitness rows and
    four expression columns; used to run the definitions above. *)

Module Fixture.
Import GeneAnalysis.

Definition lung_ids : list string :=
  ["ACH-000001"; "ACH-000002"; "ACH-000003"; "ACH-000004"; "ACH-000005";
   "ACH-000006"; "ACH-000007"; "ACH-000008"; "ACH-000009"; "ACH-000010";
   "ACH-000011"; "ACH-000012"; "ACH-000013"; "ACH-000014"; "ACH-000015";
   "ACH-000016"; "ACH-000017"; "ACH-000018"; "ACH-000019"; "ACH-000020";
   "ACH-000021"; "ACH-000022"; "ACH-000023"; "ACH-000024"; "ACH-000025"].

Definition skin_ids : list string := ["ACH-000027"; "ACH-000026"].

Definition model : list ModelRow :=
  map (λ m, {| ModelID := m; OncotreePrimaryDisease := Some "Lung Cancer" |})
      lung_ids
  ++ [ {| ModelID := "ACH-000026"; OncotreePrimaryDisease := Some "Melanoma" |};
       {| ModelID := "ACH-000099"; OncotreePrimaryDisease := None |};
       {| ModelID := "ACH-000027"; OncotreePrimaryDisease := Some "melanoma" |};
       {| ModelID := "ACH-000001"; OncotreePrimaryDisease := Some "LUNG CANCER" |} ].

(** Position of a label in a list of labels. *)
Fixpoint position (x : string) (l : list string) : option nat :=
  match l with
  | [] => None
  | y :: t => if String.eqb x y then Some 0%nat else S <$> position x t
  end.

(** A frame whose cell under (row, column) is computed from the positions
    of the two labels; NaN for a label that is absent. *)
Definition frame (rows cols : list string) (f : nat → nat → float) : Frame :=
  {| index := rows; columns := cols;
     cell := λ r c, match position r rows, position c cols with
                    | Some i, Some j => f i j
                    | _, _ => NaN
                    end |}.

Definition num (z : Z) : float := Some (inject_Z z).

(** Fitness: rows are genes, columns are models. *)
Definition crispr : Frame :=
  frame ["A1BG (1)"; "TP53 (7157)"; "KRAS (3845)"; "MYC (4609)"; "SPARSE (0)"]
        (skin_ids ++ lung_ids)
        (λ i j,
           let n := Z.of_nat j in
           match i with
           | 0 => num (n * n mod 11 - 5)
           | 1 => num (- n)
           | 2 => if (j mod 4 =? 0)%nat then NaN else num (7 * n mod 13)
           | 3 => num (n mod 3)
           | _ => if (j <? 5)%nat then num n else NaN
           end).

(** Expression: rows are models, columns are genes. *)
Definition omics_expr : Frame :=
  frame (lung_ids ++ skin_ids)
        ["CD274 (29126)"; "ACTB (60)"; "TGFB1I1 (7041)"; "STAT1 (6772)"]
        (λ i j,
           let n := Z.of_nat i in
           match j with
           | 0 => num (n + 1)
           | 1 => num 1000
           | 2 => if (i mod 5 =? 0)%nat then NaN else num (2 * n)
           | _ => num (n * n)
           end).

(** A stand-in for [scipy.stats.spearmanr], good enough to run the
    pipeline: the rank-difference formula for the coefficient (exact when
    there are no ties) and [1 - rho^2] in place of the p-value. *)
Definition rank (v : list float) (a : float) : Z :=
  1 + Z.of_nat (length (List.filter
                  (λ b, match b, a with
                        | Some x, Some y => negb (Qle_bool y x)
                        | _, _ => false
                        end) v)).

Definition spearmanr (x y : list float) : float * float :=
  let n := Z.of_nat (length x) in
  let d2 := foldr Z.add 0%Z
              (zip_with (λ a b, (rank x a - rank y b) ^ 2)%Z x y) in
  let rho := (1 - inject_Z (6 * d2) / inject_Z (n * (n * n - 1)))%Q in
  (Some (Qred rho), Some (Qred (1 - rho * rho))%Q).

(** The same fitness matrix without the column of one lung model. *)
Definition crispr24 : Frame :=
  {| index := index crispr;
     columns := List.filter (λ m, negb (String.eqb m "ACH-000013"))
                            (columns crispr);
     cell := cell crispr |}.

Definition lung : Outcome := analyze spearmanr model crispr omics_expr "Lung Cancer".

Definition lung_table : list AssocRow :=
  match lung with Processed df _ => df | _ => [] end.

Definition lung_summary : SummaryRow :=
  match lung with
  | Processed _ row => row
  | _ => {| Cancer := ""; N_Models := 0; Top_Positive := ""; Top_Negative := "" |}
  end.

End Fixture.

(** ** [gene_analysis.py], Step 1: cleaning the expression table *)

Module Loading.

(** [index.duplicated(keep="first")]: a row is marked when its label was
    met on an earlier row. *)
Fixpoint duplicated_from (seen idx : list string) : list bool :=
  match idx with
  | [] => []
  | k :: t => bool_decide (k ∈ seen) :: duplicated_from (k :: seen) t
  end.

Definition duplicated (idx : list string) : list bool := duplicated_from [] idx.

(** Line 31, [df[~df.index.duplicated(keep="first")]], on the rows of a table
    paired with their labels. *)
Definition drop_duplicated {A} (rows : list (string * A)) : list (string * A) :=
  GeneAnalysis.bool_index rows (map negb (duplicated (map fst rows))).

(** [df.loc[label]] on a table whose labels are unique; on other tables, the
    first row carrying the label. *)
Fixpoint loc {A} (rows : list (string * A)) (label : string) : option A :=
  match rows with
  | [] => None
  | (k, v) :: t => if String.eqb k label then Some v else loc t label
  end.

End Loading.

(** ** [post_analysis_enrichment.py]: gene lists and overlap matrices *)

Module PostAnalysis.
Import GeneAnalysis.

Definition TOP_N : nat := 100.

(** [str.isspace] on an ASCII character: tab to carriage return, the four
    separators 28-31 and the space. *)
Definition isspace (c : ascii) : bool :=
  let n := nat_of_ascii c in
  ((9 <=? n)%nat && (n <=? 13)%nat) || ((28 <=? n)%nat && (n <=? 32)%nat).

Fixpoint lstrip (s : string) : string :=
  match s with
  | EmptyString => EmptyString
  | String c s' => if isspace c then lstrip s' else s
  end.

Fixpoint rstrip (s : string) : string :=
  match s with
  | EmptyString => EmptyString
  | String c s' =>
      match rstrip s' with
      | EmptyString => if isspace c then EmptyString else String c EmptyString
      | r => String c r
      end
  end.

(** [s.strip()]. *)
Definition strip (s : string) : string := rstrip (lstrip s).

(** [s.split(sep)[0]] for a non-empty [sep]: what comes before the first
    occurrence of [sep], all of [s] when there is none. *)
Fixpoint before (sep s : string) : string :=
  if String.prefix sep s then EmptyString
  else match s with
       | EmptyString => EmptyString
       | String c s' => String c (before sep s')
       end.

(** Line 34, the lambda under [apply]. *)
Definition gene_clean (s : string) : string := strip (before " (" s).

(** [os.path.basename] with [/] as the separator. *)
Fixpoint basename (s : string) : string :=
  match s with
  | EmptyString => EmptyString
  | String c s' =>
      if contains "/" s' then basename s'
      else if Ascii.eqb c "/"%char then s' else s
  end.

(** [s.replace(old, "")] for a non-empty [old]: scanning from the left,
    every occurrence met is dropped ([skip] counts the characters of the
    current occurrence still to drop). *)
Fixpoint remove_from (old : string) (skip : nat) (s : string) : string :=
  match s with
  | EmptyString => EmptyString
  | String c s' =>
      match skip with
      | S k => remove_from old k s'
      | O =>
          if String.prefix old s
          then remove_from old (String.length old - 1) s'
          else String c (remove_from old 0 s')
      end
  end.

Definition remove_all (old s : string) : string := remove_from old 0 s.

(** Line 35. *)
Definition cancer_of_file (f : string) : string :=
  remove_all "_Results.csv" (remove_all "CRISPR_TME_" (basename f)).

(** Lines 37-38: the cleaned names of the [TOP_N] genes with the largest
    ([ascending = false]) or smallest coefficients. *)
Definition top_list (ascending : bool) (df : list AssocRow) : list string :=
  map gene_clean
      (map Gene (take TOP_N (sort_values Spearman_r ascending df))).

(** What Step 2 builds: two dictionaries keyed by cancer name and the list
    of the names in file order. *)
Record Loaded := {
  cancer_top_pos : gmap string (list string);
  cancer_top_neg : gmap string (list string);
  cancer_list : list string
}.

(** Lines 32-40, one file: its path and the table read from it. *)
Definition load_step (st : Loaded) (f : string * list AssocRow) : Loaded :=
  let cancer := cancer_of_file f.1 in
  {| cancer_list := cancer_list st ++ [cancer];
     cancer_top_pos := <[cancer := top_list false f.2]> (cancer_top_pos st);
     cancer_top_neg := <[cancer := top_list true f.2]> (cancer_top_neg st) |}.

(** Lines 19-40 on the sorted list of result files; [None] is the
    [FileNotFoundError] of line 21. *)
Definition load (files : list (string * list AssocRow)) : option Loaded :=
  match files with
  | [] => None
  | _ =>
      Some (foldl load_step
              {| cancer_top_pos := ∅; cancer_top_neg := ∅; cancer_list := [] |}
              files)
  end.

(** Every name of [cancer_list] is a key of both dictionaries. *)
Definition keys_filed (st : Loaded) : Prop :=
  ∀ c, c ∈ cancer_list st →
       is_Some (cancer_top_pos st !! c) ∧ is_Some (cancer_top_neg st !! c).

(** [cancer_top_pos[c]]; [None] is a [KeyError]. *)
Definition top_pos_of (st : Loaded) (c : string) : option (list string) :=
  cancer_top_pos st !! c.

(** Lines 96-100: the matrix of Jaccard similarities, row by row. *)
Definition jaccard_matrix (st : Loaded) : option (list (list Q)) :=
  mapM (λ a,
          mapM (λ b,
                  la ← top_pos_of st a;
                  lb ← top_pos_of st b;
                  Enrichment.jaccard la lb)
               (cancer_list st))
       (cancer_list st).

(** Line 154. *)
Definition overlap (a b : list string) : nat :=
  size ((list_to_set a : gset string) ∩ list_to_set b).

(** Lines 151-154: the matrix of shared-gene counts. *)
Definition overlap_matrix (st : Loaded) : option (list (list nat)) :=
  mapM (λ a,
          mapM (λ b,
                  la ← top_pos_of st a;
                  lb ← top_pos_of st b;
                  Some (overlap la lb))
               (cancer_list st))
       (cancer_list st).

Definition M : nat := 60.

(** A [collections.Counter], as its items in the order the keys were first
    counted; [counter_add] counts one more occurrence of [g]. *)
Fixpoint counter_add (cnt : list (string * nat)) (g : string)
  : list (string * nat) :=
  match cnt with
  | [] => [(g, 1%nat)]
  | (k, n) :: t =>
      if String.eqb k g then (k, S n) :: t else (k, n) :: counter_add t g
  end.

(** [Counter.update(l)]. *)
Definition counter_update (cnt : list (string * nat)) (l : list string)
  : list (string * nat) :=
  foldl counter_add cnt l.

(** [cnt[g]]: 0 for a key never counted. *)
Definition counter_get (cnt : list (string * nat)) (g : string) : nat :=
  default 0%nat (Loading.loc cnt g).

(** Lines 116-118. *)
Definition pos_counter (st : Loaded) : option (list (string * nat)) :=
  foldl (λ acc c,
           cnt ← acc;
           l ← top_pos_of st c;
           Some (counter_update cnt l))
        (Some []) (cancer_list st).

(** Line 120, [sort_values("Count", ascending=False)]: as for a float
    column, reverse, sort ascending, reverse.  pandas does not fix the order
    of rows with equal counts; nothing proved below depends on it. *)
Definition by_count : relation (string * nat) := λ a b, (a.2 ≤ b.2)%nat.

#[global] Instance by_count_dec : RelDecision by_count :=
  λ a b, Nat.le_dec a.2 b.2.

Definition sort_by_count (items : list (string * nat)) : list (string * nat) :=
  reverse (merge_sort by_count (reverse items)).

(** Line 133. *)
Definition top_genes (pos_df : list (string * nat)) : list string :=
  take M (map fst pos_df).

(** [mat.loc[g, c] = 1] on a matrix given by its rows, with row labels
    [index] and column labels [columns]: every cell whose row is labelled
    [g] and whose column is labelled [c] becomes 1. *)
Definition set_loc (index columns : list string) (mat : list (list nat))
    (g c : string) : list (list nat) :=
  zip_with (λ k row,
              if String.eqb k g
              then zip_with (λ cn x, if String.eqb cn c then 1%nat else x)
                            columns row
              else row)
           index mat.

(** Lines 134-138: the presence/absence matrix over the rows [genes]. *)
Definition presence (st : Loaded) (genes : list string)
  : option (list (list nat)) :=
  foldl (λ acc c,
           mat ← acc;
           l ← top_pos_of st c;
           Some (foldl (λ mat g,
                          if bool_decide (g ∈ genes)
                          then set_loc genes (cancer_list st) mat g c
                          else mat)
                       mat l))
        (Some (replicate (length genes)
                         (replicate (length (cancer_list st)) 0%nat)))
        (cancer_list st).

End PostAnalysis.

(** ** [post_analysis_validation.py] *)

Module Validation.

Definition possible_cols : list string :=
  ["SYMBOL"; "symbol"; "Gene"; "gene"; "Hugo_Symbol"; "Gene_Symbol"].

(** [detect_gene_column], lines 33-38, on the column names of the table;
    [None] is the [ValueError]. *)
Definition detect_gene_column (columns : list string) : option string :=
  List.find (λ col, bool_decide (col ∈ columns)) possible_cols.

(** [str.upper], on the ASCII letters. *)
Definition ascii_upper (c : ascii) : ascii :=
  let n := nat_of_ascii c in
  if (97 <=? n)%nat && (n <=? 122)%nat then ascii_of_nat (n - 32) else c.

Fixpoint upper (s : string) : string :=
  match s with
  | EmptyString => EmptyString
  | String c s' => String (ascii_upper c) (upper s')
  end.

(** A table read with [pd.read_csv]: its column names and the values under
    a column, as strings. *)
Record Table := {
  columns : list string;
  column : string → list string
}.

(** Lines 47-49: the upper-cased values of a column, as a set. *)
Definition gene_set (values : list string) : gset string :=
  list_to_set (map upper values).

(** Lines 55-56 and 65-70: the genes written to a [Matched_in_...] file. *)
Definition matched (top reference : list string) : list string :=
  GeneAnalysis.sorted (elements (gene_set top ∩ gene_set reference)).

Record Report := {
  n_checked : nat;
  in_compendium : list string;
  in_unfiltered : list string
}.

(** Lines 40-70. *)
Definition validate (top_genes : list string) (compendium unfiltered : Table)
  : option Report :=
  col_comp ← detect_gene_column (columns compendium);
  col_unf ← detect_gene_column (columns unfiltered);
  Some {| n_checked := size (gene_set top_genes);
          in_compendium := matched top_genes (column compendium col_comp);
          in_unfiltered := matched top_genes (column unfiltered col_unf) |}.

End Validation.

(** ** More sample data *)

Module Sample.
Import GeneAnalysis.

(** An expression table none of whose columns names a marker. *)
Definition omics_no_marker : Frame :=
  Fixture.frame (Fixture.lung_ids ++ Fixture.skin_ids)
    ["ACTB (60)"; "GAPDH (2597)"]
    (λ i j, Fixture.num (Z.of_nat (i + j))).

(** Two result files as the enrichment script finds them. *)
Definition result_files : list (string * list AssocRow) :=
  [ (out_file "Lung Cancer", Fixture.lung_table);
    (out_file "Skin/Melanoma",
     [ {| Gene := "TP53 (7157)"; Spearman_r := Some (1 # 2)%Q;
          P := Some (1 # 10)%Q; FDR := Some (1 # 5)%Q |};
       {| Gene := "BRAF (673)"; Spearman_r := Some (-1 # 3)%Q;
          P := Some (1 # 4)%Q; FDR := Some (1 # 4)%Q |} ]) ].

Definition loaded : PostAnalysis.Loaded :=
  match PostAnalysis.load result_files with
  | Some st => st
  | None => {| PostAnalysis.cancer_top_pos := ∅;
               PostAnalysis.cancer_top_neg := ∅;
               PostAnalysis.cancer_list := [] |}
  end.

(** A table with a repeated row label. *)
Definition rows_with_duplicate : list (string * nat) :=
  [("ACH-000001", 1%nat); ("ACH-000002", 2%nat); ("ACH-000001", 3%nat)].

(** Thirty breast models.  One expression column names a marker, so the
    proxy of the n-th model is [n + 1]; the fitness row [DOWN] is [-2 n],
    [FLAT] is 0 throughout, and [UP] is [3 n + 1]. *)
Definition breast_ids : list string :=
  ["ACH-000101"; "ACH-000102"; "ACH-000103"; "ACH-000104"; "ACH-000105";
   "ACH-000106"; "ACH-000107"; "ACH-000108"; "ACH-000109"; "ACH-000110";
   "ACH-000111"; "ACH-000112"; "ACH-000113"; "ACH-000114"; "ACH-000115";
   "ACH-000116"; "ACH-000117"; "ACH-000118"; "ACH-000119"; "ACH-000120";
   "ACH-000121"; "ACH-000122"; "ACH-000123"; "ACH-000124"; "ACH-000125";
   "ACH-000126"; "ACH-000127"; "ACH-000128"; "ACH-000129"; "ACH-000130"].

Definition breast_model : list ModelRow :=
  map (λ m, {| ModelID := m; OncotreePrimaryDisease := Some "Breast Cancer" |})
      breast_ids.

Definition breast_omics : Frame :=
  Fixture.frame breast_ids ["CD274 (29126)"; "ACTB (60)"]
    (λ i j, match j with
            | 0 => Fixture.num (Z.of_nat i + 1)
            | _ => Fixture.num 1000
            end).

Definition breast_crispr : Frame :=
  Fixture.frame ["DOWN (1)"; "FLAT (2)"; "UP (3)"] breast_ids
    (λ i j, match i with
            | 0 => Fixture.num (- 2 * Z.of_nat j)
            | 1 => Fixture.num 0
            | _ => Fixture.num (3 * Z.of_nat j + 1)
            end).

(** A square root on the rationals that is exact on squares: the integer
    square roots of numerator and denominator of the reduced fraction. *)
Definition sqrt (q : Q) : Q :=
  let r := Qred q in
  Z.sqrt (Qnum r) # Pos.sqrt (Qden r).

(** A stand-in for the tail of Student's t distribution. *)
Definition t_sf (t : Q) (dof : nat) : Q := (1 / (2 * (1 + t * t)))%Q.

Definition spearmanr : list float → list float → float * float :=
  Spearman.spearmanr sqrt t_sf.

Definition breast : Outcome :=
  analyze spearmanr breast_model breast_crispr breast_omics "Breast Cancer".

Definition breast_table : list AssocRow :=
  match breast with Processed df _ => df | _ => [] end.

Definition breast_summary : SummaryRow :=
  match breast with
  | Processed _ row => row
  | _ => {| Cancer := ""; N_Models := 0; Top_Positive := ""; Top_Negative := "" |}
  end.

End Sample.

(** * Properties *)

(** ** The definitions at work *)

Section examples.
Import GeneAnalysis.

Example contains_unintended : contains "TGFB1" "TGFB1I1 (7041)" = true.
Proof. reflexivity. Qed.

Example contains_other : contains "TAP1" "TAP2 (6891)" = false.
Proof. reflexivity. Qed.

Example multipletests_numbers :
  multipletests [Some (1 # 100); Some (4 # 100); Some (3 # 100); Some (5 # 1000)]%Q
  = [Some (4 # 200); Some (16 # 400); Some (16 # 400); Some (4 # 200)]%Q.
Proof. vm_compute. reflexivity. Qed.

Example multipletests_with_nan :
  multipletests [Some (1 # 100)%Q; NaN; Some (3 # 100)%Q] = [NaN; NaN; NaN].
Proof. vm_compute. reflexivity. Qed.

Example cummin_right_numbers :
  cummin_right [Some 3%Q; Some 1%Q; Some 2%Q] = [Some 1%Q; Some 1%Q; Some 2%Q].
Proof. vm_compute. reflexivity. Qed.

Example unique_cancers_fixture :
  unique_cancers Fixture.model
  = ["LUNG CANCER"; "Lung Cancer"; "Melanoma"; "melanoma"].
Proof. vm_compute. reflexivity. Qed.

Example melanoma_skipped :
  analyze Fixture.spearmanr Fixture.model Fixture.crispr Fixture.omics_expr
          "Melanoma" = SkippedCohort 2.
Proof. vm_compute. reflexivity. Qed.

End examples.

(** ** Jaccard similarity *)

Section jaccard_facts.
Import Enrichment.

Example jaccard_ex1 :
    jaccard ["TP53"; "KRAS"; "TP53"] ["KRAS"; "MYC"] = Some (1 # 3)%Q.
Proof. vm_compute. reflexivity. Qed.

Example jaccard_ex_empty : jaccard [] [] = Some 0%Q.
Proof. reflexivity. Qed.

Lemma list_to_set_empty_inv (l : list string) :
    (list_to_set l : gset string) = ∅ → l = [].
Proof.
    destruct l as [|x l]; [done|].
    intros H. assert (x ∈ (list_to_set (x :: l) : gset string)) as Hx
      by (apply elem_of_list_to_set; left).
    rewrite H in Hx. set_solver.
Qed.

Lemma union_size_pos (A B : gset string) :
    ¬ (A = ∅ ∧ B = ∅) → (0 < size (A ∪ B))%nat.
Proof.
    intros Hne.
    destruct (decide (size (A ∪ B) = 0%nat)) as [Hz|Hz]; [|lia].
    apply size_empty_inv in Hz. apply leibniz_equiv in Hz.
    apply empty_union_L in Hz. tauto.
Qed.
End jaccard_facts.

(** C9. [jaccard] returns a value on every pair of lists: on two empty
    lists the guard answers 0; on any other pair the union of the two sets
    has a positive size, so the quotient [|A ∩ B| / |A ∪ B|] is defined and
    is the result; and the two argument orders give the same answer. *)
Theorem jaccard_total_symmetric (a b : list string) :
  match a, b with
  | [], [] => Enrichment.jaccard a b = Some 0%Q
  | _, _ =>
      let A : gset string := list_to_set a in
      let B : gset string := list_to_set b in
      (0 < size (A ∪ B))%nat ∧
      Enrichment.jaccard a b
      = Some (inject_Z (Z.of_nat (size (A ∩ B))) /
              inject_Z (Z.of_nat (size (A ∪ B))))%Q
  end
  ∧ is_Some (Enrichment.jaccard a b)
  ∧ Enrichment.jaccard a b = Enrichment.jaccard b a.
Proof.
  assert (Hne : ¬ (a = [] ∧ b = []) →
    let A : gset string := list_to_set a in
    let B : gset string := list_to_set b in
    (0 < size (A ∪ B))%nat ∧
    Enrichment.jaccard a b
    = Some (inject_Z (Z.of_nat (size (A ∩ B))) /
            inject_Z (Z.of_nat (size (A ∪ B))))%Q).
  { intros Hab A B.
    assert (¬ (A = ∅ ∧ B = ∅)) as HAB.
    { intros [HA HB]. apply Hab.
      split; apply list_to_set_empty_inv; assumption. }
    pose proof (union_size_pos A B HAB) as Hpos.
    split; [exact Hpos|].
    unfold Enrichment.jaccard. fold A B.
    destruct (decide (A = ∅ ∧ B = ∅)) as [?|_]; [tauto|].
    unfold true_div. destruct (decide (size (A ∪ B) = 0%nat)); [lia|done]. }
  split; [|split].
  - destruct a as [|x a]; destruct b as [|y b];
      [reflexivity | apply Hne; intros [_ ?]; discriminate
      | apply Hne; intros [? _]; discriminate
      | apply Hne; intros [? _]; discriminate].
  - destruct (decide (a = [] ∧ b = [])) as [[-> ->]|Hab]; [by eexists|].
    destruct (Hne Hab) as [_ ->]. by eexists.
  - unfold Enrichment.jaccard.
    rewrite (comm_L (∩) (list_to_set a : gset string)).
    rewrite (comm_L (∪) (list_to_set a : gset string)).
    destruct (decide (list_to_set a = ∅ ∧ list_to_set b = ∅)) as [H1|H1];
      destruct (decide (list_to_set b = ∅ ∧ list_to_set a = ∅)) as [H2|H2];
      tauto || reflexivity.
Qed.

(** ** Lists and strings *)

Section list_facts.
Context {A : Type}.

Lemma elem_of_List_filter (f : A → bool) (l : list A) (x : A) :
  x ∈ List.filter f l ↔ x ∈ l ∧ f x = true.
Proof. rewrite !list_elem_of_In. apply filter_In. Qed.

Lemma elem_of_map {B} (f : A → B) (l : list A) (y : B) :
  y ∈ map f l ↔ ∃ x, y = f x ∧ x ∈ l.
Proof. apply (list_elem_of_fmap f). Qed.

Lemma NoDup_List_filter (f : A → bool) (l : list A) :
  NoDup l → NoDup (List.filter f l).
Proof.
  induction 1 as [|x l Hx Hl IH]; simpl; [constructor|].
  destruct (f x); [|done].
  constructor; [|done]. rewrite elem_of_List_filter. tauto.
Qed.

Lemma List_filter_Permutation (f : A → bool) (l : list A) :
  List.filter f l ++ List.filter (λ x, negb (f x)) l ≡ₚ l.
Proof.
  induction l as [|x l IH]; simpl; [done|].
  destruct (f x); simpl.
  - by rewrite IH.
  - rewrite <- Permutation_middle. by rewrite IH.
Qed.
End list_facts.

Section cohort_facts.
Import GeneAnalysis.

Lemma sorted_Permutation (l : list string) : sorted l ≡ₚ l.
Proof. apply merge_sort_Permutation. Qed.

Lemma sorted_StronglySorted (l : list string) :
  StronglySorted String.le (sorted l).
Proof. apply StronglySorted_merge_sort; apply _. Qed.

Lemma elem_of_sorted (l : list string) (x : string) : x ∈ sorted l ↔ x ∈ l.
Proof. by rewrite sorted_Permutation. Qed.

(** Sorting forgets the order in which the elements were handed over. *)
Lemma sorted_order_irrelevant (l1 l2 : list string) :
  l1 ≡ₚ l2 → sorted l1 = sorted l2.
Proof.
  intros Hp. apply (StronglySorted_unique String.le).
  - apply sorted_StronglySorted.
  - apply sorted_StronglySorted.
  - by rewrite !sorted_Permutation.
Qed.

Lemma elem_of_unique (l : list string) (x : string) : x ∈ unique l ↔ x ∈ l.
Proof.
  induction l as [|y l IH]; simpl; [done|].
  rewrite !elem_of_cons, elem_of_List_filter, IH.
  destruct (String.eqb_spec y x) as [->|Hne]; simpl; [tauto|].
  split; [tauto|]. intros [->|?]; [done|tauto].
Qed.

Lemma NoDup_unique (l : list string) : NoDup (unique l).
Proof.
  induction l as [|y l IH]; simpl; [constructor|].
  constructor; [|by apply NoDup_List_filter].
  rewrite elem_of_List_filter. intros [_ H].
  by rewrite String.eqb_refl in H.
Qed.

Lemma elem_of_cancer_models model cancer (m : string) :
  m ∈ cancer_models model cancer ↔
  ∃ r d, r ∈ model ∧ ModelID r = m ∧
         OncotreePrimaryDisease r = Some d ∧ lower d = lower cancer.
Proof.
  unfold cancer_models. rewrite elem_of_unique, elem_of_map. split.
  - intros (r & -> & Hr). apply elem_of_List_filter in Hr as [Hr Hd].
    destruct (OncotreePrimaryDisease r) as [d|] eqn:Ed; [|done].
    apply String.eqb_eq in Hd. by exists r, d.
  - intros (r & d & Hr & <- & Ed & Hd). exists r. split; [done|].
    apply elem_of_List_filter. split; [done|].
    rewrite Ed. by apply String.eqb_eq.
Qed.

Lemma elem_of_common_models model crispr omics_expr cancer (m : string) :
  m ∈ common_models model crispr omics_expr cancer ↔
  m ∈ columns crispr ∧ m ∈ index omics_expr ∧
  m ∈ cancer_models model cancer.
Proof.
  unfold common_models, common_set.
  rewrite elem_of_sorted, elem_of_elements, !elem_of_intersection,
    !elem_of_list_to_set. tauto.
Qed.

Lemma NoDup_common_models model crispr omics_expr cancer :
  NoDup (common_models model crispr omics_expr cancer).
Proof.
  unfold common_models. rewrite sorted_Permutation. apply NoDup_elements.
Qed.
End cohort_facts.

(** C7. Whatever order the three-way intersection is enumerated in, sorting
    it gives one and the same list; that list is in ascending order, has no
    repetition, and holds exactly the identifiers that are a column of the
    fitness matrix, a row of the expression matrix and the [ModelID] of an
    annotation row whose disease label equals the requested one up to
    letter case. *)
Theorem cohort_selector_deterministic model crispr omics_expr cancer
    (enum : list string) :
  enum ≡ₚ elements (GeneAnalysis.common_set model crispr omics_expr cancer) →
  let ids := GeneAnalysis.common_models model crispr omics_expr cancer in
  GeneAnalysis.sorted enum = ids
  ∧ StronglySorted String.le ids
  ∧ NoDup ids
  ∧ ∀ m : string,
      m ∈ ids ↔
      m ∈ GeneAnalysis.columns crispr ∧
      m ∈ GeneAnalysis.index omics_expr ∧
      ∃ r d, r ∈ model ∧ GeneAnalysis.ModelID r = m ∧
             GeneAnalysis.OncotreePrimaryDisease r = Some d ∧
             GeneAnalysis.lower d = GeneAnalysis.lower cancer.
Proof.
  intros Hp ids. split; [|split; [|split]].
  - by apply sorted_order_irrelevant.
  - apply sorted_StronglySorted.
  - apply NoDup_common_models.
  - intros m. subst ids.
    rewrite elem_of_common_models, elem_of_cancer_models. tauto.
Qed.

Lemma cohort_selector_deterministic_witness :
  ["ACH-000026"; "ACH-000027"] ≡ₚ
    elements (GeneAnalysis.common_set Fixture.model Fixture.crispr
                Fixture.omics_expr "Melanoma")
  ∧ GeneAnalysis.sorted ["ACH-000026"; "ACH-000027"]
    = GeneAnalysis.common_models Fixture.model Fixture.crispr
        Fixture.omics_expr "Melanoma".
Proof.
  assert (["ACH-000026"; "ACH-000027"] ≡ₚ
    elements (GeneAnalysis.common_set Fixture.model Fixture.crispr
                Fixture.omics_expr "Melanoma")) as Hp
    by (vm_compute; apply perm_swap).
  split; [exact Hp|].
  exact (proj1 (cohort_selector_deterministic Fixture.model Fixture.crispr
                  Fixture.omics_expr "Melanoma" _ Hp)).
Defined.

(** ** The loop over cancer types *)

Section loop_facts.
Import GeneAnalysis.
Variable spearmanr : list float → list float → float * float.
Variable model : list ModelRow.
Variables crispr omics_expr : Frame.

Local Abbreviation analyze := (analyze spearmanr model crispr omics_expr).
Local Abbreviation step := (step spearmanr model crispr omics_expr).
Local Abbreviation common_models := (common_models model crispr omics_expr).
Local Abbreviation results := (results spearmanr crispr omics_expr).

Lemma analyze_small cancer :
  (length (common_models cancer) < 25)%nat →
  analyze cancer = SkippedCohort (length (common_models cancer)).
Proof.
  intros Hn. unfold GeneAnalysis.analyze.
  by apply Nat.ltb_lt in Hn as ->.
Qed.

Lemma analyze_large cancer :
  (25 ≤ length (common_models cancer))%nat →
  analyze cancer =
  match results (common_models cancer) with
  | [] => NoValidResults
  | res => Processed (results_df res)
             (summary_row cancer (length (common_models cancer))
                          (results_df res))
  end.
Proof.
  intros Hn. unfold GeneAnalysis.analyze.
  apply Nat.ltb_ge in Hn as ->. by destruct (results _).
Qed.

Lemma analyze_Processed_inv cancer df row :
  analyze cancer = Processed df row →
  (25 ≤ length (common_models cancer))%nat ∧
  results (common_models cancer) ≠ [] ∧
  df = results_df (results (common_models cancer)) ∧
  row = summary_row cancer (length (common_models cancer)) df.
Proof.
  intros H.
  destruct (decide (length (common_models cancer) < 25)%nat) as [Hn|Hn].
  { rewrite analyze_small in H by done. discriminate. }
  rewrite analyze_large in H by lia.
  destruct (results (common_models cancer)) eqn:E; [discriminate|].
  injection H as <- <-. repeat split; [lia|discriminate].
Qed.

Lemma step_summary_rows st cancer row :
  row ∈ summary_rows (step st cancer) ↔
  row ∈ summary_rows st ∨ ∃ df, analyze cancer = Processed df row.
Proof.
  unfold GeneAnalysis.step.
  destruct (analyze cancer) as [n| |df row'] eqn:E; simpl.
  - split; [tauto|]. intros [?|[? ?]]; [done|discriminate].
  - split; [tauto|]. intros [?|[? ?]]; [done|discriminate].
  - rewrite elem_of_app, list_elem_of_singleton. split.
    + intros [ ? | -> ]; [tauto|]. right. by exists df.
    + intros [?|[df' H]]; [tauto|]. right. congruence.
Qed.

Lemma step_files st cancer path df :
  (path, df) ∈ files (step st cancer) ↔
  (path, df) ∈ files st ∨
  path = out_file cancer ∧ ∃ row, analyze cancer = Processed df row.
Proof.
  unfold GeneAnalysis.step.
  destruct (analyze cancer) as [n| |df' row'] eqn:E; simpl.
  - split; [tauto|]. intros [?|[_ [? ?]]]; [done|discriminate].
  - split; [tauto|]. intros [?|[_ [? ?]]]; [done|discriminate].
  - rewrite elem_of_app, list_elem_of_singleton. split.
    + intros [ ? | Heq ]; [tauto|]. injection Heq as -> ->. right. split; [done|]. by exists row'.
    + intros [?|[-> [row H]]]; [tauto|]. right. congruence.
Qed.

Lemma foldl_step_summary_rows cancers st row :
  row ∈ summary_rows (foldl step st cancers) ↔
  row ∈ summary_rows st ∨
  ∃ cancer df, cancer ∈ cancers ∧ analyze cancer = Processed df row.
Proof.
  revert st. induction cancers as [|c cs IH]; intros st; simpl.
  - split; [tauto|]. intros [?|(? & ? & H & _)]; [done|]. by inv H.
  - rewrite IH, step_summary_rows. split.
    + intros [[?|[df H]]|(c' & df & Hc & H)]; [tauto| |].
      * right. exists c, df. split; [left|done].
      * right. exists c', df. split; [by right|done].
    + intros [?|(c' & df & Hc & H)]; [tauto|].
      apply elem_of_cons in Hc as [->|Hc].
      * left. right. by exists df.
      * right. by exists c', df.
Qed.

Lemma foldl_step_files cancers st path df :
  (path, df) ∈ files (foldl step st cancers) ↔
  (path, df) ∈ files st ∨
  ∃ cancer row, cancer ∈ cancers ∧ path = out_file cancer ∧
                analyze cancer = Processed df row.
Proof.
  revert st. induction cancers as [|c cs IH]; intros st; simpl.
  - split; [tauto|]. intros [?|(? & ? & H & _)]; [done|]. by inv H.
  - rewrite IH, step_files. split.
    + intros [[?|[-> [row H]]]|(c' & row & Hc & -> & H)]; [tauto| |].
      * right. exists c, row. split; [left|done].
      * right. exists c', row. split; [by right|done].
    + intros [?|(c' & row & Hc & -> & H)]; [tauto|].
      apply elem_of_cons in Hc as [->|Hc].
      * left. right. split; [done|]. by exists row.
      * right. by exists c', row.
Qed.

Lemma main_summary_rows row :
  row ∈ summary_rows (main spearmanr model crispr omics_expr) ↔
  ∃ cancer df, cancer ∈ unique_cancers model ∧
               analyze cancer = Processed df row.
Proof.
  unfold main. rewrite foldl_step_summary_rows. simpl.
  split; [|tauto]. intros [H|?]; [by inv H|done].
Qed.

Lemma main_files path df :
  (path, df) ∈ files (main spearmanr model crispr omics_expr) ↔
  ∃ cancer row, cancer ∈ unique_cancers model ∧ path = out_file cancer ∧
                analyze cancer = Processed df row.
Proof.
  unfold main. rewrite foldl_step_files. simpl.
  split; [|tauto]. intros [H|?]; [by inv H|done].
Qed.

Lemma summary_row_Cancer cancer df row :
  analyze cancer = Processed df row → Cancer row = cancer.
Proof. intros H. by apply analyze_Processed_inv in H as (_ & _ & _ & ->). Qed.

End loop_facts.

(** C1. A cancer type whose cohort has fewer than 25 identifiers is
    skipped: its iteration ends at the size check, leaves the tables written
    and the summary rows as they were, and the finished run holds no summary
    row for it, every table it wrote coming from another cancer type, one
    with at least 25 identifiers.  With exactly 25 identifiers the size
    check lets the iteration through to the gene loop; when the cancer type
    is one of the run's labels and some gene yields a result, the finished
    run holds its table, under its own path, and its summary row with
    [N_Models = 25]; when no gene yields a result the run holds no summary
    row for it. *)
Theorem cohort_threshold spearmanr model crispr omics_expr cancer :
  let n := length (GeneAnalysis.common_models model crispr omics_expr cancer) in
  let run := GeneAnalysis.main spearmanr model crispr omics_expr in
  let res := GeneAnalysis.results spearmanr crispr omics_expr
               (GeneAnalysis.common_models model crispr omics_expr cancer) in
  ((n < 25)%nat →
     GeneAnalysis.analyze spearmanr model crispr omics_expr cancer
       = GeneAnalysis.SkippedCohort n
     ∧ (∀ st, GeneAnalysis.step spearmanr model crispr omics_expr st cancer = st)
     ∧ (∀ row, row ∈ GeneAnalysis.summary_rows run →
               GeneAnalysis.Cancer row ≠ cancer)
     ∧ (∀ path df, (path, df) ∈ GeneAnalysis.files run →
          ∃ other, other ≠ cancer ∧ path = GeneAnalysis.out_file other ∧
            (25 ≤ length (GeneAnalysis.common_models model crispr omics_expr
                            other))%nat))
  ∧ (n = 25%nat →
     GeneAnalysis.analyze spearmanr model crispr omics_expr cancer =
       match res with
       | [] => GeneAnalysis.NoValidResults
       | _ :: _ =>
           GeneAnalysis.Processed (GeneAnalysis.results_df res)
             (GeneAnalysis.summary_row cancer 25 (GeneAnalysis.results_df res))
       end
     ∧ (cancer ∈ GeneAnalysis.unique_cancers model → res ≠ [] →
          (GeneAnalysis.out_file cancer, GeneAnalysis.results_df res)
            ∈ GeneAnalysis.files run
          ∧ GeneAnalysis.summary_row cancer 25 (GeneAnalysis.results_df res)
            ∈ GeneAnalysis.summary_rows run)
     ∧ (res = [] →
          ∀ row, row ∈ GeneAnalysis.summary_rows run →
                 GeneAnalysis.Cancer row ≠ cancer)).
Proof.
  intros n run res. split.
  - intros Hn.
    pose proof (analyze_small spearmanr model crispr omics_expr cancer Hn)
      as Hskip.
    split; [exact Hskip|]. split; [|split].
    + intros st. unfold GeneAnalysis.step. by rewrite Hskip.
    + intros row Hrow Hrc.
      apply main_summary_rows in Hrow as (c & df & _ & Hc).
      pose proof (summary_row_Cancer _ _ _ _ _ _ _ Hc) as Heq.
      rewrite Hrc in Heq. subst c. congruence.
    + intros path df Hf.
      apply main_files in Hf as (c & row & _ & -> & Hc).
      exists c. split; [congruence|]. split; [done|].
      by apply analyze_Processed_inv in Hc as (? & _).
  - intros Hn.
    assert (GeneAnalysis.analyze spearmanr model crispr omics_expr cancer =
            match res with
            | [] => GeneAnalysis.NoValidResults
            | _ :: _ =>
                GeneAnalysis.Processed (GeneAnalysis.results_df res)
                  (GeneAnalysis.summary_row cancer 25
                     (GeneAnalysis.results_df res))
            end) as Ha.
    { subst n res. rewrite analyze_large by lia. rewrite Hn.
      by destruct (GeneAnalysis.results _ _ _ _). }
    split; [exact Ha|]. subst run. clearbody res. split.
    + intros Hc Hres. destruct res as [|r res']; [done|].
      split.
      * apply main_files. exists cancer. eexists.
        split; [exact Hc|]. split; [reflexivity|exact Ha].
      * apply main_summary_rows. exists cancer. eexists.
        split; [exact Hc|exact Ha].
    + intros Hres row Hrow Hrc. rewrite Hres in Ha.
      apply main_summary_rows in Hrow as (c & df & _ & Hc).
      pose proof (summary_row_Cancer _ _ _ _ _ _ _ Hc) as Heq.
      rewrite Hrc in Heq. subst c. congruence.
Qed.

Lemma cohort_threshold_witness :
  ((length (GeneAnalysis.common_models Fixture.model Fixture.crispr24
              Fixture.omics_expr "Lung Cancer") < 25)%nat
   ∧ GeneAnalysis.analyze Fixture.spearmanr Fixture.model Fixture.crispr24
       Fixture.omics_expr "Lung Cancer" = GeneAnalysis.SkippedCohort 24)
  ∧ (length (GeneAnalysis.common_models Fixture.model Fixture.crispr
               Fixture.omics_expr "Lung Cancer") = 25%nat
     ∧ "Lung Cancer" ∈ GeneAnalysis.unique_cancers Fixture.model
     ∧ GeneAnalysis.results Fixture.spearmanr Fixture.crispr
         Fixture.omics_expr
         (GeneAnalysis.common_models Fixture.model Fixture.crispr
            Fixture.omics_expr "Lung Cancer") ≠ []
     ∧ GeneAnalysis.analyze Fixture.spearmanr Fixture.model Fixture.crispr
         Fixture.omics_expr "Lung Cancer"
       = GeneAnalysis.Processed Fixture.lung_table Fixture.lung_summary
     ∧ (GeneAnalysis.out_file "Lung Cancer", Fixture.lung_table)
       ∈ GeneAnalysis.files
           (GeneAnalysis.main Fixture.spearmanr Fixture.model Fixture.crispr
              Fixture.omics_expr)
     ∧ Fixture.lung_summary
       ∈ GeneAnalysis.summary_rows
           (GeneAnalysis.main Fixture.spearmanr Fixture.model Fixture.crispr
              Fixture.omics_expr)).
Proof.
  split.
  - assert (length (GeneAnalysis.common_models Fixture.model Fixture.crispr24
              Fixture.omics_expr "Lung Cancer") < 25)%nat as H24
      by (vm_compute; lia).
    split; [exact H24|].
    destruct (cohort_threshold Fixture.spearmanr Fixture.model
                Fixture.crispr24 Fixture.omics_expr "Lung Cancer") as [Hlt _].
    destruct (Hlt H24) as [-> _]. vm_compute. reflexivity.
  - assert (length (GeneAnalysis.common_models Fixture.model Fixture.crispr
              Fixture.omics_expr "Lung Cancer") = 25%nat) as H25
      by (vm_compute; reflexivity).
    assert ("Lung Cancer" ∈ GeneAnalysis.unique_cancers Fixture.model) as Hc
      by (vm_compute; right; left).
    assert (GeneAnalysis.results Fixture.spearmanr Fixture.crispr
              Fixture.omics_expr
              (GeneAnalysis.common_models Fixture.model Fixture.crispr
                 Fixture.omics_expr "Lung Cancer") ≠ []) as Hres
      by (vm_compute; discriminate).
    split; [exact H25|]. split; [exact Hc|]. split; [exact Hres|].
    destruct (cohort_threshold Fixture.spearmanr Fixture.model
                Fixture.crispr Fixture.omics_expr "Lung Cancer") as [_ Heq].
    destruct (Heq H25) as (Ha & Hrun & _).
    destruct (Hrun Hc Hres) as (Hf & Hs).
    split; [rewrite Ha; vm_compute; reflexivity|].
    split.
    + assert (Fixture.lung_table
              = GeneAnalysis.results_df
                  (GeneAnalysis.results Fixture.spearmanr Fixture.crispr
                     Fixture.omics_expr
                     (GeneAnalysis.common_models Fixture.model Fixture.crispr
                        Fixture.omics_expr "Lung Cancer"))) as ->
        by (vm_compute; reflexivity).
      exact Hf.
    + assert (Fixture.lung_summary
              = GeneAnalysis.summary_row "Lung Cancer" 25
                  (GeneAnalysis.results_df
                     (GeneAnalysis.results Fixture.spearmanr Fixture.crispr
                        Fixture.omics_expr
                        (GeneAnalysis.common_models Fixture.model
                           Fixture.crispr Fixture.omics_expr "Lung Cancer"))))
        as -> by (vm_compute; reflexivity).
      exact Hs.
Defined.

(** ** The immune proxy *)

Section proxy_facts.
Import GeneAnalysis.

Lemma prefix_spec (sub s : string) :
  String.prefix sub s = true ↔ ∃ post, s = (sub ++ post)%string.
Proof.
  revert s. induction sub as [|c sub IH]; intros s; simpl.
  - split; [|by destruct s]. intros _. exists s. by destruct s.
  - destruct s as [|d s]; simpl.
    + split; [discriminate|]. intros [post H]. discriminate.
    + destruct (ascii_dec c d) as [->|Hne].
      * rewrite IH. split; intros [post H]; exists post.
        -- by rewrite H.
        -- by injection H.
      * split; [discriminate|]. intros [post H]. injection H. congruence.
Qed.

(** [contains] decides the occurrence of [sub] inside [s]. *)
Lemma contains_spec (sub s : string) :
  contains sub s = true ↔ ∃ pre post, s = (pre ++ sub ++ post)%string.
Proof.
  induction s as [|c s IH].
  - change (contains sub "") with (String.prefix sub "" || false).
    rewrite orb_false_r, prefix_spec. split.
    + intros [post H]. by exists "", post.
    + intros (pre & post & H). destruct pre; [by exists post|discriminate].
  - change (contains sub (String c s))
      with (String.prefix sub (String c s) || contains sub s).
    rewrite orb_true_iff, prefix_spec, IH. split.
    + intros [[post H]|(pre & post & H)].
      * by exists "", post.
      * exists (String c pre), post. simpl. by rewrite H.
    + intros (pre & post & H). destruct pre as [|d pre]; simpl in H.
      * left. by exists post.
      * right. injection H as _ H. by exists pre, post.
Qed.

Lemma elem_of_immune_genes omics_expr (col : string) :
  col ∈ immune_genes omics_expr ↔
  col ∈ columns omics_expr ∧
  ∃ marker pre post, marker ∈ immune_markers ∧ col = (pre ++ marker ++ post)%string.
Proof.
  unfold immune_genes. rewrite elem_of_List_filter, existsb_exists.
  split; intros [Hc H]; (split; [done|]).
  - destruct H as (marker & Hm & Hs). apply contains_spec in Hs as (pre & post & ->).
    exists marker, pre, post. by rewrite list_elem_of_In.
  - destruct H as (marker & pre & post & Hm & ->). exists marker.
    rewrite <- list_elem_of_In. split; [done|].
    apply contains_spec. by exists pre, post.
Qed.

Lemma lookup_immune_proxy omics_expr common (i : nat) (m : string) :
  common !! i = Some m →
  immune_proxy omics_expr common !! i
  = Some (mean (map (cell omics_expr m) (immune_genes omics_expr))).
Proof.
  intros H. unfold immune_proxy.
  change (map ?f common) with (f <$> common).
  by rewrite list_lookup_fmap, H.
Qed.

Lemma Qsum_app (l1 l2 : list Q) : (Qsum (l1 ++ l2) == Qsum l1 + Qsum l2)%Q.
Proof.
  induction l1 as [|x l1 IH]; simpl.
  - by rewrite Qplus_0_l.
  - rewrite IH. by rewrite Qplus_assoc.
Qed.

(** The mean of a row is NaN when every cell is missing, and otherwise the
    number that, multiplied by the count of the cells present, gives their
    sum. *)
Lemma mean_spec (vals : list float) :
  match dropna vals with
  | [] => mean vals = NaN
  | present =>
      ∃ q, mean vals = Some q ∧
           (q * inject_Z (Z.of_nat (length present)) == Qsum present)%Q
  end.
Proof.
  unfold mean. destruct (dropna vals) as [|x present] eqn:E; [done|].
  eexists. split; [reflexivity|].
  field. change 0%Q with (inject_Z 0). rewrite inject_Z_injective.
  simpl. lia.
Qed.

Lemma dropna_Some (qs : list Q) : dropna (map Some qs) = qs.
Proof.
  induction qs as [|q qs IH]; [done|].
  change (dropna (map Some (q :: qs))) with (q :: dropna (map Some qs)).
  by rewrite IH.
Qed.

End proxy_facts.

(** C6. The marker panel is made of exactly the expression columns whose
    name has one of the ten marker strings somewhere inside it, and the
    proxy score of every cohort sample is the unweighted mean of that
    sample's cells under the panel columns: the sum of the cells divided by
    their number (a missing cell is left out of both; with no cell left the
    score is NaN). *)
Theorem immune_proxy_is_panel_mean omics_expr (common : list string)
    (i : nat) (m : string) :
  common !! i = Some m →
  let panel := GeneAnalysis.immune_genes omics_expr in
  let present :=
    GeneAnalysis.dropna (map (GeneAnalysis.cell omics_expr m) panel) in
  (∀ col : string,
      col ∈ panel ↔
      col ∈ GeneAnalysis.columns omics_expr ∧
      ∃ marker pre post,
        marker ∈ GeneAnalysis.immune_markers ∧ col = (pre ++ marker ++ post)%string)
  ∧ (∀ qs : list Q,
      map (GeneAnalysis.cell omics_expr m) panel = map Some qs →
      present = qs)
  ∧ match present with
    | [] => GeneAnalysis.immune_proxy omics_expr common !! i = Some NaN
    | _ =>
        ∃ q, GeneAnalysis.immune_proxy omics_expr common !! i = Some (Some q)
             ∧ (q * inject_Z (Z.of_nat (length present))
                == GeneAnalysis.Qsum present)%Q
    end.
Proof.
  intros Hi panel present. split; [|split].
  - intros col. apply elem_of_immune_genes.
  - intros qs Hqs. subst present. rewrite Hqs. apply dropna_Some.
  - rewrite (lookup_immune_proxy _ _ _ _ Hi).
    pose proof (mean_spec (map (GeneAnalysis.cell omics_expr m)
                               (GeneAnalysis.immune_genes omics_expr))) as H.
    subst present panel.
    destruct (GeneAnalysis.dropna _) as [|x present']; [by rewrite H|].
    destruct H as (q & Hm & Hq). exists q. split; [|done].
    by rewrite (lookup_immune_proxy _ _ _ _ Hi), Hm.
Qed.

Lemma immune_proxy_is_panel_mean_witness :
  GeneAnalysis.sorted Fixture.skin_ids !! 1%nat = Some "ACH-000027"
  ∧ GeneAnalysis.immune_genes Fixture.omics_expr
    = ["CD274 (29126)"; "TGFB1I1 (7041)"; "STAT1 (6772)"]
  ∧ ∃ q, GeneAnalysis.immune_proxy Fixture.omics_expr
           (GeneAnalysis.sorted Fixture.skin_ids) !! 1%nat = Some (Some q)
         ∧ (q * inject_Z 2 == GeneAnalysis.Qsum [inject_Z 26; inject_Z 625])%Q.
Proof.
  assert (GeneAnalysis.sorted Fixture.skin_ids !! 1%nat = Some "ACH-000027")
    as Hi by (vm_compute; reflexivity).
  split; [exact Hi|]. split; [vm_compute; reflexivity|].
  destruct (immune_proxy_is_panel_mean Fixture.omics_expr _ _ _ Hi)
    as (_ & _ & H).
  exact H.
Defined.

(** ** Sorting by a float column *)

Section float_order.
Import GeneAnalysis.

Lemma nan_last_le_num (x y : Q) : nan_last_le (Some x) (Some y) ↔ (x <= y)%Q.
Proof.
  unfold nan_last_le. simpl. rewrite Is_true_true. apply Qle_bool_iff.
Qed.

Lemma nan_last_ge_num (x y : Q) : nan_last_ge (Some x) (Some y) ↔ (y <= x)%Q.
Proof.
  unfold nan_last_ge. simpl. rewrite Is_true_true. apply Qle_bool_iff.
Qed.

Lemma nan_last_le_nan (a : float) : nan_last_le a NaN.
Proof. by destruct a. Qed.

Lemma nan_last_ge_nan (a : float) : nan_last_ge a NaN.
Proof. by destruct a. Qed.

Lemma nan_last_le_refl (a : float) : nan_last_le a a.
Proof. destruct a as [x|]; [|done]. apply nan_last_le_num, Qle_refl. Qed.

Lemma nan_last_le_trans (a b c : float) :
  nan_last_le a b → nan_last_le b c → nan_last_le a c.
Proof.
  destruct a as [x|], b as [y|], c as [z|]; try done.
  rewrite !nan_last_le_num. apply Qle_trans.
Qed.

Lemma nan_last_le_total (a b : float) : nan_last_le a b ∨ nan_last_le b a.
Proof.
  destruct a as [x|], b as [y|]; try (by left); try (by right).
  rewrite !nan_last_le_num.
  destruct (Qlt_le_dec x y); [left; by apply Qlt_le_weak|by right].
Qed.

Lemma float_le_nan_last (a b : float) : float_le a b → nan_last_le a b.
Proof. destruct a, b; try done. by rewrite nan_last_le_num. Qed.

Context {A : Type} (key : A → float).

#[local] Instance by_le_trans : Transitive (by_le key).
Proof. intros a b c. apply nan_last_le_trans. Qed.

#[local] Instance by_le_total : Total (by_le key).
Proof. intros a b. apply nan_last_le_total. Qed.

Lemma StronglySorted_all (R : relation A) (l : list A) :
  (∀ x y, x ∈ l → y ∈ l → R x y) → StronglySorted R l.
Proof.
  induction l as [|x l IH]; intros H; constructor.
  - apply IH. intros ????. apply H; by right.
  - apply Forall_forall. intros y Hy. apply H; [left|by right].
Qed.

Lemma StronglySorted_impl_elem (R R' : relation A) (l : list A) :
  (∀ x y, x ∈ l → y ∈ l → R x y → R' x y) →
  StronglySorted R l → StronglySorted R' l.
Proof.
  intros H Hs. induction Hs as [|x l Hs IH Hx]; constructor.
  - apply IH. intros ????. apply H; by right.
  - rewrite Forall_forall in *. intros y Hy.
    apply H; [left|by right|by apply Hx].
Qed.

Lemma StronglySorted_reverse (R : relation A) (l : list A) :
  StronglySorted R l → StronglySorted (flip R) (reverse l).
Proof.
  induction 1 as [|x l Hs IH Hx]; [constructor|].
  rewrite reverse_cons. apply StronglySorted_app. split; [|split].
  - intros y z Hy Hz. apply list_elem_of_singleton in Hz as ->.
    rewrite Forall_forall in Hx. apply Hx. by apply elem_of_reverse.
  - done.
  - repeat constructor.
Qed.

Lemma merge_sort_by_le_sorted (l : list A) :
  StronglySorted (by_le key) (merge_sort (by_le key) l).
Proof. apply StronglySorted_merge_sort; apply _. Qed.

End float_order.

Section sort_values_facts.
Import GeneAnalysis.
Variable by_ : AssocRow → float.

Lemma sort_values_Permutation (ascending : bool) (df : list AssocRow) :
  sort_values by_ ascending df ≡ₚ df.
Proof.
  unfold sort_values.
  transitivity (List.filter (λ r, negb (isnan (by_ r))) df
                ++ List.filter (λ r, isnan (by_ r)) df).
  - apply Permutation_app; [|done]. destruct ascending.
    + apply merge_sort_Permutation.
    + rewrite reverse_Permutation, merge_sort_Permutation.
      apply reverse_Permutation.
  - rewrite Permutation_app_comm.
    apply (List_filter_Permutation (λ r, isnan (by_ r))).
Qed.

Lemma elem_of_sort_values ascending df (r : AssocRow) :
  r ∈ sort_values by_ ascending df ↔ r ∈ df.
Proof. by rewrite sort_values_Permutation. Qed.

Lemma length_sort_values ascending df :
  length (sort_values by_ ascending df) = length df.
Proof. by rewrite sort_values_Permutation. Qed.

(** An ascending sort leaves the rows in ascending order of the column,
    rows with NaN at the end. *)
Lemma sort_values_ascending (df : list AssocRow) :
  StronglySorted (by_le by_) (sort_values by_ true df).
Proof.
  unfold sort_values. apply StronglySorted_app. split; [|split].
  - intros a b _ Hb. apply elem_of_List_filter in Hb as [_ Hb].
    unfold by_le. destruct (by_ b); [done|]. apply nan_last_le_nan.
  - apply (merge_sort_by_le_sorted by_).
  - apply StronglySorted_all. intros a b _ Hb.
    apply elem_of_List_filter in Hb as [_ Hb].
    unfold by_le. destruct (by_ b); [done|]. apply nan_last_le_nan.
Qed.

(** A descending sort leaves them in descending order, NaN again last. *)
Lemma sort_values_descending (df : list AssocRow) :
  StronglySorted (by_ge by_) (sort_values by_ false df).
Proof.
  unfold sort_values. apply StronglySorted_app. split; [|split].
  - intros a b _ Hb. apply elem_of_List_filter in Hb as [_ Hb].
    unfold by_ge. destruct (by_ b); [done|]. apply nan_last_ge_nan.
  - eapply StronglySorted_impl_elem;
      [|apply StronglySorted_reverse, (merge_sort_by_le_sorted by_)].
    intros a b Ha Hb. unfold flip, by_le, by_ge.
    rewrite elem_of_reverse, merge_sort_Permutation, elem_of_reverse,
      elem_of_List_filter in Ha, Hb.
    destruct Ha as [_ Ha], Hb as [_ Hb].
    by destruct (by_ a) as [x|], (by_ b) as [y|].
  - apply StronglySorted_all. intros a b _ Hb.
    apply elem_of_List_filter in Hb as [_ Hb].
    unfold by_ge. destruct (by_ b); [done|]. apply nan_last_ge_nan.
Qed.

End sort_values_facts.

(** ** The gene loop and the association table *)

Section table_facts.
Import GeneAnalysis.

Lemma length_scatter (ind : list nat) (vals out : list float) :
  length (scatter out ind vals) = length out.
Proof.
  unfold scatter. generalize (zip ind vals) as ivs. intros ivs. revert out.
  induction ivs as [|iv ivs IH]; intros out; simpl; [done|].
  by rewrite IH, length_insert.
Qed.

Lemma length_multipletests (pvals : list float) :
  length (multipletests pvals) = length pvals.
Proof.
  unfold multipletests. by rewrite length_scatter, length_replicate.
Qed.

Lemma map_zip_with_l {A B C D} (f : A → B → C) (g : C → D) (h : A → D)
    (l : list A) (k : list B) :
  (∀ a b, g (f a b) = h a) → length l = length k →
  map g (zip_with f l k) = map h l.
Proof.
  intros Hf. revert k. induction l as [|a l IH]; intros [|b k] Hlen;
    simplify_eq/=; [done|]. by rewrite Hf, IH.
Qed.

Lemma map_zip_with_r {A B C} (f : A → B → C) (g : C → B)
    (l : list A) (k : list B) :
  (∀ a b, g (f a b) = b) → length l = length k →
  map g (zip_with f l k) = k.
Proof.
  intros Hf. revert k. induction l as [|a l IH]; intros [|b k] Hlen;
    simplify_eq/=; [done|]. by rewrite Hf, IH.
Qed.

Lemma length_map_snd_eq (res : list (string * float * float)) :
  length res = length (multipletests (map snd res)).
Proof. by rewrite length_multipletests, length_map. Qed.

Lemma with_fdr_Gene res : map Gene (with_fdr res) = map (λ r, r.1.1) res.
Proof. apply map_zip_with_l; [done|apply length_map_snd_eq]. Qed.

Lemma with_fdr_P res : map P (with_fdr res) = map snd res.
Proof. apply map_zip_with_l; [done|apply length_map_snd_eq]. Qed.

Lemma with_fdr_FDR res :
  map FDR (with_fdr res) = multipletests (map snd res).
Proof. apply map_zip_with_r; [done|apply length_map_snd_eq]. Qed.

Lemma length_with_fdr res : length (with_fdr res) = length res.
Proof. by rewrite <- (length_map Gene), with_fdr_Gene, length_map. Qed.

Lemma length_results_df res : length (results_df res) = length res.
Proof. unfold results_df. by rewrite length_sort_values, length_with_fdr. Qed.

(** Every row of the table continues one entry of [results]. *)
Lemma elem_of_with_fdr res (r : AssocRow) :
  r ∈ with_fdr res → (Gene r, Spearman_r r, P r) ∈ res.
Proof.
  unfold with_fdr. generalize (multipletests (map snd res)) as fdr.
  induction res as [|[[g rho] p] res IH]; intros [|f fdr] H;
    simpl in H; try by inv H.
  apply elem_of_cons in H as [->|H]; [left|right; by eapply IH].
Qed.

Lemma elem_of_results_df_Gene res (gene : string) :
  (∃ r, r ∈ results_df res ∧ Gene r = gene) ↔
  (∃ rho p, (gene, rho, p) ∈ res).
Proof.
  split.
  - intros (r & Hr & <-). apply elem_of_sort_values, elem_of_with_fdr in Hr.
    eauto.
  - intros (rho & p & H).
    assert (gene ∈ map Gene (results_df res)) as Hg.
    { unfold results_df. rewrite sort_values_Permutation, with_fdr_Gene.
      apply elem_of_map. by exists (gene, rho, p). }
    apply elem_of_map in Hg as (r & -> & Hr). by exists r.
Qed.

(** The three masked quantities, read off the cohort directly. *)
Lemma mask_sum_mask {A} (f g : A → float) (l : list A) :
  mask_sum (mask (map f l) (map g l))
  = length (List.filter (λ a, negb (isnan (f a)) && negb (isnan (g a))) l).
Proof.
  unfold mask_sum, mask. induction l as [|a l IH]; simpl; [done|].
  destruct (negb (isnan (f a)) && negb (isnan (g a))); simpl; by rewrite IH.
Qed.

Lemma bool_index_mask {A} (f g h : A → float) (l : list A) :
  bool_index (map h l) (mask (map f l) (map g l))
  = map h (List.filter (λ a, negb (isnan (f a)) && negb (isnan (g a))) l).
Proof.
  unfold bool_index, mask. induction l as [|a l IH]; simpl; [done|].
  destruct (negb (isnan (f a)) && negb (isnan (g a))); simpl; by rewrite IH.
Qed.

End table_facts.

Section gene_loop_facts.
Import GeneAnalysis.
Variable spearmanr : list float → list float → float * float.
Variables crispr omics_expr : Frame.

(** The proxy score of one model. *)
Local Abbreviation proxy :=
  (λ m, mean (map (cell omics_expr m) (immune_genes omics_expr))).

(** The cohort models at which both the gene's fitness and the proxy score
    are numbers. *)
Local Abbreviation paired := (λ gene common,
  List.filter (λ m, negb (isnan (cell crispr gene m)) && negb (isnan (proxy m)))
              common).

Lemma gene_result_spec common gene :
  gene_result spearmanr crispr omics_expr common gene =
  if (length (paired gene common) <? 5)%nat then None
  else
    let '(rho, p) :=
      spearmanr (map (cell crispr gene) (paired gene common))
                (map proxy (paired gene common)) in
    Some (gene, rho, p).
Proof.
  unfold gene_result, immune_proxy.
  by rewrite mask_sum_mask, !bool_index_mask.
Qed.

Lemma elem_of_results common gene rho p :
  (gene, rho, p) ∈ results spearmanr crispr omics_expr common ↔
  gene ∈ index crispr ∧ (5 ≤ length (paired gene common))%nat ∧
  (rho, p) = spearmanr (map (cell crispr gene) (paired gene common))
                       (map proxy (paired gene common)).
Proof.
  unfold results. rewrite list_elem_of_omap. split.
  - intros (g & Hg & H). rewrite gene_result_spec in H.
    destruct (length (paired g common) <? 5)%nat eqn:E; [discriminate|].
    apply Nat.ltb_ge in E.
    destruct (spearmanr _ _) as [rho' p'] eqn:Es.
    injection H as -> -> ->. by rewrite Es.
  - intros (Hg & Hn & Hs). exists gene. split; [done|].
    rewrite gene_result_spec. apply Nat.ltb_ge in Hn as ->.
    by rewrite <- Hs.
Qed.

End gene_loop_facts.

(** C2. In a processed cancer type the table holds a record for a gene
    exactly when the gene is a row of the fitness matrix and at least five
    cohort models have both a fitness value for the gene and a proxy score;
    the record then carries what [spearmanr] returns on the two vectors
    restricted to those models.  A gene with fewer such models has no
    record. *)
Theorem association_record_iff_five_pairs
    spearmanr model crispr omics_expr cancer df row (gene : string) :
  GeneAnalysis.analyze spearmanr model crispr omics_expr cancer
    = GeneAnalysis.Processed df row →
  let common := GeneAnalysis.common_models model crispr omics_expr cancer in
  let proxy := λ m, GeneAnalysis.mean
                      (map (GeneAnalysis.cell omics_expr m)
                           (GeneAnalysis.immune_genes omics_expr)) in
  let paired :=
    List.filter (λ m, negb (isnan (GeneAnalysis.cell crispr gene m))
                      && negb (isnan (proxy m))) common in
  ((∃ r, r ∈ df ∧ GeneAnalysis.Gene r = gene) ↔
   gene ∈ GeneAnalysis.index crispr ∧ (5 ≤ length paired)%nat)
  ∧ (∀ r, r ∈ df → GeneAnalysis.Gene r = gene →
       (GeneAnalysis.Spearman_r r, GeneAnalysis.P r)
       = spearmanr (map (GeneAnalysis.cell crispr gene) paired)
                   (map proxy paired)).
Proof.
  intros Ha common proxy paired.
  apply analyze_Processed_inv in Ha as (_ & _ & -> & _). fold common.
  split.
  - rewrite elem_of_results_df_Gene. split.
    + intros (rho & p & H). apply elem_of_results in H as (Hg & Hn & _).
      split; [exact Hg|exact Hn].
    + intros [Hg Hn].
      destruct (spearmanr (map (GeneAnalysis.cell crispr gene) paired)
                          (map proxy paired)) as [rho p] eqn:E.
      exists rho, p. apply elem_of_results.
      split; [exact Hg|]. split; [exact Hn|]. symmetry. exact E.
  - intros r Hr <-.
    apply elem_of_sort_values, elem_of_with_fdr, elem_of_results in Hr.
    destruct Hr as (_ & _ & Hs). exact Hs.
Qed.

Lemma association_record_iff_five_pairs_witness :
  GeneAnalysis.analyze Fixture.spearmanr Fixture.model Fixture.crispr
    Fixture.omics_expr "Lung Cancer"
  = GeneAnalysis.Processed Fixture.lung_table Fixture.lung_summary
  ∧ ((∃ r, r ∈ Fixture.lung_table ∧ GeneAnalysis.Gene r = "SPARSE (0)") ↔
     "SPARSE (0)" ∈ GeneAnalysis.index Fixture.crispr ∧ (5 ≤ 3)%nat)
  ∧ ((∃ r, r ∈ Fixture.lung_table ∧ GeneAnalysis.Gene r = "KRAS (3845)") ↔
     "KRAS (3845)" ∈ GeneAnalysis.index Fixture.crispr ∧ (5 ≤ 19)%nat).
Proof.
  assert (GeneAnalysis.analyze Fixture.spearmanr Fixture.model Fixture.crispr
            Fixture.omics_expr "Lung Cancer"
          = GeneAnalysis.Processed Fixture.lung_table Fixture.lung_summary)
    as Ha by (vm_compute; reflexivity).
  split; [exact Ha|]. split.
  - exact (proj1 (association_record_iff_five_pairs _ _ _ _ _ _ _
                    "SPARSE (0)" Ha)).
  - exact (proj1 (association_record_iff_five_pairs _ _ _ _ _ _ _
                    "KRAS (3845)" Ha)).
Defined.

(** C5. The table of a processed cancer type, as it is written to its
    file, is in ascending order of the adjusted p-value.  The summary row
    names, under [Top_Positive], the genes of the first three rows of the
    table re-sorted by coefficient in descending order and, under
    [Top_Negative], those of the first three rows of the table re-sorted by
    coefficient in ascending order. *)
Theorem table_sorted_and_top_genes
    spearmanr model crispr omics_expr cancer df row :
  GeneAnalysis.analyze spearmanr model crispr omics_expr cancer
    = GeneAnalysis.Processed df row →
  StronglySorted (GeneAnalysis.by_le GeneAnalysis.FDR) df
  ∧ (∀ st, GeneAnalysis.files
             (GeneAnalysis.step spearmanr model crispr omics_expr st cancer)
           = GeneAnalysis.files st ++ [(GeneAnalysis.out_file cancer, df)])
  ∧ ∃ by_desc by_asc : list GeneAnalysis.AssocRow,
      by_desc ≡ₚ df
      ∧ StronglySorted (GeneAnalysis.by_ge GeneAnalysis.Spearman_r) by_desc
      ∧ GeneAnalysis.Top_Positive row
        = String.concat "; " (map GeneAnalysis.Gene (take 3 by_desc))
      ∧ by_asc ≡ₚ df
      ∧ StronglySorted (GeneAnalysis.by_le GeneAnalysis.Spearman_r) by_asc
      ∧ GeneAnalysis.Top_Negative row
        = String.concat "; " (map GeneAnalysis.Gene (take 3 by_asc)).
Proof.
  intros Ha. split; [|split].
  - apply analyze_Processed_inv in Ha as (_ & _ & -> & _).
    apply sort_values_ascending.
  - intros st. unfold GeneAnalysis.step. by rewrite Ha.
  - apply analyze_Processed_inv in Ha as (_ & _ & _ & ->).
    exists (GeneAnalysis.sort_values GeneAnalysis.Spearman_r false df),
           (GeneAnalysis.sort_values GeneAnalysis.Spearman_r true df).
    split; [apply sort_values_Permutation|].
    split; [apply sort_values_descending|].
    split; [done|].
    split; [apply sort_values_Permutation|].
    split; [apply sort_values_ascending|done].
Qed.

Lemma table_sorted_and_top_genes_witness :
  GeneAnalysis.analyze Fixture.spearmanr Fixture.model Fixture.crispr
    Fixture.omics_expr "Lung Cancer"
  = GeneAnalysis.Processed Fixture.lung_table Fixture.lung_summary
  ∧ StronglySorted (GeneAnalysis.by_le GeneAnalysis.FDR) Fixture.lung_table
  ∧ GeneAnalysis.Top_Positive Fixture.lung_summary
    = "MYC (4609); A1BG (1); KRAS (3845)"
  ∧ GeneAnalysis.Top_Negative Fixture.lung_summary
    = "TP53 (7157); KRAS (3845); A1BG (1)".
Proof.
  assert (GeneAnalysis.analyze Fixture.spearmanr Fixture.model Fixture.crispr
            Fixture.omics_expr "Lung Cancer"
          = GeneAnalysis.Processed Fixture.lung_table Fixture.lung_summary)
    as Ha by (vm_compute; reflexivity).
  split; [exact Ha|].
  split; [exact (proj1 (table_sorted_and_top_genes _ _ _ _ _ _ _ Ha))|].
  split; vm_compute; reflexivity.
Defined.

(** C10. Every summary row of a run belongs to a cancer type that was
    processed and whose table has at least one record (one per result of the
    gene loop).  Its [Top_Positive] and [Top_Negative] fields are each the
    join with "; " of the genes of the first rows of a re-ordering of that
    table, three of them, or all of them when the table has fewer than
    three. *)
Theorem summary_top_three spearmanr model crispr omics_expr row :
  row ∈ GeneAnalysis.summary_rows
          (GeneAnalysis.main spearmanr model crispr omics_expr) →
  ∃ cancer df (pos neg : list GeneAnalysis.AssocRow),
    cancer ∈ GeneAnalysis.unique_cancers model
    ∧ GeneAnalysis.Cancer row = cancer
    ∧ GeneAnalysis.analyze spearmanr model crispr omics_expr cancer
      = GeneAnalysis.Processed df row
    ∧ length df
      = length (GeneAnalysis.results spearmanr crispr omics_expr
                  (GeneAnalysis.common_models model crispr omics_expr cancer))
    ∧ (1 ≤ length df)%nat
    ∧ pos `sublist_of` GeneAnalysis.sort_values GeneAnalysis.Spearman_r false df
    ∧ neg `sublist_of` GeneAnalysis.sort_values GeneAnalysis.Spearman_r true df
    ∧ length pos = Nat.min 3 (length df)
    ∧ length neg = Nat.min 3 (length df)
    ∧ GeneAnalysis.Top_Positive row
      = String.concat "; " (map GeneAnalysis.Gene pos)
    ∧ GeneAnalysis.Top_Negative row
      = String.concat "; " (map GeneAnalysis.Gene neg).
Proof.
  intros Hrow. apply main_summary_rows in Hrow as (cancer & df & Hc & Ha).
  pose proof (summary_row_Cancer _ _ _ _ _ _ _ Ha) as Hcancer.
  pose proof Ha as Ha'.
  apply analyze_Processed_inv in Ha' as (_ & Hne & Hdf & Hrow).
  exists cancer, df,
    (take 3 (GeneAnalysis.sort_values GeneAnalysis.Spearman_r false df)),
    (take 3 (GeneAnalysis.sort_values GeneAnalysis.Spearman_r true df)).
  assert (length df = length (GeneAnalysis.results spearmanr crispr omics_expr
            (GeneAnalysis.common_models model crispr omics_expr cancer)))
    as Hlen by (rewrite Hdf; apply length_results_df).
  repeat split; try done.
  - rewrite Hlen.
    destruct (GeneAnalysis.results _ _ _ _); [done|simpl; lia].
  - apply sublist_take.
  - apply sublist_take.
  - by rewrite length_take, length_sort_values.
  - by rewrite length_take, length_sort_values.
  - by rewrite Hrow.
  - by rewrite Hrow.
Qed.

Lemma summary_top_three_witness :
  Fixture.lung_summary
    ∈ GeneAnalysis.summary_rows
        (GeneAnalysis.main Fixture.spearmanr Fixture.model Fixture.crispr
           Fixture.omics_expr)
  ∧ ∃ cancer (df pos neg : list GeneAnalysis.AssocRow),
      GeneAnalysis.Cancer Fixture.lung_summary = cancer
      ∧ length pos = Nat.min 3 (length df)
      ∧ length neg = Nat.min 3 (length df)
      ∧ "MYC (4609); A1BG (1); KRAS (3845)"
        = String.concat "; " (map GeneAnalysis.Gene pos)
      ∧ "TP53 (7157); KRAS (3845); A1BG (1)"
        = String.concat "; " (map GeneAnalysis.Gene neg).
Proof.
  assert (Fixture.lung_summary
    ∈ GeneAnalysis.summary_rows
        (GeneAnalysis.main Fixture.spearmanr Fixture.model Fixture.crispr
           Fixture.omics_expr)) as Hin.
  { apply list_elem_of_In. vm_compute. right. left. reflexivity. }
  split; [exact Hin|].
  destruct (summary_top_three _ _ _ _ _ Hin)
    as (cancer & df & pos & neg & _ & Hc & _ & _ & _ & _ & _ & Hp & Hn
        & Htp & Htn).
  exists cancer, df, pos, neg. repeat split; assumption.
Defined.

(** ** The multiple-testing correction *)

Section argsort_facts.
Import GeneAnalysis.

Lemma elem_of_indexed {A} (l : list A) (i : nat) (x : A) :
  (i, x) ∈ imap (λ i x, (i, x)) l ↔ l !! i = Some x.
Proof.
  rewrite list_elem_of_lookup. split.
  - intros [k Hk]. rewrite list_lookup_imap in Hk.
    destruct (l !! k) as [y|] eqn:E; simplify_eq/=. done.
  - intros H. exists i. by rewrite list_lookup_imap, H.
Qed.

Lemma fst_indexed {A} (l : list A) :
  map fst (imap (λ i x, (i, x)) l) = seq 0 (length l).
Proof.
  change (map fst ?k) with (fst <$> k). rewrite fmap_imap.
  rewrite (imap_ext _ (λ i _, i)) by done.
  rewrite (imap_seq_0 l (λ i, i)). apply list_fmap_id.
Qed.

Lemma snd_indexed {A} (l : list A) : map snd (imap (λ i x, (i, x)) l) = l.
Proof.
  change (map snd ?k) with (snd <$> k). rewrite fmap_imap.
  apply list_eq. intros i. rewrite list_lookup_imap. by destruct (l !! i).
Qed.

(** The rows [(position, value)] of [v] in sorted order. *)
Local Abbreviation sorted_pairs := (λ v : list float,
  merge_sort (by_le snd) (imap (λ i x, (i, x)) v)).

Lemma argsort_pairs v : argsort v = map fst (sorted_pairs v).
Proof. done. Qed.

Lemma sorted_pairs_Permutation v :
  sorted_pairs v ≡ₚ imap (λ i x, (i, x)) v.
Proof. apply merge_sort_Permutation. Qed.

Lemma elem_of_sorted_pairs v i x : (i, x) ∈ sorted_pairs v ↔ v !! i = Some x.
Proof. by rewrite sorted_pairs_Permutation, elem_of_indexed. Qed.

Lemma length_sorted_pairs v : length (sorted_pairs v) = length v.
Proof. by rewrite sorted_pairs_Permutation, length_imap. Qed.

Lemma argsort_Permutation v : argsort v ≡ₚ seq 0 (length v).
Proof.
  rewrite argsort_pairs, <- fst_indexed.
  change (map fst ?k) with (fst <$> k). by rewrite sorted_pairs_Permutation.
Qed.

Lemma NoDup_argsort v : NoDup (argsort v).
Proof. rewrite argsort_Permutation. apply NoDup_seq. Qed.

Lemma length_argsort v : length (argsort v) = length v.
Proof. by rewrite argsort_Permutation, length_seq. Qed.

Lemma np_take_argsort v : np_take v (argsort v) = map snd (sorted_pairs v).
Proof.
  unfold np_take. rewrite argsort_pairs, map_map.
  apply map_ext_in. intros [i x] Hin.
  apply list_elem_of_In, elem_of_sorted_pairs in Hin.
  unfold get. simpl. by rewrite Hin.
Qed.

Lemma np_take_argsort_Permutation v : np_take v (argsort v) ≡ₚ v.
Proof.
  rewrite np_take_argsort. change (map snd ?k) with (snd <$> k).
  rewrite sorted_pairs_Permutation. by rewrite <- (snd_indexed v) at 2.
Qed.

Lemma np_take_argsort_sorted v :
  StronglySorted nan_last_le (np_take v (argsort v)).
Proof.
  rewrite np_take_argsort.
  apply (StronglySorted_fmap snd (by_le snd)); [done|].
  apply (merge_sort_by_le_sorted snd).
Qed.

(** [scatter] stores the k-th value at the k-th position of [ind]. *)
Lemma scatter_lookup_notin (ind : list nat) (vals out : list float) i :
  i ∉ ind → scatter out ind vals !! i = out !! i.
Proof.
  unfold scatter. revert vals out.
  induction ind as [|j ind IH]; intros [|v vals] out Hi; simpl; try done.
  apply not_elem_of_cons in Hi as [Hij Hi].
  rewrite IH by done. by apply list_lookup_insert_ne.
Qed.

Lemma scatter_lookup (ind : list nat) (vals out : list float) k i x :
  NoDup ind → ind !! k = Some i → vals !! k = Some x → (i < length out)%nat →
  scatter out ind vals !! i = Some x.
Proof.
  unfold scatter. revert vals out k.
  induction ind as [|j ind IH]; intros [|v vals] out k Hnd Hi Hx Hlen;
    try done.
  apply NoDup_cons in Hnd as [Hj Hnd]. destruct k as [|k]; simplify_eq/=.
  - pose proof (scatter_lookup_notin ind vals (<[i:=x]> out) i Hj) as H.
    unfold scatter in H. rewrite H. by apply list_lookup_insert_eq.
  - eapply IH; eauto. by rewrite length_insert.
Qed.

End argsort_facts.

Section cummin_facts.
Import GeneAnalysis.

Lemma last_cons_default {A} (x d d' : A) (l : list A) :
  List.last (x :: l) d = List.last (x :: l) d'.
Proof.
  revert x. induction l as [|y l IH]; intros x; [done|].
  change (List.last (y :: l) d = List.last (y :: l) d'). apply IH.
Qed.

Lemma last_cons_cons {A} (x d : A) (l : list A) :
  List.last (x :: l) d = List.last l x.
Proof. destruct l as [|y l]; [done|]. apply (last_cons_default y d x). Qed.

Lemma accumulate_from_snoc (acc : float) (l : list float) (x : float) :
  accumulate_from acc (l ++ [x])
  = accumulate_from acc l ++ [minimum (List.last (accumulate_from acc l) acc) x].
Proof.
  revert acc. induction l as [|z l IH]; intros acc; [done|].
  cbn [app accumulate_from]. rewrite IH. cbn [app].
  by rewrite last_cons_cons.
Qed.

Lemma minimum_accumulate_snoc (l : list float) (x : float) :
  minimum_accumulate (l ++ [x])
  = match l with
    | [] => [x]
    | y :: _ =>
        minimum_accumulate l ++ [minimum (List.last (minimum_accumulate l) y) x]
    end.
Proof.
  destruct l as [|y l]; [done|].
  cbn [app minimum_accumulate]. rewrite accumulate_from_snoc.
  cbn [app]. by rewrite last_cons_cons.
Qed.

Lemma reverse_last {A} (l : list A) (d : A) :
  l ≠ [] → ∃ r, reverse l = List.last l d :: r.
Proof.
  destruct l as [|x l] using rev_ind; [done|]. intros _.
  exists (reverse l). by rewrite reverse_snoc, last_last.
Qed.

(** The recursive running minimum is the one the library computes with two
    reversals. *)
Lemma cummin_right_correct (l : list float) :
  reverse (minimum_accumulate (reverse l)) = cummin_right l.
Proof.
  induction l as [|x t IH]; [done|].
  rewrite reverse_cons, minimum_accumulate_snoc.
  cbn [cummin_right]. rewrite <- IH.
  destruct (reverse t) as [|y rt] eqn:E; [done|].
  rewrite reverse_snoc.
  destruct (reverse_last (minimum_accumulate (y :: rt)) y) as [r Hr]; [done|].
  by rewrite Hr.
Qed.

Lemma length_cummin_right (l : list float) :
  length (cummin_right l) = length l.
Proof.
  induction l as [|x t IH]; [done|]. cbn [cummin_right].
  destruct (cummin_right t); simpl in *; by rewrite <- IH.
Qed.

(** On numbers: the entry at position [k] is a lower bound of every entry of
    the input from [k] on, and is one of them. *)
Lemma cummin_right_Some (rs : list Q) :
  ∃ cs : list Q,
    cummin_right (map Some rs) = map Some cs ∧ length cs = length rs ∧
    ∀ k a, cs !! k = Some a →
      (∀ k' r, (k ≤ k')%nat → rs !! k' = Some r → (a <= r)%Q) ∧
      (∃ k' r, (k ≤ k')%nat ∧ rs !! k' = Some r ∧ (a == r)%Q).
Proof.
  induction rs as [|r0 t (cs & Hcs & Hlen & IH)].
  { exists []. split; [done|]. split; [done|]. intros k a Ha. done. }
  cbn [map cummin_right]. rewrite Hcs. destruct cs as [|c0 cs'].
  - destruct t; [|done]. exists [r0]. split; [done|]. split; [done|].
    intros [|k] a Ha; [|done]. simplify_eq/=. split.
    + intros [|k'] r Hk Hr; simplify_eq/=. apply Qle_refl.
    + exists 0%nat, a. split; [done|]. split; [done|]. reflexivity.
  - exists (Qmin c0 r0 :: c0 :: cs'). split; [done|]. split; [simpl in *; lia|].
    intros [|k] a Ha; simplify_eq/=.
    + destruct (IH 0%nat c0 eq_refl) as [Hlb (k1 & r1 & _ & Hr1 & Heq)]. split.
      * intros [|k'] r _ Hr; simplify_eq/=; [apply Q.le_min_r|].
        eapply Qle_trans; [apply Q.le_min_l|]. eapply Hlb; [|done]. lia.
      * destruct (Q.min_spec c0 r0) as [[_ Hm]|[_ Hm]].
        -- exists (S k1), r1. split; [lia|]. split; [done|]. by rewrite Hm.
        -- exists 0%nat, r0. split; [done|]. split; [done|]. by rewrite Hm.
    + destruct (IH k a Ha) as [Hlb (k1 & r1 & Hk1 & Hr1 & Heq)]. split.
      * intros [|k'] r Hk Hr; [lia|]. simplify_eq/=. eapply Hlb; [|done]. lia.
      * exists (S k1), r1. split; [lia|]. split; [done|done].
Qed.

(** A NaN at the end of the input spreads over the whole result. *)
Lemma cummin_right_nan (l : list float) :
  cummin_right (l ++ [NaN]) = replicate (S (length l)) NaN.
Proof.
  induction l as [|x t IH]; [done|].
  cbn [app cummin_right]. rewrite IH. simpl.
  by destruct x.
Qed.

Lemma clip_one_nan (n : nat) : clip_one (replicate n NaN) = replicate n NaN.
Proof. induction n as [|n IH]; [done|]. simpl. f_equal. apply IH. Qed.

Lemma scatter_nan (ind : list nat) (m n : nat) :
  scatter (replicate n NaN) ind (replicate m NaN) = replicate n NaN.
Proof.
  unfold scatter. revert m. induction ind as [|i ind IH]; intros [|m];
    simpl; try done.
  rewrite list_insert_id'; [apply IH|].
  rewrite length_replicate. intros Hi. by apply lookup_replicate_2.
Qed.

End cummin_facts.

Section rank_facts.
Import GeneAnalysis.

(** [z] as a rational. *)
Local Abbreviation QN n := (inject_Z (Z.of_nat n)).

Lemma QN_pos (n : nat) : (0 < n)%nat → (0 < QN n)%Q.
Proof.
  intros H. change 0%Q with (inject_Z 0). rewrite <- Zlt_Qlt. lia.
Qed.

Lemma QN_le (m n : nat) : (m ≤ n)%nat → (QN m <= QN n)%Q.
Proof. intros H. rewrite <- Zle_Qle. lia. Qed.

Lemma ratio_pos (k n : nat) : (0 < k)%nat → (0 < n)%nat → (0 < QN k / QN n)%Q.
Proof.
  intros Hk Hn. apply Qlt_shift_div_l; [by apply QN_pos|].
  rewrite Qmult_0_l. by apply QN_pos.
Qed.

Lemma ratio_le (k c n : nat) :
  (k ≤ c)%nat → (0 < n)%nat → (QN k / QN n <= QN c / QN n)%Q.
Proof.
  intros Hkc Hn. apply Qmult_le_compat_r; [by apply QN_le|].
  apply Qinv_le_0_compat, Qlt_le_weak. by apply QN_pos.
Qed.

(** Dividing a non-negative number by a larger positive one gives less. *)
Lemma Qdiv_le_anti (q d1 d2 : Q) :
  (0 <= q)%Q → (0 < d2)%Q → (d2 <= d1)%Q → (q / d1 <= q / d2)%Q.
Proof.
  intros Hq Hd2 Hd. assert (0 < d1)%Q as Hd1 by (by eapply Qlt_le_trans).
  apply Qle_shift_div_l; [done|].
  apply Qle_trans with (q / d1 * d1)%Q.
  - rewrite !(Qmult_comm (q / d1)).
    apply Qmult_le_compat_r; [done|].
    apply Qle_shift_div_l; [done|]. by rewrite Qmult_0_l.
  - rewrite Qmult_comm, Qmult_div_r; [apply Qle_refl|].
    intros H0. rewrite H0 in Hd1. by apply Qlt_irrefl in Hd1.
Qed.

Lemma count_le_Permutation (l l' : list Q) (t : Q) :
  l ≡ₚ l' → count_le l t = count_le l' t.
Proof.
  unfold count_le. induction 1 as [|x l l' _ IH|x y l|l l' l'' _ IH1 _ IH2];
    simpl; [done| | |congruence].
  - destruct (Qle_bool x t); simpl; by rewrite IH.
  - by destruct (Qle_bool x t), (Qle_bool y t).
Qed.

Lemma count_le_length (l : list Q) (t : Q) : (count_le l t ≤ length l)%nat.
Proof.
  unfold count_le. induction l as [|x l IH]; simpl; [done|].
  destruct (Qle_bool x t); simpl; lia.
Qed.

Lemma bh_bound_Permutation (l l' : list Q) (t : Q) :
  l ≡ₚ l' → bh_bound l t = bh_bound l' t.
Proof.
  intros H. unfold bh_bound.
  by rewrite (count_le_Permutation _ _ _ H), (Permutation_length H).
Qed.

Lemma bh_adjusted_Permutation (l l' : list Q) (p a : Q) :
  l ≡ₚ l' → bh_adjusted l p a → bh_adjusted l' p a.
Proof.
  intros H (H1 & Hlb & Hat). split; [done|]. split.
  - intros t Ht Hpt. rewrite <- (bh_bound_Permutation _ _ _ H).
    apply Hlb; [|done]. by rewrite H.
  - destruct Hat as [?|(t & Ht & Hpt & Heq)]; [by left|right].
    exists t. rewrite H in Ht. by rewrite <- (bh_bound_Permutation _ _ _ H).
Qed.

Lemma sorted_lookup_le (sq : list Q) (k k' : nat) (a b : Q) :
  StronglySorted Qle sq → (k ≤ k')%nat →
  sq !! k = Some a → sq !! k' = Some b → (a <= b)%Q.
Proof.
  intros Hs. revert k k'. induction Hs as [|x sq Hs IH Hx]; intros k k' Hk Ha Hb;
    [done|].
  destruct k as [|k], k' as [|k']; simplify_eq/=.
  - apply Qle_refl.
  - rewrite Forall_forall in Hx. apply Hx. by eapply list_elem_of_lookup_2.
  - lia.
  - eapply IH; [|done..]. lia.
Qed.

(** In a sorted list the entries not above [t] are exactly the first
    [count_le sq t] ones. *)
Lemma count_le_prefix (sq : list Q) (t : Q) (k : nat) (q : Q) :
  StronglySorted Qle sq → sq !! k = Some q →
  ((q <= t)%Q ↔ (k < count_le sq t)%nat).
Proof.
  intros Hs. revert k. unfold count_le.
  induction Hs as [|x sq Hs IH Hx]; intros k Hk; [done|]. simpl.
  destruct (Qle_bool x t) eqn:E.
  - apply Qle_bool_iff in E. destruct k as [|k]; simplify_eq/=.
    + split; [lia|done].
    + rewrite (IH k Hk). lia.
  - assert (¬ (x <= t)%Q) as Hxt.
    { intros H. apply Qle_bool_iff in H. congruence. }
    assert (List.filter (λ q0, Qle_bool q0 t) sq = []) as ->.
    { clear IH Hk. induction sq as [|y sq IH]; [done|]. simpl.
      apply Forall_cons in Hx as [Hxy Hx]. apply StronglySorted_inv in Hs as [Hs _].
      destruct (Qle_bool y t) eqn:Ey; [|by apply IH].
      apply Qle_bool_iff in Ey. destruct Hxt. by eapply Qle_trans. }
    simpl. split; [|lia]. intros Hq. destruct Hxt.
    destruct k as [|k]; simplify_eq/=; [done|].
    rewrite Forall_forall in Hx. eapply Qle_trans; [|exact Hq].
    apply Hx. by eapply list_elem_of_lookup_2.
Qed.

(** The entry of rank [count_le sq t] in a sorted list holding [t] is [t]. *)
Lemma lookup_count_le (sq : list Q) (t : Q) :
  StronglySorted Qle sq → t ∈ sq →
  ∃ q, sq !! pred (count_le sq t) = Some q ∧ (q == t)%Q
       ∧ (0 < count_le sq t)%nat.
Proof.
  intros Hs Ht. apply list_elem_of_lookup in Ht as [j Hj].
  assert (j < count_le sq t)%nat as Hjc.
  { apply (count_le_prefix sq t j t Hs Hj). apply Qle_refl. }
  pose proof (count_le_length sq t) as Hlen.
  destruct (lookup_lt_is_Some_2 sq (pred (count_le sq t))) as [q Hq]; [lia|].
  exists q. split; [done|]. split; [|lia].
  apply Qle_antisym.
  - apply (count_le_prefix sq t _ q Hs Hq). lia.
  - apply (sorted_lookup_le sq j (pred (count_le sq t))); [done|lia|done..].
Qed.

End rank_facts.

Section bh_facts.
Import GeneAnalysis.

Local Abbreviation QN n := (inject_Z (Z.of_nat n)).

Lemma length_ecdf (n : nat) : length (ecdf n) = n.
Proof. unfold ecdf. by rewrite length_map, length_seq. Qed.

Lemma lookup_ecdf (n k : nat) :
  (k < n)%nat → ecdf n !! k = Some (Some (QN (S k) / QN n)%Q).
Proof.
  intros H. unfold ecdf. change (map ?f ?l) with (f <$> l).
  by rewrite list_lookup_fmap, lookup_seq_lt.
Qed.

(** The scaled p-values of a sorted list of numbers. *)
Lemma raw_Some (sq : list Q) (n : nat) :
  (length sq ≤ n)%nat →
  zip_with fdiv (map Some sq) (ecdf n)
  = map Some (imap (λ j q, q / (QN (S j) / QN n))%Q sq).
Proof.
  intros Hn. change (map ?f ?l) with (f <$> l).
  apply list_eq. intros k.
  rewrite lookup_zip_with, !list_lookup_fmap, list_lookup_imap.
  destruct (sq !! k) as [q|] eqn:E; [|done]. simpl.
  apply lookup_lt_Some in E. rewrite lookup_ecdf by lia. done.
Qed.

(** The Benjamini-Hochberg values of a sorted list of non-negative numbers:
    the running minimum of the scaled p-values at position [k] is the least
    step-up bound among the entries not below the k-th. *)
Lemma bh_sorted_spec (sq : list Q) :
  StronglySorted Qle sq → Forall (Qle 0) sq →
  ∃ cs : list Q,
    cummin_right (zip_with fdiv (map Some sq) (ecdf (length sq)))
    = map Some cs
    ∧ length cs = length sq
    ∧ ∀ k q a, sq !! k = Some q → cs !! k = Some a →
        (∀ t, t ∈ sq → (q <= t)%Q → (a <= bh_bound sq t)%Q)
        ∧ (∃ t, t ∈ sq ∧ (q <= t)%Q ∧ (a == bh_bound sq t)%Q).
Proof.
  intros Hs Hpos. rewrite raw_Some by done.
  destruct (cummin_right_Some
              (imap (λ j q, q / (QN (S j) / QN (length sq)))%Q sq))
    as (cs & Hcs & Hlen & Hspec).
  exists cs. split; [done|]. split; [by rewrite Hlen, length_imap|].
  intros k q a Hq Ha. destruct (Hspec k a Ha) as [Hlb (k' & r & Hk' & Hr & Heq)].
  assert (0 < length sq)%nat as Hn by (apply lookup_lt_Some in Hq; lia).
  assert (Hlower : ∀ t, t ∈ sq → (q <= t)%Q → (a <= bh_bound sq t)%Q).
  { intros t Ht Hqt.
    destruct (lookup_count_le sq t Hs Ht) as (q' & Hq' & Hq't & Hc).
    assert (k ≤ pred (count_le sq t))%nat as Hk.
    { apply (count_le_prefix sq t k q Hs Hq) in Hqt. lia. }
    eapply Qle_trans.
    - apply (Hlb (pred (count_le sq t)) (q' / (QN (count_le sq t)
                                                / QN (length sq)))%Q Hk).
      rewrite list_lookup_imap, Hq'. simpl.
      by replace (S (pred (count_le sq t))) with (count_le sq t) by lia.
    - unfold bh_bound. rewrite Hq't. apply Qle_refl. }
  split; [exact Hlower|].
  rewrite list_lookup_imap in Hr.
  destruct (sq !! k') as [q'|] eqn:Hq'; simplify_eq/=.
  exists q'. split; [by eapply list_elem_of_lookup_2|].
  assert (q <= q')%Q as Hqq' by (by eapply (sorted_lookup_le sq k k')).
  split; [done|]. apply Qle_antisym.
  - apply Hlower; [by eapply list_elem_of_lookup_2|done].
  - rewrite Heq. unfold bh_bound.
    assert (k' < count_le sq q')%nat as Hc.
    { apply (count_le_prefix sq q' k' q' Hs Hq'). apply Qle_refl. }
    apply Qdiv_le_anti.
    + rewrite Forall_forall in Hpos. apply Hpos.
      by eapply list_elem_of_lookup_2.
    + apply ratio_pos; lia.
    + apply ratio_le; lia.
Qed.

Lemma clip_one_Some (cs : list Q) :
  clip_one (map Some cs)
  = map Some (map (λ x, if Qle_bool x 1 then x else 1%Q) cs).
Proof.
  unfold clip_one. rewrite !map_map. apply map_ext. intros x.
  by destruct (Qle_bool x 1).
Qed.

Lemma clip_spec (x : Q) :
  let c := if Qle_bool x 1 then x else 1%Q in
  (c <= 1)%Q ∧ (c <= x)%Q ∧ (c = 1%Q ∨ c = x).
Proof.
  simpl. destruct (Qle_bool x 1) eqn:E.
  - apply Qle_bool_iff in E. split; [done|]. split; [apply Qle_refl|by right].
  - split; [apply Qle_refl|]. split; [|by left].
    destruct (Qlt_le_dec 1 x) as [H|H]; [by apply Qlt_le_weak|].
    apply Qle_bool_iff in H. congruence.
Qed.

Lemma map_Some_dropna (l : list float) :
  Forall (λ x, x ≠ NaN) l → map Some (dropna l) = l.
Proof.
  induction 1 as [|x l Hx _ IH]; [done|].
  destruct x as [q|]; [|done].
  change (dropna (Some q :: l)) with (q :: dropna l). simpl. by rewrite IH.
Qed.

Lemma StronglySorted_Some_inv (sq : list Q) :
  StronglySorted nan_last_le (map Some sq) → StronglySorted Qle sq.
Proof.
  induction sq as [|x sq IH]; [constructor|]. simpl.
  intros [Hs Hx]%StronglySorted_inv. constructor; [by apply IH|].
  apply Forall_forall. intros y Hy. apply nan_last_le_num.
  rewrite Forall_forall in Hx. apply Hx.
  apply elem_of_map. by exists y.
Qed.

(** Without NaN and with non-negative raw p-values, the value returned at
    position [i] is the Benjamini-Hochberg adjustment of the raw p-value at
    position [i]. *)
Lemma multipletests_spec (qs : list Q) (i : nat) (p : Q) :
  Forall (Qle 0) qs → qs !! i = Some p →
  ∃ a, multipletests (map Some qs) !! i = Some (Some a) ∧ bh_adjusted qs p a.
Proof.
  intros Hpos Hi. set (ps := map Some qs : list float).
  assert (ps !! i = Some (Some p : float)) as Hpi.
  { unfold ps. change (map ?f ?l) with (f <$> l).
    by rewrite list_lookup_fmap, Hi. }
  pose proof (np_take_argsort_Permutation ps) as Hperm.
  pose proof (np_take_argsort_sorted ps) as Hsorted.
  assert (Forall (λ x, x ≠ NaN) (np_take ps (argsort ps))) as Hnum.
  { rewrite Hperm. unfold ps. apply Forall_forall. intros x Hx.
    apply elem_of_map in Hx as (q & -> & _). done. }
  set (sq := dropna (np_take ps (argsort ps))).
  assert (np_take ps (argsort ps) = map Some sq) as HS
    by (symmetry; by apply map_Some_dropna).
  assert (sq ≡ₚ qs) as Hsq.
  { unfold sq, dropna. rewrite Hperm. fold (dropna ps). unfold ps.
    by rewrite dropna_Some. }
  assert (StronglySorted Qle sq) as Hs.
  { apply StronglySorted_Some_inv. by rewrite <- HS. }
  assert (Forall (Qle 0) sq) as Hsqpos by (by rewrite Hsq).
  destruct (bh_sorted_spec sq Hs Hsqpos) as (cs & Hcs & Hlen & Hspec).
  (* the position of [i] in the sorted order *)
  assert (i ∈ argsort ps) as Hin.
  { rewrite argsort_Permutation. apply elem_of_seq.
    apply lookup_lt_Some in Hpi. split; [lia|exact Hpi]. }
  apply list_elem_of_lookup in Hin as [k Hk].
  assert (sq !! k = Some p) as Hkq.
  { assert (map Some sq !! k = Some (Some p)) as H.
    { rewrite <- HS. unfold np_take. change (map ?f ?l) with (f <$> l).
      rewrite list_lookup_fmap, Hk. simpl. unfold get. by rewrite Hpi. }
    change (map ?f ?l) with (f <$> l) in H.
    rewrite list_lookup_fmap in H. by destruct (sq !! k); simplify_eq/=. }
  destruct (lookup_lt_is_Some_2 cs k) as [a0 Ha0].
  { rewrite Hlen. by eapply lookup_lt_Some. }
  destruct (Hspec k p a0 Hkq Ha0) as [Hlb (t & Ht & Hpt & Heq)].
  set (clip := λ x : Q, if Qle_bool x 1 then x else 1%Q).
  exists (clip (clip a0)). split.
  - unfold multipletests. fold ps. rewrite HS, length_map.
    rewrite cummin_right_correct, Hcs, !clip_one_Some. fold clip.
    eapply scatter_lookup; [apply NoDup_argsort|exact Hk| |].
    + change (map ?f ?l) with (f <$> l).
      by rewrite !list_lookup_fmap, Ha0.
    + rewrite length_replicate. by eapply lookup_lt_Some.
  - apply (bh_adjusted_Permutation sq qs _ _ Hsq).
    subst clip. cbv beta.
    destruct (clip_spec a0) as (H1 & H2 & H3).
    destruct (clip_spec (if Qle_bool a0 1 then a0 else 1%Q))
      as (H1' & H2' & H3').
    split; [done|]. split.
    + intros t' Ht' Hpt'. eapply Qle_trans; [exact H2'|].
      eapply Qle_trans; [exact H2|]. by apply Hlb.
    + destruct H3' as [ Hc | Hc ]; rewrite Hc; [by left|].
      destruct H3 as [ Hc0 | Hc0 ]; rewrite Hc0; [by left|]. right. by exists t.
Qed.

(** A single NaN among the raw p-values makes every adjusted value NaN. *)
Lemma multipletests_nan (pvals : list float) :
  NaN ∈ pvals → multipletests pvals = replicate (length pvals) NaN.
Proof.
  intros Hnan. unfold multipletests.
  pose proof (np_take_argsort_Permutation pvals) as Hperm.
  pose proof (np_take_argsort_sorted pvals) as Hsorted.
  rewrite <- Hperm in Hnan.
  destruct (np_take pvals (argsort pvals)) as [|z srt] using rev_ind;
    [by inv Hnan|]. clear IHsrt.
  assert (z = NaN) as ->.
  { apply elem_of_app in Hnan as [Hnan|Hnan].
    - apply StronglySorted_app in Hsorted as (H & _ & _).
      specialize (H NaN z Hnan). destruct z; [|done].
      exfalso. apply (H ltac:(left)).
    - by apply list_elem_of_singleton in Hnan. }
  rewrite length_app. simpl.
  assert (∃ raw : list float,
            zip_with fdiv (srt ++ [NaN]) (ecdf (length srt + 1))
                 = raw ++ [NaN] ∧ length raw = length srt) as (raw & -> & Hraw).
  { rewrite <- (take_drop (length srt) (ecdf (length srt + 1))).
    rewrite zip_with_app
      by (rewrite length_take, length_ecdf; lia).
    exists (zip_with fdiv srt (take (length srt) (ecdf (length srt + 1)))).
    split.
    - f_equal.
      assert (length (drop (length srt) (ecdf (length srt + 1))) = 1%nat) as Hd
        by (rewrite length_drop, length_ecdf; lia).
      by destruct (drop _ _) as [|e [|??]].
    - rewrite length_zip_with_l_eq; [done|].
      rewrite length_take, length_ecdf. lia. }
  rewrite cummin_right_correct, cummin_right_nan, !clip_one_nan.
  apply scatter_nan.
Qed.

End bh_facts.

Section fdr_column_facts.
Import GeneAnalysis.

Lemma bh_adjusted_mono (qs : list Q) (p p' a a' : Q) :
  bh_adjusted qs p a → bh_adjusted qs p' a' → (p <= p')%Q → (a <= a')%Q.
Proof.
  intros (H1 & Hlb & _) (_ & _ & Hat) Hpp.
  destruct Hat as [Heq|(t & Ht & Hpt & Heq)]; rewrite Heq; [done|].
  apply Hlb; [done|]. by eapply Qle_trans.
Qed.

Lemma float_list_cases (l : list float) :
  NaN ∈ l ∨ ∃ qs : list Q, l = map Some qs.
Proof.
  induction l as [|[q|] l [IH|[qs ->]]].
  - right. by exists [].
  - left. by right.
  - right. by exists (q :: qs).
  - left. left.
  - left. left.
Qed.

Lemma pvalue_ok_Forall (qs : list Q) :
  Forall pvalue_ok (map Some qs) → Forall (Qle 0) qs.
Proof.
  rewrite !Forall_forall. intros H q Hq.
  assert (pvalue_ok (Some q)) as Hok.
  { apply H, elem_of_map. by exists q. }
  unfold pvalue_ok in Hok. simpl in Hok.
  by apply Is_true_true, Qle_bool_iff in Hok.
Qed.

(** A row of the table sits at the position of its raw p-value. *)
Lemma with_fdr_lookup res (i : nat) (r : AssocRow) :
  with_fdr res !! i = Some r →
  res !! i = Some (Gene r, Spearman_r r, P r) ∧
  map snd res !! i = Some (P r) ∧
  multipletests (map snd res) !! i = Some (FDR r).
Proof.
  unfold with_fdr. intros H.
  apply lookup_zip_with_Some in H as ([[g rho] p] & f & -> & Hres & Hf).
  simpl. split; [done|]. split; [|done].
  change (map ?f ?l) with (f <$> l). by rewrite list_lookup_fmap, Hres.
Qed.

(** Rows compared by their raw p-values compare the same way by their
    adjusted ones. *)
Lemma with_fdr_monotone res (a b : AssocRow) :
  Forall pvalue_ok (map snd res) →
  a ∈ with_fdr res → b ∈ with_fdr res →
  nan_last_le (P a) (P b) →
  ¬ float_lt (FDR b) (FDR a)
  ∧ (NaN ∉ map snd res → float_le (FDR a) (FDR b)).
Proof.
  intros Hok Ha Hb Hab.
  apply list_elem_of_lookup in Ha as [i Hi], Hb as [j Hj].
  apply with_fdr_lookup in Hi as (_ & Hpi & Hfi), Hj as (_ & Hpj & Hfj).
  destruct (float_list_cases (map snd res)) as [Hnan|[qs Hqs]].
  - split; [|done].
    rewrite (multipletests_nan _ Hnan) in Hfj.
    apply lookup_replicate in Hfj as [Hb _]. rewrite Hb. intros H. exact H.
  - rewrite Hqs in *. apply pvalue_ok_Forall in Hok.
    change (map ?f ?l) with (f <$> l) in Hpi, Hpj.
    rewrite list_lookup_fmap in Hpi, Hpj.
    destruct (qs !! i) as [pa|] eqn:Ei; [|done].
    destruct (qs !! j) as [pb|] eqn:Ej; [|done].
    simpl in Hpi, Hpj. injection Hpi as Hpa. injection Hpj as Hpb.
    change (Some <$> qs) with (map Some qs) in *.
    destruct (multipletests_spec qs i pa Hok Ei) as (fa & Hfa & Hadj_a).
    destruct (multipletests_spec qs j pb Hok Ej) as (fb & Hfb & Hadj_b).
    rewrite <- Hpa, <- Hpb in Hab. apply nan_last_le_num in Hab.
    pose proof (bh_adjusted_mono qs pa pb fa fb Hadj_a Hadj_b Hab) as Hle.
    assert (FDR a = Some fa) as Hfa'.
    { apply (inj Some). etrans; [symmetry; exact Hfi|exact Hfa]. }
    assert (FDR b = Some fb) as Hfb'.
    { apply (inj Some). etrans; [symmetry; exact Hfj|exact Hfb]. }
    rewrite Hfa', Hfb'. simpl. split; [|done].
    by apply Qle_not_lt.
Qed.

End fdr_column_facts.

Section fdr_table_facts.
Import GeneAnalysis.
Variable spearmanr : list float → list float → float * float.
Variable model : list ModelRow.
Variables crispr omics_expr : Frame.

(** The table of a processed cancer type is the sorted form of the table
    that pairs the gene loop's results with their adjusted p-values. *)
Lemma Processed_table cancer df row :
  analyze spearmanr model crispr omics_expr cancer = Processed df row →
  df = sort_values FDR true
         (with_fdr (results spearmanr crispr omics_expr
                      (common_models model crispr omics_expr cancer))).
Proof. intros H. by apply analyze_Processed_inv in H as (_ & _ & -> & _). Qed.

Lemma Forall_P_with_fdr (Q : float → Prop) res df :
  df ≡ₚ with_fdr res → Forall (λ r, Q (P r)) df → Forall Q (map snd res).
Proof.
  intros Hp H. rewrite <- with_fdr_P, <- Hp.
  change (map P df) with (P <$> df). by apply Forall_fmap.
Qed.

End fdr_table_facts.

(** C3. Arrange the table of a processed cancer type in ascending order of
    the raw p-value, in any way ties allow.  When no raw p-value is NaN,
    every adjusted p-value is a number at most equal to each one after it:
    the sequence is non-decreasing.  When some raw p-value is NaN, every
    adjusted p-value of the table is NaN, and a sequence of NaN is not
    non-decreasing.  The raw p-values are taken to be probabilities: NaN or
    not negative. *)
Theorem fdr_monotone_in_raw_p
    spearmanr model crispr omics_expr cancer df row
    (by_p : list GeneAnalysis.AssocRow) :
  GeneAnalysis.analyze spearmanr model crispr omics_expr cancer
    = GeneAnalysis.Processed df row →
  Forall (λ r, GeneAnalysis.pvalue_ok (GeneAnalysis.P r)) df →
  by_p ≡ₚ df →
  StronglySorted (GeneAnalysis.by_le GeneAnalysis.P) by_p →
  (Forall (λ r, GeneAnalysis.P r ≠ NaN) df →
     StronglySorted
       (λ a b, float_le (GeneAnalysis.FDR a) (GeneAnalysis.FDR b)) by_p)
  ∧ (Exists (λ r, GeneAnalysis.P r = NaN) df →
     Forall (λ r, GeneAnalysis.FDR r = NaN) by_p).
Proof.
  intros Ha Hok Hperm Hsorted.
  apply Processed_table in Ha.
  set (res := GeneAnalysis.results spearmanr crispr omics_expr
                (GeneAnalysis.common_models model crispr omics_expr cancer))
    in Ha.
  assert (df ≡ₚ GeneAnalysis.with_fdr res) as Hdf
    by (rewrite Ha; apply sort_values_Permutation).
  assert (∀ r, r ∈ by_p → r ∈ GeneAnalysis.with_fdr res) as Hin
    by (intros r; by rewrite Hperm, Hdf).
  pose proof (Forall_P_with_fdr GeneAnalysis.pvalue_ok _ _ Hdf Hok) as Hok'.
  split.
  - intros Hnum. eapply StronglySorted_impl_elem; [|exact Hsorted].
    intros a b Hia Hib Hab.
    apply (with_fdr_monotone res a b Hok' (Hin a Hia) (Hin b Hib) Hab).
    pose proof (Forall_P_with_fdr (λ x, x ≠ NaN) _ _ Hdf Hnum) as Hnum'.
    rewrite Forall_forall in Hnum'. intros Hnan. by apply (Hnum' NaN).
  - intros Hnan. apply Forall_forall. intros r Hr.
    assert (NaN ∈ map snd res) as Hnan'.
    { rewrite <- with_fdr_P, <- Hdf. apply Exists_exists in Hnan as (x & Hx & E).
      apply elem_of_map. by exists x. }
    apply Hin, list_elem_of_lookup in Hr as [i Hi].
    apply with_fdr_lookup in Hi as (_ & _ & Hf).
    rewrite (multipletests_nan _ Hnan') in Hf.
    by apply lookup_replicate in Hf as [Hf _].
Qed.

Lemma fdr_monotone_in_raw_p_witness :
  GeneAnalysis.analyze Fixture.spearmanr Fixture.model Fixture.crispr
    Fixture.omics_expr "Lung Cancer"
  = GeneAnalysis.Processed Fixture.lung_table Fixture.lung_summary
  ∧ Forall (λ r, GeneAnalysis.pvalue_ok (GeneAnalysis.P r)) Fixture.lung_table
  ∧ Forall (λ r, GeneAnalysis.P r ≠ NaN) Fixture.lung_table
  ∧ map GeneAnalysis.Gene
        (GeneAnalysis.sort_values GeneAnalysis.P true Fixture.lung_table)
    = ["TP53 (7157)"; "KRAS (3845)"; "A1BG (1)"; "MYC (4609)"]
  ∧ StronglySorted
      (λ a b, float_le (GeneAnalysis.FDR a) (GeneAnalysis.FDR b))
      (GeneAnalysis.sort_values GeneAnalysis.P true Fixture.lung_table).
Proof.
  assert (GeneAnalysis.analyze Fixture.spearmanr Fixture.model Fixture.crispr
            Fixture.omics_expr "Lung Cancer"
          = GeneAnalysis.Processed Fixture.lung_table Fixture.lung_summary)
    as Ha by (vm_compute; reflexivity).
  assert (Forall (λ r, GeneAnalysis.pvalue_ok (GeneAnalysis.P r))
                 Fixture.lung_table) as Hok
    by (vm_compute; repeat constructor).
  assert (Forall (λ r, GeneAnalysis.P r ≠ NaN) Fixture.lung_table) as Hnum
    by (vm_compute; repeat constructor; discriminate).
  split; [exact Ha|]. split; [exact Hok|]. split; [exact Hnum|].
  split; [vm_compute; reflexivity|].
  exact (proj1 (fdr_monotone_in_raw_p _ _ _ _ _ _ _ _ Ha Hok
                  (sort_values_Permutation _ true _)
                  (sort_values_ascending _ _)) Hnum).
Defined.

(** Monotonicity fails on a table with a NaN raw p-value.  Of the three
    genes of the breast cohort, [FLAT] is constant, so its coefficient and
    raw p-value are NaN; the correction then makes every adjusted p-value
    NaN, and in ascending order of the raw p-value the adjusted ones are not
    non-decreasing. *)
Lemma fdr_not_monotone_with_nan :
  GeneAnalysis.analyze Sample.spearmanr Sample.breast_model
    Sample.breast_crispr Sample.breast_omics "Breast Cancer"
  = GeneAnalysis.Processed Sample.breast_table Sample.breast_summary
  ∧ Forall (λ r, GeneAnalysis.pvalue_ok (GeneAnalysis.P r))
           Sample.breast_table
  ∧ map (λ r, (GeneAnalysis.Gene r, GeneAnalysis.P r, GeneAnalysis.FDR r))
        (GeneAnalysis.sort_values GeneAnalysis.P true Sample.breast_table)
    = [("DOWN (1)", Some 0%Q, NaN); ("UP (3)", Some 0%Q, NaN);
       ("FLAT (2)", NaN, NaN)]
  ∧ StronglySorted (GeneAnalysis.by_le GeneAnalysis.P)
      (GeneAnalysis.sort_values GeneAnalysis.P true Sample.breast_table)
  ∧ ¬ StronglySorted
        (λ a b, float_le (GeneAnalysis.FDR a) (GeneAnalysis.FDR b))
        (GeneAnalysis.sort_values GeneAnalysis.P true Sample.breast_table).
Proof.
  assert (map (λ r, (GeneAnalysis.Gene r, GeneAnalysis.P r,
                     GeneAnalysis.FDR r))
              (GeneAnalysis.sort_values GeneAnalysis.P true
                 Sample.breast_table)
          = [("DOWN (1)", Some 0%Q, NaN); ("UP (3)", Some 0%Q, NaN);
             ("FLAT (2)", NaN, NaN)]) as Hrows
    by (vm_compute; reflexivity).
  split; [vm_compute; reflexivity|].
  split; [vm_compute; repeat constructor|].
  split; [exact Hrows|].
  split; [apply sort_values_ascending|].
  intros Hs.
  destruct (GeneAnalysis.sort_values GeneAnalysis.P true Sample.breast_table)
    as [|a [|b l]]; [discriminate..|].
  injection Hrows as _ _ Ha _ _ Hb _.
  apply StronglySorted_inv in Hs as [_ Hs].
  apply Forall_cons in Hs as [Hs _].
  rewrite Ha, Hb in Hs. exact Hs.
Qed.

(** C4. The adjusted p-values of a processed cancer type are computed from
    the raw p-values of that cancer type's own gene loop and from nothing
    else: the table is the sorted form of a table that lists the results of
    the gene loop in their order, and whose FDR column is the correction
    applied to its own P column, entry by entry at the same position.  When
    the raw p-values are non-negative numbers, the entry at a position is the
    Benjamini-Hochberg adjustment of the raw p-value at that position. *)
Theorem bh_per_cancer_aligned spearmanr model crispr omics_expr cancer df row :
  GeneAnalysis.analyze spearmanr model crispr omics_expr cancer
    = GeneAnalysis.Processed df row →
  ∃ table : list GeneAnalysis.AssocRow,
    df = GeneAnalysis.sort_values GeneAnalysis.FDR true table
    ∧ map (λ r, (GeneAnalysis.Gene r, GeneAnalysis.Spearman_r r,
                 GeneAnalysis.P r)) table
      = GeneAnalysis.results spearmanr crispr omics_expr
          (GeneAnalysis.common_models model crispr omics_expr cancer)
    ∧ map GeneAnalysis.FDR table
      = GeneAnalysis.multipletests (map GeneAnalysis.P table)
    ∧ length (GeneAnalysis.multipletests (map GeneAnalysis.P table))
      = length table
    ∧ ∀ qs : list Q,
        map GeneAnalysis.P table = map Some qs → Forall (Qle 0) qs →
        ∀ i r, table !! i = Some r →
          ∃ p a, qs !! i = Some p
                 ∧ GeneAnalysis.P r = Some p
                 ∧ GeneAnalysis.FDR r = Some a
                 ∧ GeneAnalysis.bh_adjusted qs p a.
Proof.
  intros Ha. apply Processed_table in Ha.
  set (res := GeneAnalysis.results spearmanr crispr omics_expr
                (GeneAnalysis.common_models model crispr omics_expr cancer))
    in *.
  exists (GeneAnalysis.with_fdr res). split; [exact Ha|].
  rewrite with_fdr_P, with_fdr_FDR, length_multipletests, length_map,
    length_with_fdr.
  split; [|split; [done|split; [done|]]].
  - unfold GeneAnalysis.with_fdr.
    rewrite (map_zip_with_l _ _ id);
      [apply map_id|by intros [[g rho] p] f|apply length_map_snd_eq].
  - intros qs Hqs Hpos i r Hr.
    apply with_fdr_lookup in Hr as (_ & Hp & Hf). rewrite Hqs in Hp, Hf.
    change (map Some qs) with (Some <$> qs) in Hp.
    rewrite list_lookup_fmap in Hp.
    destruct (qs !! i) as [p|] eqn:Ei; [|done].
    simpl in Hp. injection Hp as Hp.
    destruct (multipletests_spec qs i p Hpos Ei) as (a & Hma & Hadj).
    exists p, a. split; [done|]. split; [done|]. split; [|done].
    apply (inj Some). etrans; [symmetry; exact Hf|exact Hma].
Qed.

Lemma bh_per_cancer_aligned_witness :
  GeneAnalysis.analyze Fixture.spearmanr Fixture.model Fixture.crispr
    Fixture.omics_expr "Lung Cancer"
  = GeneAnalysis.Processed Fixture.lung_table Fixture.lung_summary
  ∧ ∃ table : list GeneAnalysis.AssocRow,
      Fixture.lung_table
      = GeneAnalysis.sort_values GeneAnalysis.FDR true table
      ∧ map GeneAnalysis.FDR table
        = GeneAnalysis.multipletests (map GeneAnalysis.P table).
Proof.
  assert (GeneAnalysis.analyze Fixture.spearmanr Fixture.model Fixture.crispr
            Fixture.omics_expr "Lung Cancer"
          = GeneAnalysis.Processed Fixture.lung_table Fixture.lung_summary)
    as Ha by (vm_compute; reflexivity).
  split; [exact Ha|].
  destruct (bh_per_cancer_aligned _ _ _ _ _ _ _ Ha)
    as (table & Hdf & _ & Hfdr & _).
  exists table. split; [exact Hdf|exact Hfdr].
Defined.

(** * Further properties of the scripts *)

(** ** Jaccard similarity and shared-gene counts *)

Section jaccard_more.
Import Enrichment PostAnalysis.

Local Abbreviation QN n := (inject_Z (Z.of_nat n)).
Local Abbreviation set_of l := (list_to_set l : gset string).

Lemma ratio_range (x y : nat) :
  (x ≤ y)%nat → (0 < y)%nat → (0 <= QN x / QN y <= 1)%Q.
Proof.
  intros Hxy Hy. assert (0 < QN y)%Q as Hy' by (by apply QN_pos).
  split.
  - apply Qle_shift_div_l; [done|]. rewrite Qmult_0_l.
    change 0%Q with (inject_Z 0). rewrite <- Zle_Qle. lia.
  - apply Qle_shift_div_r; [done|]. rewrite Qmult_1_l. by apply QN_le.
Qed.

Lemma ratio_eq_iff (x y z : nat) :
  (0 < y)%nat → (QN x / QN y == QN z)%Q ↔ x = (z * y)%nat.
Proof.
  intros Hy. assert (¬ QN y == 0)%Q as Hy'.
  { change 0%Q with (inject_Z 0). rewrite inject_Z_injective. lia. }
  split.
  - intros H. assert (QN x == QN z * QN y)%Q as H'.
    { rewrite <- H. field. done. }
    rewrite <- inject_Z_mult, inject_Z_injective in H'. lia.
  - intros ->. rewrite Nat2Z.inj_mul, inject_Z_mult. field. done.
Qed.

(** The two ways [jaccard] returns. *)
Lemma jaccard_cases (a b : list string) :
  (set_of a = ∅ ∧ set_of b = ∅ ∧ jaccard a b = Some 0%Q)
  ∨ ((0 < size (set_of a ∪ set_of b))%nat
     ∧ jaccard a b
       = Some (QN (size (set_of a ∩ set_of b))
               / QN (size (set_of a ∪ set_of b)))%Q).
Proof.
  unfold jaccard.
  destruct (decide (set_of a = ∅ ∧ set_of b = ∅)) as [[Ha Hb]|Hne]; [by left|].
  right. pose proof (union_size_pos _ _ Hne) as Hpos. split; [done|].
  unfold true_div. by destruct (decide (size (set_of a ∪ set_of b) = 0%nat)); [lia|].
Qed.

Lemma inter_size_le_union (A B : gset string) :
  (size (A ∩ B) ≤ size (A ∪ B))%nat.
Proof. apply subseteq_size. set_solver. Qed.

Lemma inclusion_exclusion (A B : gset string) :
  (size (A ∪ B) + size (A ∩ B) = size A + size B)%nat.
Proof.
  rewrite size_union_alt.
  assert (size B = size (B ∖ A) + size (A ∩ B))%nat as ->; [|lia].
  rewrite <- size_union by set_solver. f_equal.
  apply set_eq. intros x. rewrite elem_of_union, elem_of_difference,
    elem_of_intersection. destruct (decide (x ∈ A)); tauto.
Qed.

End jaccard_more.

(** X1. [jaccard] always lies between 0 and 1. *)
Theorem jaccard_range (a b : list string) :
  ∃ q, Enrichment.jaccard a b = Some q ∧ (0 <= q <= 1)%Q.
Proof.
  destruct (jaccard_cases a b) as [(_ & _ & ->)|[Hpos ->]].
  - exists 0%Q. split; [done|]. split; [apply Qle_refl|discriminate].
  - eexists. split; [done|].
    apply ratio_range; [apply inter_size_le_union|done].
Qed.

(** X2. [jaccard] is 1 exactly on two lists with the same elements, one at
    least: two empty lists give 0, not 1. *)
Theorem jaccard_one_iff (a b : list string) :
  (∃ q, Enrichment.jaccard a b = Some q ∧ (q == 1)%Q) ↔
  (list_to_set a : gset string) = list_to_set b ∧ a ≠ [].
Proof.
  destruct (jaccard_cases a b) as [(Ha & Hb & Hj)|[Hpos Hj]]; rewrite Hj.
  - split.
    + intros (q & [= <-] & Hq). discriminate.
    + intros [_ Hne]. by apply list_to_set_empty_inv in Ha.
  - split.
    + intros (q & [= <-] & Hq).
      apply (ratio_eq_iff _ _ 1) in Hq; [|done].
      assert ((list_to_set a : gset string) ∩ list_to_set b
              = list_to_set a ∪ list_to_set b) as Heq.
      { apply set_subseteq_size_eq; [set_solver|lia]. }
      split; [set_solver|]. intros ->.
      rewrite list_to_set_nil in Heq, Hpos.
      assert ((list_to_set b : gset string) = ∅) as Hb by set_solver.
      rewrite Hb, union_empty_l_L, size_empty in Hpos. lia.
    + intros [Heq Hne]. eexists. split; [done|].
      apply (ratio_eq_iff _ _ 1); [done|].
      assert ((list_to_set a : gset string) ∩ list_to_set b
              = list_to_set a ∪ list_to_set b) as ->
        by (rewrite Heq; set_solver).
      lia.
Qed.

(** X3. [jaccard] is 0 exactly on two lists without a common element. *)
Theorem jaccard_zero_iff (a b : list string) :
  (∃ q, Enrichment.jaccard a b = Some q ∧ (q == 0)%Q) ↔
  (list_to_set a : gset string) ∩ list_to_set b = ∅.
Proof.
  destruct (jaccard_cases a b) as [(Ha & Hb & Hj)|[Hpos Hj]]; rewrite Hj.
  - split.
    + intros _. rewrite Ha. set_solver.
    + intros _. exists 0%Q. split; [done|reflexivity].
  - split.
    + intros (q & [= <-] & Hq).
      apply (ratio_eq_iff _ _ 0) in Hq; [|done].
      apply leibniz_equiv, size_empty_iff. lia.
    + intros Heq. eexists. split; [done|].
      apply (ratio_eq_iff _ _ 0); [done|]. rewrite Heq, size_empty. lia.
Qed.

(** X4. The count of shared genes is symmetric, is the number of distinct
    genes of a list when the list is compared with itself, and never
    exceeds that number for either list; and the Jaccard similarity of two
    lists is their shared count divided by the sum of their own counts less
    the shared one. *)
Theorem jaccard_from_overlap (a b : list string) :
  PostAnalysis.overlap a b = PostAnalysis.overlap b a
  ∧ PostAnalysis.overlap a a = size (list_to_set a : gset string)
  ∧ (PostAnalysis.overlap a b ≤ PostAnalysis.overlap a a)%nat
  ∧ (PostAnalysis.overlap a b ≤ PostAnalysis.overlap b b)%nat
  ∧ Enrichment.jaccard a b
    = if decide (PostAnalysis.overlap a a = 0 ∧ PostAnalysis.overlap b b = 0)%nat
      then Some 0%Q
      else true_div (PostAnalysis.overlap a b)
             (PostAnalysis.overlap a a + PostAnalysis.overlap b b
              - PostAnalysis.overlap a b).
Proof.
  unfold PostAnalysis.overlap.
  rewrite !intersection_idemp_L.
  split; [by rewrite (comm_L (∩))|]. split; [done|].
  split; [apply subseteq_size; set_solver|].
  split; [apply subseteq_size; set_solver|].
  pose proof (inclusion_exclusion (list_to_set a) (list_to_set b)) as Hie.
  unfold Enrichment.jaccard.
  destruct (decide ((list_to_set a : gset string) = ∅ ∧ list_to_set b = ∅))
    as [[Ha Hb]|Hne].
  - rewrite Ha, Hb, size_empty. by destruct (decide _) as [?|[]].
  - destruct (decide _) as [[Ha Hb]|_].
    + destruct Hne. split; by apply leibniz_equiv, size_empty_iff.
    + f_equal. lia.
Qed.

(** ** The similarity matrices *)

Section matrix_facts.
Import GeneAnalysis Enrichment PostAnalysis.

Lemma jaccard_comm (a b : list string) : jaccard a b = jaccard b a.
Proof.
  unfold jaccard.
  rewrite (comm_L (∩) (list_to_set a : gset string)).
  rewrite (comm_L (∪) (list_to_set a : gset string)).
  destruct (decide (list_to_set a = ∅ ∧ list_to_set b = ∅)) as [H1|H1];
    destruct (decide (list_to_set b = ∅ ∧ list_to_set a = ∅)) as [H2|H2];
    tauto || reflexivity.
Qed.

Lemma mapM_total {A B} (f : A → option B) (g : A → B) (l : list A) :
  (∀ x, x ∈ l → f x = Some (g x)) → mapM f l = Some (map g l).
Proof.
  intros H. apply mapM_Some_2.
  induction l as [|x l IH]; simpl; constructor.
  - apply H. left.
  - apply IH. intros y Hy. apply H. by right.
Qed.

(** Entry [(i, j)] of a matrix given by its rows. *)
Local Abbreviation entry m i j := (m !! i ≫= λ row, row !! j).

Lemma entry_map2 {A B} (g : A → A → B) (l : list A) (i j : nat) :
  entry (map (λ a, map (g a) l) l) i j
  = (a ← l !! i; b ← l !! j; Some (g a b)).
Proof.
  change (map ?f ?k) with (f <$> k). rewrite list_lookup_fmap.
  destruct (l !! i) as [a|]; [|done]. simpl.
  change (map ?f ?k) with (f <$> k). rewrite list_lookup_fmap.
  by destruct (l !! j).
Qed.

Lemma jaccard_entry (a b : list string) :
  ∃ q, Enrichment.jaccard a b = Some q ∧ (0 <= q <= 1)%Q.
Proof.
  destruct (jaccard_cases a b) as [(_ & _ & E)|[Hpos E]]; rewrite E.
  - exists 0%Q. split; [done|]. split; [apply Qle_refl|discriminate].
  - eexists. split; [done|].
    apply ratio_range; [apply inter_size_le_union|done].
Qed.

Lemma load_step_keys st f : keys_filed st → keys_filed (load_step st f).
Proof.
  intros H c Hc. unfold load_step in *. simpl in *.
  apply elem_of_app in Hc as [Hc|Hc].
  - destruct (H c Hc) as [H1 H2].
    split; (destruct (decide (cancer_of_file f.1 = c)) as [->|Hne];
      [rewrite lookup_insert_eq; by eexists|by rewrite lookup_insert_ne]).
  - apply list_elem_of_singleton in Hc as ->.
    rewrite !lookup_insert_eq. split; by eexists.
Qed.

Lemma foldl_load_step_keys files st :
  keys_filed st → keys_filed (foldl load_step st files).
Proof.
  revert st. induction files as [|f files IH]; intros st H; [done|].
  simpl. by apply IH, load_step_keys.
Qed.

Lemma foldl_load_step_list files st :
  cancer_list (foldl load_step st files)
  = cancer_list st ++ map (λ f, cancer_of_file f.1) files.
Proof.
  revert st. induction files as [|f files IH]; intros st; simpl.
  - by rewrite app_nil_r.
  - rewrite IH. simpl. by rewrite <- app_assoc.
Qed.

Lemma load_keys files st : load files = Some st → keys_filed st.
Proof.
  unfold load. destruct files as [|f files]; [done|]. intros [= <-].
  apply (foldl_load_step_keys (f :: files)). intros c Hc.
  exfalso. exact (proj1 (elem_of_nil c) Hc).
Qed.

Lemma load_cancer_list files st :
  load files = Some st → cancer_list st = map (λ f, cancer_of_file f.1) files.
Proof.
  unfold load. destruct files as [|f files]; [done|]. intros [= <-].
  exact (foldl_load_step_list (f :: files) _).
Qed.

End matrix_facts.

(** X5. After Step 2 the two matrices are always built: no dictionary
    lookup fails.  Each has one row and one column per result file, both are
    symmetric, every Jaccard entry is between 0 and 1, and the entry of the
    Jaccard matrix at (i, j) is the similarity of the lists filed under the
    i-th and j-th cancer names. *)
Theorem similarity_matrices (files : list (string * list GeneAnalysis.AssocRow))
    (st : PostAnalysis.Loaded) :
  PostAnalysis.load files = Some st →
  ∃ (J : list (list Q)) (O : list (list nat)),
    PostAnalysis.jaccard_matrix st = Some J
    ∧ PostAnalysis.overlap_matrix st = Some O
    ∧ length J = length files ∧ length O = length files
    ∧ Forall (λ row, length row = length files) J
    ∧ Forall (λ row, length row = length files) O
    ∧ (∀ i j, (J !! i ≫= λ row, row !! j) = (J !! j ≫= λ row, row !! i))
    ∧ (∀ i j, (O !! i ≫= λ row, row !! j) = (O !! j ≫= λ row, row !! i))
    ∧ (∀ i j q, (J !! i ≫= λ row, row !! j) = Some q → (0 <= q <= 1)%Q)
    ∧ (∀ i j a b, PostAnalysis.cancer_list st !! i = Some a →
         PostAnalysis.cancer_list st !! j = Some b →
         ∃ la lb q, PostAnalysis.cancer_top_pos st !! a = Some la
                    ∧ PostAnalysis.cancer_top_pos st !! b = Some lb
                    ∧ Enrichment.jaccard la lb = Some q
                    ∧ (J !! i ≫= λ row, row !! j) = Some q
                    ∧ (O !! i ≫= λ row, row !! j)
                      = Some (PostAnalysis.overlap la lb)).
Proof.
  intros Hload. pose proof (load_keys _ _ Hload) as Hkeys.
  pose proof (load_cancer_list _ _ Hload) as Hlist.
  assert (length (PostAnalysis.cancer_list st) = length files) as Hlen
    by (by rewrite Hlist, length_map).
  set (cl := PostAnalysis.cancer_list st) in *.
  set (top := λ c, default [] (PostAnalysis.cancer_top_pos st !! c)).
  set (jq := λ a b, default 0%Q (Enrichment.jaccard (top a) (top b))).
  set (ov := λ a b, PostAnalysis.overlap (top a) (top b)).
  assert (Htop : ∀ c, c ∈ cl → PostAnalysis.top_pos_of st c = Some (top c)).
  { intros c Hc. destruct (Hkeys c Hc) as [[l Hl] _].
    unfold PostAnalysis.top_pos_of, top. by rewrite Hl. }
  assert (Hjq : ∀ a b, Enrichment.jaccard (top a) (top b) = Some (jq a b)).
  { intros a b. unfold jq.
    destruct (jaccard_entry (top a) (top b)) as (q & -> & _). done. }
  assert (HJ : PostAnalysis.jaccard_matrix st
               = Some (map (λ a, map (jq a) cl) cl)).
  { unfold PostAnalysis.jaccard_matrix. fold cl.
    apply mapM_total. intros a Ha. apply mapM_total. intros b Hb.
    rewrite (Htop a Ha), (Htop b Hb). simpl. apply Hjq. }
  assert (HO : PostAnalysis.overlap_matrix st
               = Some (map (λ a, map (ov a) cl) cl)).
  { unfold PostAnalysis.overlap_matrix. fold cl.
    apply mapM_total. intros a Ha. apply mapM_total. intros b Hb.
    by rewrite (Htop a Ha), (Htop b Hb). }
  exists (map (λ a, map (jq a) cl) cl), (map (λ a, map (ov a) cl) cl).
  split; [done|]. split; [done|].
  split; [by rewrite length_map|]. split; [by rewrite length_map|].
  split.
  { apply Forall_forall. intros row Hrow.
    apply elem_of_map in Hrow as (a & -> & _). by rewrite length_map. }
  split.
  { apply Forall_forall. intros row Hrow.
    apply elem_of_map in Hrow as (a & -> & _). by rewrite length_map. }
  split.
  { intros i j. rewrite !entry_map2.
    destruct (cl !! i) as [a|], (cl !! j) as [b|]; simpl; try done.
    f_equal. unfold jq. by rewrite jaccard_comm. }
  split.
  { intros i j. rewrite !entry_map2.
    destruct (cl !! i) as [a|], (cl !! j) as [b|]; simpl; try done.
    f_equal. unfold ov, PostAnalysis.overlap. by rewrite (comm_L (∩)). }
  split.
  { intros i j q. rewrite entry_map2.
    destruct (cl !! i) as [a|], (cl !! j) as [b|]; simpl; try done.
    intros [= <-]. destruct (jaccard_entry (top a) (top b)) as (q & Hq & Hr).
    rewrite Hjq in Hq. by injection Hq as ->. }
  intros i j a b Hi Hj.
  assert (a ∈ cl) as Ha by (by eapply list_elem_of_lookup_2).
  assert (b ∈ cl) as Hb by (by eapply list_elem_of_lookup_2).
  exists (top a), (top b), (jq a b).
  split; [apply (Htop a Ha)|]. split; [apply (Htop b Hb)|].
  split; [apply Hjq|].
  rewrite !entry_map2, Hi, Hj. done.
Qed.

(** ** Strings: cleaning gene labels and recovering cancer names *)

Section string_facts.
Import GeneAnalysis PostAnalysis.
Local Open Scope string_scope.

Lemma sapp_cons (c : ascii) (s t : string) :
  String c s ++ t = String c (s ++ t).
Proof. reflexivity. Qed.

Lemma sapp_nil_l (s : string) : "" ++ s = s.
Proof. reflexivity. Qed.

Lemma sapp_nil_r (s : string) : s ++ "" = s.
Proof. induction s as [|c s IH]; [done|]. by rewrite sapp_cons, IH. Qed.

Lemma sapp_assoc (s t u : string) : (s ++ t) ++ u = s ++ (t ++ u).
Proof. induction s as [|c s IH]; [done|]. by rewrite !sapp_cons, IH. Qed.

Lemma length_sapp (s t : string) :
  String.length (s ++ t) = (String.length s + String.length t)%nat.
Proof. induction s as [|c s IH]; [done|]. rewrite sapp_cons. simpl. by rewrite IH. Qed.

Lemma contains_cons (sub : string) (c : ascii) (s : string) :
  contains sub (String c s) = String.prefix sub (String c s) || contains sub s.
Proof. reflexivity. Qed.

Lemma contains_false_iff (sub s : string) :
  contains sub s = false ↔ ¬ ∃ pre post, s = pre ++ sub ++ post.
Proof.
  rewrite <- contains_spec. by destruct (contains sub s).
Qed.

(** An occurrence inside a part is an occurrence inside the whole. *)
Lemma contains_sapp (sub pre s post : string) :
  contains sub s = true → contains sub (pre ++ s ++ post) = true.
Proof.
  rewrite !contains_spec. intros (p & q & ->).
  exists (pre ++ p), (q ++ post). by rewrite !sapp_assoc.
Qed.

Lemma not_contains_part (sub pre s post : string) :
  contains sub (pre ++ s ++ post) = false → contains sub s = false.
Proof.
  intros H. destruct (contains sub s) eqn:E; [|done].
  by rewrite (contains_sapp _ pre _ post E) in H.
Qed.

(** *** [strip] *)

Lemma lstrip_suffix (s : string) : ∃ ws, s = ws ++ lstrip s.
Proof.
  induction s as [|c s [ws IH]]; [by exists ""|]. simpl.
  destruct (isspace c).
  - exists (String c ws). by rewrite sapp_cons, <- IH.
  - by exists "".
Qed.

Lemma rstrip_prefix (s : string) : ∃ ws, s = rstrip s ++ ws.
Proof.
  induction s as [|c s [ws IH]]; [by exists ""|]. simpl.
  destruct (rstrip s) as [|d r] eqn:E.
  - destruct (isspace c).
    + exists (String c ws). by rewrite sapp_nil_l, IH.
    + exists ws. by rewrite !sapp_cons, IH.
  - exists ws. by rewrite sapp_cons, <- IH.
Qed.

Lemma strip_part (s : string) : ∃ pre post, s = pre ++ strip s ++ post.
Proof.
  destruct (lstrip_suffix s) as [pre Hpre].
  destruct (rstrip_prefix (lstrip s)) as [post Hpost].
  exists pre, post. unfold strip. by rewrite <- Hpost.
Qed.

(** A string that does not begin with a white-space character. *)
Local Abbreviation clean_start s :=
  (match s with EmptyString => True | String c _ => isspace c = false end).

Lemma lstrip_clean_start (s : string) : clean_start (lstrip s).
Proof.
  induction s as [|c s IH]; [done|]. simpl.
  destruct (isspace c) eqn:E; [done|]. by simpl.
Qed.

Lemma lstrip_fixed (s : string) : clean_start s → lstrip s = s.
Proof. destruct s as [|c s]; [done|]. simpl. by intros ->. Qed.

Lemma rstrip_clean_start (s : string) : clean_start s → clean_start (rstrip s).
Proof.
  destruct s as [|c s]; [done|]. simpl. intros Hc.
  destruct (rstrip s); [by rewrite Hc|done].
Qed.

Lemma rstrip_idem (s : string) : rstrip (rstrip s) = rstrip s.
Proof.
  induction s as [|c s IH]; [done|]. simpl.
  destruct (rstrip s) as [|d r] eqn:E.
  - destruct (isspace c) eqn:Ec; [done|]. simpl. by rewrite Ec.
  - change (rstrip (String c (String d r)))
      with (match rstrip (String d r) with
            | EmptyString =>
                if isspace c then EmptyString else String c EmptyString
            | r' => String c r'
            end).
    by rewrite IH.
Qed.

Lemma strip_idem (s : string) : strip (strip s) = strip s.
Proof.
  unfold strip.
  rewrite (lstrip_fixed (rstrip (lstrip s))).
  - apply rstrip_idem.
  - apply rstrip_clean_start, lstrip_clean_start.
Qed.

(** *** [split(sep)[0]] *)

Lemma before_prefix (sep s : string) : ∃ rest, s = before sep s ++ rest.
Proof.
  induction s as [|c s [rest IH]].
  - exists "". change (before sep "") with (if String.prefix sep "" then "" else "").
    by destruct (String.prefix sep "").
  - change (before sep (String c s))
      with (if String.prefix sep (String c s) then ""
            else String c (before sep s)).
    destruct (String.prefix sep (String c s)).
    + by exists (String c s).
    + exists rest. by rewrite sapp_cons, <- IH.
Qed.

Lemma prefix_trans_part (sep s rest : string) :
  String.prefix sep s = true → String.prefix sep (s ++ rest) = true.
Proof.
  rewrite !prefix_spec. intros [post ->]. exists (post ++ rest).
  by rewrite sapp_assoc.
Qed.

Lemma before_fixed (sep s : string) :
  contains sep s = false → before sep s = s.
Proof.
  induction s as [|c s IH].
  - simpl. rewrite orb_false_r. by intros ->.
  - rewrite contains_cons. intros [Hp Hc]%orb_false_elim.
    change (before sep (String c s))
      with (if String.prefix sep (String c s) then ""
            else String c (before sep s)).
    by rewrite Hp, IH.
Qed.

(** What precedes the first occurrence holds no occurrence. *)
Lemma contains_before (sep s : string) :
  sep ≠ "" → contains sep (before sep s) = false.
Proof.
  intros Hsep. induction s as [|c s IH].
  - change (before sep "") with (if String.prefix sep "" then "" else "").
    assert (contains sep "" = false) as H by (by destruct sep).
    by destruct (String.prefix sep "").
  - change (before sep (String c s))
      with (if String.prefix sep (String c s) then ""
            else String c (before sep s)).
    destruct (String.prefix sep (String c s)) eqn:E.
    + by destruct sep.
    + rewrite contains_cons, IH, orb_false_r.
      destruct (String.prefix sep (String c (before sep s))) eqn:E'; [|done].
      destruct (before_prefix sep s) as [rest Hrest].
      apply (prefix_trans_part _ _ rest) in E'.
      rewrite sapp_cons, <- Hrest in E'. congruence.
Qed.

Lemma prefix_nil (s : string) : String.prefix "" s = true.
Proof. by destruct s. Qed.

Lemma before_hit (sep s : string) :
  String.prefix sep s = true → before sep s = "".
Proof.
  intros H. destruct s as [|c s].
  - change (before sep "") with (if String.prefix sep "" then "" else "").
    by rewrite H.
  - change (before sep (String c s))
      with (if String.prefix sep (String c s) then ""
            else String c (before sep s)).
    by rewrite H.
Qed.

Lemma prefix_two (a b c d : ascii) (x y : string) :
  String.prefix (String a (String b "")) (String c (String d x))
  = String.prefix (String a (String b "")) (String c (String d y)).
Proof.
  cbn [String.prefix]. destruct (ascii_dec a c); [|done].
  destruct (ascii_dec b d); [|done]. by rewrite !prefix_nil.
Qed.

Lemma before_label (name rest : string) :
  contains " (" name = false → before " (" (name ++ " (" ++ rest) = name.
Proof.
  induction name as [|c name IH].
  { intros _. apply before_hit, prefix_spec. by exists rest. }
  rewrite contains_cons. intros [Hp Hc]%orb_false_elim.
  rewrite sapp_cons.
  change (before " (" (String c (name ++ " (" ++ rest)))
    with (if String.prefix " (" (String c (name ++ " (" ++ rest)) then ""
          else String c (before " (" (name ++ " (" ++ rest))).
  rewrite (IH Hc).
  assert (String.prefix " (" (String c (name ++ " (" ++ rest)) = false) as ->;
    [|done].
  destruct name as [|d name].
  - destruct (ascii_dec c " ") as [->|Hne]; [reflexivity|].
    cbn [String.prefix]. by destruct (ascii_dec " " c).
  - rewrite sapp_cons. by rewrite (prefix_two _ _ _ _ _ name).
Qed.

End string_facts.

(** X6. A label of the form [name (id)], where [name] holds no [" ("] and
    has no white space at either end, is cleaned to [name]: labels that
    differ only in what follows the first [" ("] get the same clean name. *)
Theorem gene_clean_label (name rest : string) :
  GeneAnalysis.contains " (" name = false →
  PostAnalysis.strip name = name →
  PostAnalysis.gene_clean (name ++ " (" ++ rest)%string = name.
Proof.
  intros Hc Hs. unfold PostAnalysis.gene_clean. by rewrite before_label.
Qed.

Lemma gene_clean_label_witness :
  GeneAnalysis.contains " (" "HLA-A" = false
  ∧ PostAnalysis.strip "HLA-A" = "HLA-A"
  ∧ PostAnalysis.gene_clean "HLA-A (3105)" = "HLA-A".
Proof.
  assert (GeneAnalysis.contains " (" "HLA-A" = false) as Hc by reflexivity.
  assert (PostAnalysis.strip "HLA-A" = "HLA-A") as Hs by reflexivity.
  split; [exact Hc|]. split; [exact Hs|].
  exact (gene_clean_label "HLA-A" "3105)" Hc Hs).
Defined.

(** X7. A cleaned gene name is in normal form: it holds no [" ("], has no
    white space at either end, and cleaning it again changes nothing. *)
Theorem gene_clean_normal_form (s : string) :
  let g := PostAnalysis.gene_clean s in
  PostAnalysis.gene_clean g = g
  ∧ GeneAnalysis.contains " (" g = false
  ∧ PostAnalysis.strip g = g.
Proof.
  intros g. subst g. unfold PostAnalysis.gene_clean.
  set (t := PostAnalysis.before " (" s).
  assert (GeneAnalysis.contains " (" t = false) as Ht
    by (by apply contains_before).
  destruct (strip_part t) as (pre & post & Hpart).
  assert (GeneAnalysis.contains " (" (PostAnalysis.strip t) = false) as Hg.
  { apply (not_contains_part _ pre _ post). by rewrite <- Hpart. }
  split; [|split; [done|apply strip_idem]].
  rewrite (before_fixed _ _ Hg). apply strip_idem.
Qed.

Section file_name_facts.
Import GeneAnalysis PostAnalysis.
Local Open Scope string_scope.

Lemma prefix_slash (c : ascii) (s : string) :
  String.prefix "/" (String c s) = Ascii.eqb c "/".
Proof.
  cbn [String.prefix]. destruct (ascii_dec "/" c) as [<-|Hne].
  - by rewrite prefix_nil.
  - symmetry. apply Ascii.eqb_neq. congruence.
Qed.

Lemma contains_slash_cons (c : ascii) (s : string) :
  contains "/" (String c s) = Ascii.eqb c "/" || contains "/" s.
Proof. by rewrite contains_cons, prefix_slash. Qed.

Lemma contains_slash_sapp (a b : string) :
  contains "/" (a ++ b) = contains "/" a || contains "/" b.
Proof.
  induction a as [|c a IH]; [done|].
  by rewrite sapp_cons, !contains_slash_cons, IH, orb_assoc.
Qed.

Lemma replace_slash_no_slash (s : string) :
  contains "/" (replace_slash s) = false.
Proof.
  induction s as [|c s IH]; [done|]. cbn [replace_slash].
  rewrite contains_slash_cons, IH, orb_false_r.
  by destruct (Ascii.eqb c "/") eqn:E.
Qed.

Lemma replace_slash_fixed (s : string) :
  contains "/" s = false → replace_slash s = s.
Proof.
  induction s as [|c s IH]; [done|].
  rewrite contains_slash_cons. intros [Hc Hs]%orb_false_elim.
  cbn [replace_slash]. by rewrite Hc, IH.
Qed.

Lemma length_replace_slash (s : string) :
  String.length (replace_slash s) = String.length s.
Proof. induction s as [|c s IH]; [done|]. simpl. by rewrite IH. Qed.

(** The file name of a path whose last component holds no separator. *)
Lemma basename_sapp (dir name : string) :
  contains "/" name = false → basename (dir ++ "/" ++ name) = name.
Proof.
  intros Hn. induction dir as [|c dir IH].
  - rewrite sapp_nil_l, sapp_cons, sapp_nil_l. cbn [basename].
    by rewrite Hn.
  - rewrite sapp_cons. cbn [basename].
    rewrite !contains_slash_sapp. change (contains "/" "/") with true.
    by destruct (contains "/" dir).
Qed.

(** *** [replace(old, "")] *)

Lemma remove_all_fixed (old s : string) :
  contains old s = false → remove_all old s = s.
Proof.
  unfold remove_all. induction s as [|c s IH]; [done|].
  rewrite contains_cons. intros [Hp Hc]%orb_false_elim.
  cbn [remove_from]. by rewrite Hp, IH.
Qed.

Lemma remove_from_skip (old t s : string) :
  remove_from old (String.length t) (t ++ s) = remove_from old 0 s.
Proof. induction t as [|c t IH]; [done|]. rewrite sapp_cons. apply IH. Qed.

Lemma prefix_refl_sapp (old s : string) : String.prefix old (old ++ s) = true.
Proof. apply prefix_spec. by exists s. Qed.

Lemma remove_all_head (old s : string) :
  old ≠ "" → remove_all old (old ++ s) = remove_all old s.
Proof.
  intros Hne. unfold remove_all. destruct old as [|c old]; [done|].
  rewrite sapp_cons. cbn [remove_from].
  rewrite <- sapp_cons, prefix_refl_sapp.
  replace (String.length (String c old) - 1)%nat with (String.length old)
    by (simpl; lia).
  apply remove_from_skip.
Qed.

Lemma snoc_inj (s t : string) (a b : ascii) :
  s ++ String a "" = t ++ String b "" → s = t ∧ a = b.
Proof.
  revert t. induction s as [|c s IH]; intros [|d t] H.
  - by injection H.
  - rewrite sapp_nil_l, sapp_cons in H. injection H as _ H. by destruct t.
  - rewrite sapp_nil_l, sapp_cons in H. injection H as _ H. by destruct s.
  - rewrite !sapp_cons in H. injection H as -> H.
    by destruct (IH t H) as [-> ->].
Qed.

Lemma snoc_cases (s : string) :
  s = "" ∨ ∃ s' z, s = s' ++ String z "".
Proof.
  induction s as [|c s [->|(s' & z & ->)]]; [by left|right..].
  - by exists "", c.
  - by exists (String c s'), z.
Qed.

(** An occurrence of [old] at the head of [u ++ old], with [u] not empty,
    lies within [u] followed by all of [old] but its last character. *)
Lemma prefix_before_last (ini : string) (z : ascii) (u : string) :
  u ≠ "" →
  String.prefix (ini ++ String z "") (u ++ ini ++ String z "") = true →
  String.prefix (ini ++ String z "") (u ++ ini) = true.
Proof.
  intros Hu. rewrite !prefix_spec. intros [post Hpost].
  destruct (snoc_cases post) as [->|(post' & z' & ->)].
  - rewrite sapp_nil_r in Hpost.
    assert (String.length (u ++ ini ++ String z "")
            = String.length (ini ++ String z "")) as Hlen by (by rewrite Hpost).
    rewrite length_sapp in Hlen. destruct u; [done|simpl in Hlen; lia].
  - exists post'.
    rewrite <- (sapp_assoc u), <- (sapp_assoc (ini ++ String z "")) in Hpost.
    by apply snoc_inj in Hpost as [-> _].
Qed.

Lemma remove_all_tail (ini : string) (z : ascii) (s : string) :
  contains (ini ++ String z "") (s ++ ini) = false →
  remove_all (ini ++ String z "") (s ++ ini ++ String z "") = s.
Proof.
  set (old := ini ++ String z "").
  assert (old ≠ "") as Hold by (unfold old; by destruct ini).
  induction s as [|c s IH]; intros Hc.
  - rewrite sapp_nil_l. fold old.
    pose proof (remove_all_head old "" Hold) as H.
    rewrite sapp_nil_r in H. exact H.
  - rewrite sapp_cons, contains_cons in Hc.
    apply orb_false_elim in Hc as [Hp Hc].
    unfold remove_all. rewrite sapp_cons. cbn [remove_from]. fold old.
    assert (String.prefix old (String c (s ++ old)) = false) as ->.
    { destruct (String.prefix old (String c (s ++ old))) eqn:E; [|done].
      rewrite <- sapp_cons in E. unfold old in E.
      apply prefix_before_last in E; [|done].
      rewrite sapp_cons in E. fold old in E. congruence. }
    f_equal. by apply IH.
Qed.

End file_name_facts.

(** X8. The cancer name the enrichment script reads back from the path of a
    result file is the label the analysis wrote it under, with [/] replaced
    by [_], as long as that text followed by [_Results.csv] holds no
    [CRISPR_TME_] and holds [_Results.csv] at its end only.  For a label
    without [/] the name read back is the label itself. *)
Theorem cancer_name_round_trip (cancer : string) :
  let name := GeneAnalysis.replace_slash cancer in
  GeneAnalysis.contains "CRISPR_TME_" (name ++ "_Results.csv")%string = false →
  GeneAnalysis.contains "_Results.csv" (name ++ "_Results.cs")%string = false →
  PostAnalysis.cancer_of_file (GeneAnalysis.out_file cancer) = name
  ∧ (GeneAnalysis.contains "/" cancer = false →
     PostAnalysis.cancer_of_file (GeneAnalysis.out_file cancer) = cancer).
Proof.
  intros name H1 H2.
  assert (PostAnalysis.cancer_of_file (GeneAnalysis.out_file cancer) = name)
    as Hname.
  { unfold PostAnalysis.cancer_of_file.
    change (GeneAnalysis.out_file cancer)
      with ("Cancer_Specific_Results" ++ "/"
            ++ ("CRISPR_TME_" ++ name ++ "_Results.csv"))%string.
    rewrite basename_sapp.
    - rewrite remove_all_head by done.
      rewrite (remove_all_fixed _ _ H1).
      apply (remove_all_tail "_Results.cs" "v" name H2).
    - rewrite !contains_slash_sapp. unfold name.
      by rewrite replace_slash_no_slash. }
  split; [exact Hname|].
  intros Hs. rewrite Hname. by apply replace_slash_fixed.
Qed.

Lemma cancer_name_round_trip_witness :
  GeneAnalysis.contains "CRISPR_TME_"
    (GeneAnalysis.replace_slash "Lung/NSCLC" ++ "_Results.csv")%string = false
  ∧ GeneAnalysis.contains "_Results.csv"
      (GeneAnalysis.replace_slash "Lung/NSCLC" ++ "_Results.cs")%string = false
  ∧ PostAnalysis.cancer_of_file (GeneAnalysis.out_file "Lung/NSCLC")
    = "Lung_NSCLC".
Proof.
  assert (GeneAnalysis.contains "CRISPR_TME_"
    (GeneAnalysis.replace_slash "Lung/NSCLC" ++ "_Results.csv")%string = false)
    as H1 by reflexivity.
  assert (GeneAnalysis.contains "_Results.csv"
    (GeneAnalysis.replace_slash "Lung/NSCLC" ++ "_Results.cs")%string = false)
    as H2 by reflexivity.
  split; [exact H1|]. split; [exact H2|].
  exact (proj1 (cancer_name_round_trip "Lung/NSCLC" H1 H2)).
Defined.

(** ** Validation against the driver tables *)

Section validation_facts.
Import Validation.

Lemma find_first {A} (f : A → bool) (l : list A) :
  match List.find f l with
  | Some x =>
      ∃ pre post, l = pre ++ x :: post ∧ f x = true
                  ∧ Forall (λ y, f y = false) pre
  | None => Forall (λ y, f y = false) l
  end.
Proof.
  induction l as [|y l IH]; simpl; [constructor|].
  destruct (f y) eqn:E.
  - exists [], l. by repeat split.
  - destruct (List.find f l) as [x|].
    + destruct IH as (pre & post & -> & Hx & Hpre).
      exists (y :: pre), post. split; [done|]. split; [done|].
      by constructor.
    + by constructor.
Qed.

Lemma ascii_upper_idem (c : ascii) : ascii_upper (ascii_upper c) = ascii_upper c.
Proof. destruct c as [[] [] [] [] [] [] [] []]; reflexivity. Qed.

Lemma upper_idem (s : string) : upper (upper s) = upper s.
Proof.
  induction s as [|c s IH]; [done|]. simpl. by rewrite ascii_upper_idem, IH.
Qed.

Lemma elem_of_gene_set (values : list string) (g : string) :
  g ∈ gene_set values ↔ ∃ v, v ∈ values ∧ upper v = g.
Proof.
  unfold gene_set. rewrite elem_of_list_to_set, elem_of_map.
  split; intros (v & H1 & H2); exists v; by split.
Qed.

Lemma elem_of_matched (top reference : list string) (g : string) :
  g ∈ matched top reference ↔ g ∈ gene_set top ∧ g ∈ gene_set reference.
Proof.
  unfold matched. by rewrite elem_of_sorted, elem_of_elements,
    elem_of_intersection.
Qed.

Lemma length_matched (top reference : list string) :
  (length (matched top reference) ≤ size (gene_set top))%nat
  ∧ (length (matched top reference) ≤ size (gene_set reference))%nat.
Proof.
  unfold matched. rewrite sorted_Permutation.
  change (length (elements ?X)) with (size X).
  split; apply subseteq_size; set_solver.
Qed.

Lemma detect_gene_column_None (cols : list string) :
  detect_gene_column cols = None → Forall (λ c, c ∉ cols) possible_cols.
Proof.
  unfold detect_gene_column. intros Hd.
  pose proof (find_first (λ col, bool_decide (col ∈ cols)) possible_cols) as H.
  rewrite Hd in H. eapply Forall_impl; [exact H|]. intros c Hc.
  by apply bool_decide_eq_false in Hc.
Qed.

End validation_facts.

(** X9. [detect_gene_column] answers with the first of the six candidate
    names, in their fixed order of preference, that is a column of the
    table, and fails exactly when none of them is. *)
Theorem detect_gene_column_first (columns : list string) :
  match Validation.detect_gene_column columns with
  | Some col =>
      col ∈ columns
      ∧ ∃ earlier later,
          Validation.possible_cols = earlier ++ col :: later
          ∧ Forall (λ c, c ∉ columns) earlier
  | None => Forall (λ c, c ∉ columns) Validation.possible_cols
  end.
Proof.
  unfold Validation.detect_gene_column.
  pose proof (find_first (λ col, bool_decide (col ∈ columns))
                Validation.possible_cols) as H.
  destruct (List.find _ _) as [col|].
  - destruct H as (pre & post & Heq & Hcol & Hpre).
    split; [by apply bool_decide_eq_true in Hcol|].
    exists pre, post. split; [done|].
    eapply Forall_impl; [exact Hpre|]. intros c Hc.
    by apply bool_decide_eq_false in Hc.
  - eapply Forall_impl; [exact H|]. intros c Hc.
    by apply bool_decide_eq_false in Hc.
Qed.

(** X10. The genes written to a [Matched_in_...] file are exactly the
    upper-cased names carried both by a top gene and by a gene of the
    reference table, so that letter case plays no part in the match; they
    come in ascending order, each once, each already in upper case, and
    there are at most as many as distinct upper-cased names on either
    side. *)
Theorem matched_spec (top reference : list string) :
  let hits := Validation.matched top reference in
  (∀ g, g ∈ hits ↔
        (∃ t, t ∈ top ∧ Validation.upper t = g)
        ∧ (∃ r, r ∈ reference ∧ Validation.upper r = g))
  ∧ StronglySorted String.le hits
  ∧ NoDup hits
  ∧ Forall (λ g, Validation.upper g = g) hits
  ∧ (length hits ≤ size (Validation.gene_set top))%nat
  ∧ (length hits ≤ size (Validation.gene_set reference))%nat.
Proof.
  intros hits. subst hits.
  assert (Hin : ∀ g, g ∈ Validation.matched top reference ↔
        (∃ t, t ∈ top ∧ Validation.upper t = g)
        ∧ (∃ r, r ∈ reference ∧ Validation.upper r = g)).
  { intros g. by rewrite elem_of_matched, !elem_of_gene_set. }
  split; [exact Hin|].
  split; [apply sorted_StronglySorted|].
  split.
  { unfold Validation.matched. rewrite sorted_Permutation.
    apply NoDup_elements. }
  split.
  { apply Forall_forall. intros g Hg.
    apply Hin in Hg as [(t & _ & <-) _]. apply upper_idem. }
  apply length_matched.
Qed.

(** X11. The validation run stops with an error exactly when one of the
    two reference tables has none of the candidate gene columns; otherwise
    it reports the matches of the top genes against the detected column of
    each table, and neither match count exceeds the number of top genes
    checked. *)
Theorem validate_report (top_genes : list string)
    (compendium unfiltered : Validation.Table) :
  match Validation.validate top_genes compendium unfiltered with
  | None =>
      Forall (λ c, c ∉ Validation.columns compendium) Validation.possible_cols
      ∨ Forall (λ c, c ∉ Validation.columns unfiltered) Validation.possible_cols
  | Some report =>
      ∃ col_comp col_unf,
        Validation.detect_gene_column (Validation.columns compendium)
          = Some col_comp
        ∧ Validation.detect_gene_column (Validation.columns unfiltered)
          = Some col_unf
        ∧ Validation.in_compendium report
          = Validation.matched top_genes
              (Validation.column compendium col_comp)
        ∧ Validation.in_unfiltered report
          = Validation.matched top_genes
              (Validation.column unfiltered col_unf)
        ∧ (length (Validation.in_compendium report)
           ≤ Validation.n_checked report)%nat
        ∧ (length (Validation.in_unfiltered report)
           ≤ Validation.n_checked report)%nat
  end.
Proof.
  unfold Validation.validate.
  destruct (Validation.detect_gene_column (Validation.columns compendium))
    as [col_comp|] eqn:Ec; simpl; [|left; by apply detect_gene_column_None].
  destruct (Validation.detect_gene_column (Validation.columns unfiltered))
    as [col_unf|] eqn:Eu; simpl; [|right; by apply detect_gene_column_None].
  exists col_comp, col_unf. simpl.
  split; [done|]. split; [done|]. split; [done|]. split; [done|].
  split; apply length_matched.
Qed.

(** ** The run over all cancer types *)

Section run_facts.
Import GeneAnalysis.
Variable spearmanr : list float → list float → float * float.
Variable model : list ModelRow.
Variables crispr omics_expr : Frame.

Local Abbreviation analyze := (analyze spearmanr model crispr omics_expr).
Local Abbreviation step := (step spearmanr model crispr omics_expr).

(** The row and the file an iteration leaves, if any. *)
Local Abbreviation row_of c :=
  (match analyze c with Processed _ row => Some row | _ => None end).
Local Abbreviation file_of c :=
  (match analyze c with Processed df _ => Some (out_file c, df) | _ => None end).

Lemma foldl_step_summary cancers st :
  summary_rows (foldl step st cancers)
  = summary_rows st ++ omap (λ c, row_of c) cancers.
Proof.
  revert st. induction cancers as [|c cs IH]; intros st.
  - by rewrite app_nil_r.
  - cbn [foldl]. rewrite IH. unfold GeneAnalysis.step.
    change (omap ?f (c :: cs)) with
      (match f c with Some y => y :: omap f cs | None => omap f cs end).
    cbv beta. destruct (analyze c); simpl; try done. by rewrite <- app_assoc.
Qed.

Lemma foldl_step_files_eq cancers st :
  files (foldl step st cancers) = files st ++ omap (λ c, file_of c) cancers.
Proof.
  revert st. induction cancers as [|c cs IH]; intros st.
  - by rewrite app_nil_r.
  - cbn [foldl]. rewrite IH. unfold GeneAnalysis.step.
    change (omap ?f (c :: cs)) with
      (match f c with Some y => y :: omap f cs | None => omap f cs end).
    cbv beta. destruct (analyze c); simpl; try done. by rewrite <- app_assoc.
Qed.

Lemma Cancer_omap_rows cancers :
  map Cancer (omap (λ c, row_of c) cancers)
  = List.filter (λ c, bool_decide (is_Some (row_of c))) cancers.
Proof.
  induction cancers as [|c cs IH]; [done|].
  change (omap ?f (c :: cs)) with
    (match f c with Some y => y :: omap f cs | None => omap f cs end).
  cbn [List.filter]. cbv beta.
  destruct (analyze c) as [n| |df row] eqn:E; simpl; try done.
  rewrite IH. f_equal. by eapply summary_row_Cancer.
Qed.

Lemma fst_omap_files cancers :
  map fst (omap (λ c, file_of c) cancers)
  = map out_file (List.filter (λ c, bool_decide (is_Some (row_of c))) cancers).
Proof.
  induction cancers as [|c cs IH]; [done|].
  change (omap ?f (c :: cs)) with
    (match f c with Some y => y :: omap f cs | None => omap f cs end).
  cbn [List.filter]. cbv beta.
  destruct (analyze c) as [n| |df row] eqn:E; simpl; try done.
  by rewrite IH.
Qed.

Lemma StronglySorted_List_filter {A} (R : relation A) (f : A → bool) l :
  StronglySorted R l → StronglySorted R (List.filter f l).
Proof.
  induction 1 as [|x l Hs IH Hx]; simpl; [constructor|].
  destruct (f x); [|done]. constructor; [done|].
  rewrite Forall_forall in *. intros y Hy.
  apply elem_of_List_filter in Hy as [Hy _]. by apply Hx.
Qed.

Lemma sublist_List_filter {A} (f : A → bool) (l : list A) :
  List.filter f l `sublist_of` l.
Proof.
  induction l as [|x l IH]; simpl; [done|].
  destruct (f x); by constructor.
Qed.

Lemma elem_of_unique_cancers (c : string) :
  c ∈ unique_cancers model ↔
  ∃ r, r ∈ model ∧ OncotreePrimaryDisease r = Some c.
Proof.
  unfold unique_cancers, dropna.
  rewrite elem_of_sorted, elem_of_unique, list_elem_of_omap. split.
  - intros (d & Hd & Heq). apply elem_of_map in Hd as (r & -> & Hr).
    exists r. by rewrite <- Heq.
  - intros (r & Hr & Hd). exists (Some c). split; [|done].
    apply elem_of_map. exists r. by rewrite Hd.
Qed.

Lemma NoDup_unique_cancers : NoDup (unique_cancers model).
Proof.
  unfold unique_cancers. rewrite sorted_Permutation. apply NoDup_unique.
Qed.

End run_facts.

(** X12. The labels the run goes through are the disease labels present in
    the annotation table, each once, in ascending order; rows without a
    label contribute nothing. *)
Theorem unique_cancers_spec (model : list GeneAnalysis.ModelRow) :
  StronglySorted String.le (GeneAnalysis.unique_cancers model)
  ∧ NoDup (GeneAnalysis.unique_cancers model)
  ∧ ∀ c, c ∈ GeneAnalysis.unique_cancers model ↔
         ∃ r, r ∈ model ∧ GeneAnalysis.OncotreePrimaryDisease r = Some c.
Proof.
  split; [apply sorted_StronglySorted|].
  split; [apply NoDup_unique_cancers|]. apply elem_of_unique_cancers.
Qed.

(** X13. The run writes exactly one table per summary row, in the same
    order, under the path derived from the row's cancer label.  The summary
    lists each processed label once, in ascending order, always with at
    least 25 models, and a label is listed exactly when it is a label of
    the annotation table whose iteration produced a table. *)
Theorem run_outputs_in_step spearmanr model crispr omics_expr :
  let run := GeneAnalysis.main spearmanr model crispr omics_expr in
  let labels := map GeneAnalysis.Cancer (GeneAnalysis.summary_rows run) in
  map fst (GeneAnalysis.files run) = map GeneAnalysis.out_file labels
  ∧ labels `sublist_of` GeneAnalysis.unique_cancers model
  ∧ StronglySorted String.le labels
  ∧ NoDup labels
  ∧ Forall (λ row, (25 ≤ GeneAnalysis.N_Models row)%nat)
           (GeneAnalysis.summary_rows run)
  ∧ ∀ c, c ∈ labels ↔
         c ∈ GeneAnalysis.unique_cancers model
         ∧ ∃ df row,
             GeneAnalysis.analyze spearmanr model crispr omics_expr c
             = GeneAnalysis.Processed df row.
Proof.
  intros run labels. subst labels run. unfold GeneAnalysis.main.
  rewrite foldl_step_summary, foldl_step_files_eq. simpl.
  rewrite Cancer_omap_rows, fst_omap_files.
  split; [done|].
  split; [apply sublist_List_filter|].
  split; [apply StronglySorted_List_filter, sorted_StronglySorted|].
  split; [apply NoDup_List_filter, NoDup_unique_cancers|].
  split.
  - apply Forall_forall. intros row Hrow.
    apply list_elem_of_omap in Hrow as (c & _ & Hc).
    destruct (GeneAnalysis.analyze _ _ _ _ c) as [| |df row'] eqn:E;
      simplify_eq/=.
    apply analyze_Processed_inv in E as (Hn & _ & _ & ->). done.
  - intros c. rewrite elem_of_List_filter, bool_decide_eq_true.
    split; intros [Hc H]; (split; [done|]).
    + destruct (GeneAnalysis.analyze _ _ _ _ c) as [| |df row] eqn:E;
        try by destruct H.
      by exists df, row.
    + destruct H as (df & row & ->). by eexists.
Qed.

Section case_facts.
Import GeneAnalysis.

Lemma cancer_models_lower model c1 c2 :
  lower c1 = lower c2 → cancer_models model c1 = cancer_models model c2.
Proof. intros H. unfold cancer_models. by rewrite H. Qed.

Lemma common_models_lower model crispr omics_expr c1 c2 :
  lower c1 = lower c2 →
  common_models model crispr omics_expr c1
  = common_models model crispr omics_expr c2.
Proof.
  intros H. unfold common_models, common_set.
  by rewrite (cancer_models_lower model c1 c2 H).
Qed.

End case_facts.

(** X14. Two labels that differ only in letter case select the same cohort,
    and their iterations end the same way: both skipped, both without
    results, or both with the same table and the same summary fields apart
    from the label itself. *)
Theorem labels_equal_up_to_case
    spearmanr model crispr omics_expr (c1 c2 : string) :
  GeneAnalysis.lower c1 = GeneAnalysis.lower c2 →
  GeneAnalysis.common_models model crispr omics_expr c1
  = GeneAnalysis.common_models model crispr omics_expr c2
  ∧ GeneAnalysis.analyze spearmanr model crispr omics_expr c2
    = match GeneAnalysis.analyze spearmanr model crispr omics_expr c1 with
      | GeneAnalysis.Processed df row =>
          GeneAnalysis.Processed df
            {| GeneAnalysis.Cancer := c2;
               GeneAnalysis.N_Models := GeneAnalysis.N_Models row;
               GeneAnalysis.Top_Positive := GeneAnalysis.Top_Positive row;
               GeneAnalysis.Top_Negative := GeneAnalysis.Top_Negative row |}
      | other => other
      end.
Proof.
  intros H. pose proof (common_models_lower model crispr omics_expr _ _ H) as Hc.
  split; [exact Hc|].
  unfold GeneAnalysis.analyze. rewrite <- Hc.
  destruct (length _ <? 25)%nat; [done|].
  by destruct (GeneAnalysis.results _ _ _ _).
Qed.

Lemma labels_equal_up_to_case_witness :
  GeneAnalysis.lower "Lung Cancer" = GeneAnalysis.lower "LUNG CANCER"
  ∧ GeneAnalysis.common_models Fixture.model Fixture.crispr Fixture.omics_expr
      "Lung Cancer"
    = GeneAnalysis.common_models Fixture.model Fixture.crispr
        Fixture.omics_expr "LUNG CANCER".
Proof.
  assert (GeneAnalysis.lower "Lung Cancer" = GeneAnalysis.lower "LUNG CANCER")
    as H by reflexivity.
  split; [exact H|].
  exact (proj1 (labels_equal_up_to_case Fixture.spearmanr Fixture.model
                  Fixture.crispr Fixture.omics_expr _ _ H)).
Defined.

Lemma similarity_matrices_witness :
  PostAnalysis.load Sample.result_files = Some Sample.loaded
  ∧ PostAnalysis.cancer_list Sample.loaded = ["Lung Cancer"; "Skin_Melanoma"]
  ∧ ∃ (J : list (list Q)) (O : list (list nat)),
      PostAnalysis.jaccard_matrix Sample.loaded = Some J
      ∧ PostAnalysis.overlap_matrix Sample.loaded = Some O
      ∧ length J = 2%nat ∧ length O = 2%nat.
Proof.
  assert (PostAnalysis.load Sample.result_files = Some Sample.loaded) as H
    by reflexivity.
  split; [exact H|]. split; [vm_compute; reflexivity|].
  destruct (similarity_matrices _ _ H) as (J & O & HJ & HO & HlJ & HlO & _).
  exists J, O. split; [exact HJ|]. split; [exact HO|].
  split; [exact HlJ|exact HlO].
Defined.

(** ** File paths *)

Section path_facts.
Import GeneAnalysis PostAnalysis.
Local Open Scope string_scope.

Lemma sapp_cancel_r (s t u : string) : s ++ u = t ++ u → s = t.
Proof.
  revert s t. induction u as [|z u IH]; intros s t H.
  - by rewrite !sapp_nil_r in H.
  - change (String z u) with (String z "" ++ u) in H.
    rewrite <- !sapp_assoc in H. apply IH in H.
    by apply snoc_inj in H as [-> _].
Qed.

Lemma out_file_inj_name (c1 c2 : string) :
  out_file c1 = out_file c2 ↔ replace_slash c1 = replace_slash c2.
Proof.
  unfold out_file. split; [|by intros ->].
  intros H. apply (inj (String.append _)) in H.
  by apply sapp_cancel_r in H.
Qed.

Lemma contains_slash_replace (c : string) :
  contains "/" c = true → replace_slash c ≠ c.
Proof.
  intros H Heq. pose proof (replace_slash_no_slash c) as Hn.
  rewrite Heq in Hn. congruence.
Qed.

End path_facts.

(** X15. The path of a result file has no [/] beyond the one after the
    directory name, so every table lands directly in the results directory.
    Labels without [/] get different paths whenever they differ; but a label
    with a [/] gets the path of another label, the one that has [_] in its
    place, and the later of the two tables overwrites the earlier. *)
Theorem out_file_paths (c1 c2 : string) :
  PostAnalysis.basename (GeneAnalysis.out_file c1)
  = ("CRISPR_TME_" ++ GeneAnalysis.replace_slash c1 ++ "_Results.csv")%string
  ∧ (GeneAnalysis.out_file c1 = GeneAnalysis.out_file c2 ↔
     GeneAnalysis.replace_slash c1 = GeneAnalysis.replace_slash c2)
  ∧ (GeneAnalysis.contains "/" c1 = false →
     GeneAnalysis.contains "/" c2 = false →
     GeneAnalysis.out_file c1 = GeneAnalysis.out_file c2 → c1 = c2)
  ∧ (GeneAnalysis.contains "/" c1 = true →
     GeneAnalysis.replace_slash c1 ≠ c1
     ∧ GeneAnalysis.out_file (GeneAnalysis.replace_slash c1)
       = GeneAnalysis.out_file c1).
Proof.
  split.
  { change (GeneAnalysis.out_file c1)
      with ("Cancer_Specific_Results" ++ "/"
            ++ ("CRISPR_TME_" ++ GeneAnalysis.replace_slash c1
                ++ "_Results.csv"))%string.
    apply basename_sapp. rewrite !contains_slash_sapp.
    by rewrite replace_slash_no_slash. }
  split; [apply out_file_inj_name|]. split.
  - intros H1 H2 H. apply out_file_inj_name in H.
    by rewrite !replace_slash_fixed in H.
  - intros H. split; [by apply contains_slash_replace|].
    apply out_file_inj_name, replace_slash_fixed, replace_slash_no_slash.
Qed.

Lemma out_file_paths_witness :
  GeneAnalysis.contains "/" "Skin/Melanoma" = true
  ∧ GeneAnalysis.replace_slash "Skin/Melanoma" = "Skin_Melanoma"
  ∧ GeneAnalysis.out_file "Skin_Melanoma" = GeneAnalysis.out_file "Skin/Melanoma".
Proof.
  assert (GeneAnalysis.contains "/" "Skin/Melanoma" = true) as H by reflexivity.
  split; [exact H|]. split; [reflexivity|].
  destruct (out_file_paths "Skin/Melanoma" "") as (_ & _ & _ & Hc).
  exact (proj2 (Hc H)).
Defined.

(** ** More on the gene loop *)

Section gene_loop_more.
Import GeneAnalysis.
Variable spearmanr : list float → list float → float * float.
Variables crispr omics_expr : Frame.

Local Abbreviation proxy :=
  (λ m, mean (map (cell omics_expr m) (immune_genes omics_expr))).
Local Abbreviation paired := (λ gene common,
  List.filter (λ m, negb (isnan (cell crispr gene m)) && negb (isnan (proxy m)))
              common).

(** The genes of [results], in the order of the fitness rows. *)
Lemma results_genes common :
  map (λ r, r.1.1) (results spearmanr crispr omics_expr common)
  = List.filter (λ gene, (5 <=? length (paired gene common))%nat)
                (index crispr).
Proof.
  unfold results. induction (index crispr) as [|g gs IH]; [done|].
  change (omap ?f (g :: gs)) with
    (match f g with Some y => y :: omap f gs | None => omap f gs end).
  rewrite gene_result_spec. cbn [List.filter].
  destruct (Nat.ltb_spec (length (paired g common)) 5) as [Hlt|Hge].
  - apply Nat.leb_gt in Hlt. by rewrite Hlt.
  - apply Nat.leb_le in Hge. rewrite Hge.
    destruct (spearmanr _ _) as [rho p]. simpl. by rewrite IH.
Qed.

(** With no marker column every proxy score is NaN and no gene yields a
    result. *)
Lemma results_no_panel common :
  immune_genes omics_expr = [] →
  results spearmanr crispr omics_expr common = [].
Proof.
  intros Hpanel.
  assert (map (λ r, r.1.1) (results spearmanr crispr omics_expr common) = [])
    as H.
  { rewrite results_genes. induction (index crispr) as [|g gs IH]; [done|].
    cbn [List.filter].
    assert (paired g common = []) as ->; [|done].
    rewrite Hpanel. clear. induction common as [|m ms IH]; [done|].
    cbn [List.filter]. by rewrite andb_false_r. }
  by destruct (results _ _ _ _).
Qed.

End gene_loop_more.

(** X16. The table of a processed cancer type has one record per
    qualifying fitness row and no other: its gene column is a rearrangement
    of the fitness rows that have at least five paired observations,
    repetitions included, so it has at most as many records as the fitness
    matrix has rows. *)
Theorem table_genes_are_qualifying_rows
    spearmanr model crispr omics_expr cancer df row :
  GeneAnalysis.analyze spearmanr model crispr omics_expr cancer
    = GeneAnalysis.Processed df row →
  let common := GeneAnalysis.common_models model crispr omics_expr cancer in
  let proxy := λ m, GeneAnalysis.mean
                      (map (GeneAnalysis.cell omics_expr m)
                           (GeneAnalysis.immune_genes omics_expr)) in
  let qualifies := λ gene,
    (5 <=? length
       (List.filter (λ m, negb (isnan (GeneAnalysis.cell crispr gene m))
                          && negb (isnan (proxy m))) common))%nat in
  map GeneAnalysis.Gene df
    ≡ₚ List.filter qualifies (GeneAnalysis.index crispr)
  ∧ (length df ≤ length (GeneAnalysis.index crispr))%nat
  ∧ (NoDup (GeneAnalysis.index crispr) → NoDup (map GeneAnalysis.Gene df)).
Proof.
  intros Ha common proxy qualifies.
  apply Processed_table in Ha. fold common in Ha.
  assert (map GeneAnalysis.Gene df
          ≡ₚ List.filter qualifies (GeneAnalysis.index crispr)) as Hperm.
  { rewrite Ha. change (map ?f ?l) with (f <$> l).
    rewrite sort_values_Permutation.
    change (?f <$> ?l) with (map f l).
    rewrite with_fdr_Gene. apply reflexive_eq.
    exact (results_genes spearmanr crispr omics_expr common). }
  split; [exact Hperm|]. split.
  - rewrite <- (length_map GeneAnalysis.Gene), (Permutation_length Hperm).
    clear. induction (GeneAnalysis.index crispr) as [|g gs IH]; [done|].
    cbn [List.filter]. destruct (qualifies g); simpl; lia.
  - intros Hnd. rewrite Hperm. by apply NoDup_List_filter.
Qed.

Lemma table_genes_are_qualifying_rows_witness :
  GeneAnalysis.analyze Fixture.spearmanr Fixture.model Fixture.crispr
    Fixture.omics_expr "Lung Cancer"
  = GeneAnalysis.Processed Fixture.lung_table Fixture.lung_summary
  ∧ map GeneAnalysis.Gene Fixture.lung_table
    ≡ₚ ["A1BG (1)"; "TP53 (7157)"; "KRAS (3845)"; "MYC (4609)"].
Proof.
  assert (GeneAnalysis.analyze Fixture.spearmanr Fixture.model Fixture.crispr
            Fixture.omics_expr "Lung Cancer"
          = GeneAnalysis.Processed Fixture.lung_table Fixture.lung_summary)
    as Ha by (vm_compute; reflexivity).
  split; [exact Ha|].
  exact (proj1 (table_genes_are_qualifying_rows _ _ _ _ _ _ _ Ha)).
Defined.

(** X17. When no expression column has a marker string in its name, every
    proxy score is NaN, no gene of any cancer type reaches five paired
    observations, and the run ends without a single table or summary row,
    and without an error. *)
Theorem no_marker_no_output spearmanr model crispr omics_expr :
  (∀ col marker, col ∈ GeneAnalysis.columns omics_expr →
     marker ∈ GeneAnalysis.immune_markers →
     GeneAnalysis.contains marker col = false) →
  GeneAnalysis.immune_genes omics_expr = []
  ∧ (∀ cancer df row,
       GeneAnalysis.analyze spearmanr model crispr omics_expr cancer
       ≠ GeneAnalysis.Processed df row)
  ∧ GeneAnalysis.main spearmanr model crispr omics_expr
    = {| GeneAnalysis.files := []; GeneAnalysis.summary_rows := [] |}.
Proof.
  intros Hcols.
  assert (GeneAnalysis.immune_genes omics_expr = []) as Hpanel.
  { unfold GeneAnalysis.immune_genes.
    induction (GeneAnalysis.columns omics_expr) as [|col cols IH]; [done|].
    cbn [List.filter].
    assert (existsb (λ marker, GeneAnalysis.contains marker col)
                    GeneAnalysis.immune_markers = false) as ->.
    { apply not_true_is_false. intros H.
      apply existsb_exists in H as (marker & Hm & Hc).
      rewrite (Hcols col marker) in Hc; [done|left|by apply list_elem_of_In]. }
    apply IH. intros c m Hc. apply Hcols. by right. }
  assert (Hnot : ∀ cancer df row,
       GeneAnalysis.analyze spearmanr model crispr omics_expr cancer
       ≠ GeneAnalysis.Processed df row).
  { intros cancer df row Ha.
    apply analyze_Processed_inv in Ha as (_ & Hne & _).
    by rewrite results_no_panel in Hne. }
  split; [exact Hpanel|]. split; [exact Hnot|].
  unfold GeneAnalysis.main.
  induction (GeneAnalysis.unique_cancers model) as [|c cs IH]; [done|].
  cbn [foldl]. unfold GeneAnalysis.step at 2.
  destruct (GeneAnalysis.analyze _ _ _ _ c) as [n| |df row] eqn:E;
    [exact IH|exact IH|by apply Hnot in E].
Qed.

Lemma no_marker_no_output_witness :
  GeneAnalysis.immune_genes Sample.omics_no_marker = []
  ∧ GeneAnalysis.main Fixture.spearmanr Fixture.model Fixture.crispr
      Sample.omics_no_marker
    = {| GeneAnalysis.files := []; GeneAnalysis.summary_rows := [] |}.
Proof.
  destruct (no_marker_no_output Fixture.spearmanr Fixture.model Fixture.crispr
              Sample.omics_no_marker) as (H1 & _ & H2).
  - intros col marker Hc Hm.
    apply list_elem_of_In in Hc. apply list_elem_of_In in Hm.
    simpl in Hc, Hm.
    destruct Hc as [<-|[<-|[]]];
      repeat (destruct Hm as [<-|Hm]; [reflexivity|]); destruct Hm.
  - split; [exact H1|exact H2].
Defined.

(** ** Dropping repeated row labels *)

Section drop_duplicated_facts.
Import Loading.
Context {A : Type}.

(** The rows kept when the labels in [seen] count as already met. *)
Local Abbreviation kept seen rows :=
  (GeneAnalysis.bool_index rows
     (map negb (duplicated_from seen (map fst rows)))).

Lemma kept_cons (seen : list string) (k : string) (v : A) rows :
  kept seen ((k, v) :: rows)
  = if bool_decide (k ∈ seen) then kept (k :: seen) rows
    else (k, v) :: kept (k :: seen) rows.
Proof.
  unfold GeneAnalysis.bool_index. simpl. by destruct (bool_decide (k ∈ seen)).
Qed.

Lemma kept_sublist (seen : list string) (rows : list (string * A)) :
  kept seen rows `sublist_of` rows.
Proof.
  revert seen. induction rows as [|[k v] rows IH]; intros seen; [done|].
  rewrite kept_cons. destruct (bool_decide (k ∈ seen)); constructor; apply IH.
Qed.

Lemma kept_not_seen (seen : list string) (rows : list (string * A)) kv :
  kv ∈ kept seen rows → kv.1 ∉ seen.
Proof.
  revert seen. induction rows as [|[k v] rows IH]; intros seen.
  { intros H. by inv H. }
  rewrite kept_cons. destruct (bool_decide (k ∈ seen)) eqn:E.
  - intros H. apply IH in H. set_solver.
  - apply bool_decide_eq_false in E.
    intros [->|H]%elem_of_cons; [done|]. apply IH in H. set_solver.
Qed.

Lemma kept_NoDup (seen : list string) (rows : list (string * A)) :
  NoDup (map fst (kept seen rows)).
Proof.
  revert seen. induction rows as [|[k v] rows IH]; intros seen.
  { constructor. }
  rewrite kept_cons. destruct (bool_decide (k ∈ seen)); [apply IH|].
  cbn [map]. constructor; [|apply IH].
  intros Hin. apply elem_of_map in Hin as (kv & Hk & Hin).
  apply kept_not_seen in Hin. simpl in Hk. subst k. apply Hin. left.
Qed.

Lemma kept_loc (seen : list string) (rows : list (string * A)) (label : string) :
  loc (kept seen rows) label
  = if bool_decide (label ∈ seen) then None else loc rows label.
Proof.
  revert seen. induction rows as [|[k v] rows IH]; intros seen.
  { by destruct (bool_decide (label ∈ seen)). }
  rewrite kept_cons. cbn [loc].
  destruct (String.eqb_spec k label) as [->|Hne].
  - destruct (bool_decide (label ∈ seen)) eqn:E.
    + rewrite IH. rewrite bool_decide_eq_true_2; [done|left].
    + cbn [loc]. by rewrite String.eqb_refl.
  - destruct (bool_decide (k ∈ seen)) eqn:E.
    + rewrite IH. apply bool_decide_eq_true in E.
      destruct (bool_decide (label ∈ seen)) eqn:E'.
      * rewrite bool_decide_eq_true_2; [done|].
        apply bool_decide_eq_true in E'. by right.
      * rewrite bool_decide_eq_false_2; [done|].
        apply bool_decide_eq_false in E'. set_solver.
    + cbn [loc]. apply String.eqb_neq in Hne. rewrite Hne, IH.
      apply String.eqb_neq in Hne.
      destruct (bool_decide (label ∈ seen)) eqn:E'.
      * rewrite bool_decide_eq_true_2; [done|].
        apply bool_decide_eq_true in E'. by right.
      * rewrite bool_decide_eq_false_2; [done|].
        apply bool_decide_eq_false in E'. set_solver.
Qed.

Lemma kept_all (seen : list string) (rows : list (string * A)) :
  NoDup (map fst rows) → (∀ k, k ∈ map fst rows → k ∉ seen) →
  kept seen rows = rows.
Proof.
  revert seen. induction rows as [|[k v] rows IH]; intros seen Hnd Hs; [done|].
  rewrite kept_cons. cbn [map] in Hnd, Hs. apply NoDup_cons in Hnd as [Hk Hnd].
  rewrite bool_decide_eq_false_2 by (apply Hs; left).
  f_equal. apply IH; [done|]. intros k' Hk'.
  intros [->|Hin]%elem_of_cons; [done|]. apply (Hs k'); [by right|done].
Qed.

Lemma loc_is_Some (rows : list (string * A)) (label : string) :
  is_Some (loc rows label) ↔ label ∈ map fst rows.
Proof.
  induction rows as [|[k v] rows IH]; simpl.
  - split; [by intros [? ?]|intros H; by inv H].
  - destruct (String.eqb_spec k label) as [->|Hne].
    + split; [left|by eexists].
    + rewrite IH. split; [by right|].
      intros [?|?]%elem_of_cons; [congruence|done].
Qed.

End drop_duplicated_facts.

(** X18. Dropping the rows whose label was met before leaves every label
    exactly once, keeps the rows that stay in their order, and keeps for
    every label the data of its first row; the set of labels is unchanged,
    and a table without repeated labels is returned as it is. *)
Theorem drop_duplicated_spec {A} (rows : list (string * A)) :
  let cleaned := Loading.drop_duplicated rows in
  NoDup (map fst cleaned)
  ∧ cleaned `sublist_of` rows
  ∧ (∀ label, Loading.loc cleaned label = Loading.loc rows label)
  ∧ (∀ label, label ∈ map fst cleaned ↔ label ∈ map fst rows)
  ∧ (NoDup (map fst rows) → cleaned = rows).
Proof.
  intros cleaned. subst cleaned.
  unfold Loading.drop_duplicated, Loading.duplicated.
  assert (Hloc : ∀ label,
    Loading.loc (GeneAnalysis.bool_index rows
                   (map negb (Loading.duplicated_from [] (map fst rows)))) label
    = Loading.loc rows label).
  { intros label. rewrite kept_loc. by rewrite bool_decide_eq_false_2 by set_solver. }
  split; [apply kept_NoDup|]. split; [apply kept_sublist|].
  split; [exact Hloc|]. split.
  - intros label. by rewrite <- !loc_is_Some, Hloc.
  - intros Hnd. apply kept_all; [done|]. intros k _. set_solver.
Qed.

(** ** Adjusted against raw p-values *)

Section adjusted_facts.
Import GeneAnalysis.

Lemma count_le_pos (qs : list Q) (t : Q) : t ∈ qs → (0 < count_le qs t)%nat.
Proof.
  unfold count_le. induction qs as [|q qs IH]; intros H; [by inv H|].
  cbn [List.filter]. apply elem_of_cons in H as [<-|H].
  - assert (Qle_bool t t = true) as -> by (apply Qle_bool_iff, Qle_refl).
    simpl. lia.
  - destruct (Qle_bool q t); simpl; [lia|by apply IH].
Qed.

Lemma bh_bound_ge (qs : list Q) (t : Q) :
  t ∈ qs → (0 <= t)%Q → (t <= bh_bound qs t)%Q.
Proof.
  intros Ht Hpos. unfold bh_bound.
  pose proof (count_le_pos qs t Ht) as Hc.
  pose proof (count_le_length qs t) as Hn.
  destruct (ratio_range (count_le qs t) (length qs)) as [_ Hle]; [done|lia|].
  apply Qle_shift_div_l; [apply ratio_pos; lia|].
  apply Qle_trans with (t * 1)%Q; [|rewrite Qmult_1_r; apply Qle_refl].
  rewrite !(Qmult_comm t). by apply Qmult_le_compat_r.
Qed.

Lemma bh_adjusted_ge (qs : list Q) (p a : Q) :
  Forall (Qle 0) qs → (p <= 1)%Q → bh_adjusted qs p a → (p <= a)%Q.
Proof.
  intros Hpos Hp (_ & _ & [Heq|(t & Ht & Hpt & Heq)]); rewrite Heq; [done|].
  eapply Qle_trans; [exact Hpt|]. apply bh_bound_ge; [done|].
  rewrite Forall_forall in Hpos. by apply Hpos.
Qed.

End adjusted_facts.

(** X19. With the correction modelled as the Benjamini-Hochberg adjustment:
    when every raw p-value of a table is a number between 0 and 1, every
    adjusted p-value is a number too, at least the raw p-value of its row
    and at most 1. *)
Theorem adjusted_at_least_raw spearmanr model crispr omics_expr cancer df row :
  GeneAnalysis.analyze spearmanr model crispr omics_expr cancer
    = GeneAnalysis.Processed df row →
  Forall (λ r, ∃ p, GeneAnalysis.P r = Some p ∧ (0 <= p <= 1)%Q) df →
  Forall (λ r, ∃ p a, GeneAnalysis.P r = Some p ∧ GeneAnalysis.FDR r = Some a
                      ∧ (p <= a <= 1)%Q) df.
Proof.
  intros Ha Hraw. apply Processed_table in Ha.
  set (res := GeneAnalysis.results spearmanr crispr omics_expr
                (GeneAnalysis.common_models model crispr omics_expr cancer))
    in Ha.
  assert (df ≡ₚ GeneAnalysis.with_fdr res) as Hdf
    by (rewrite Ha; apply sort_values_Permutation).
  rewrite Hdf in Hraw |- *.
  pose proof (Forall_P_with_fdr
                (λ x, ∃ p, x = Some p ∧ (0 <= p <= 1)%Q) res _
                (reflexivity _) Hraw) as Hps.
  destruct (float_list_cases (map snd res)) as [Hnan|[qs Hqs]].
  { rewrite Forall_forall in Hps. by destruct (Hps _ Hnan) as (p & ? & _). }
  assert (Forall (λ q, 0 <= q <= 1)%Q qs) as Hqs01.
  { rewrite Hqs in Hps. apply Forall_forall. intros q Hq.
    rewrite Forall_forall in Hps.
    destruct (Hps (Some q)) as (p & [= <-] & Hp); [|done].
    apply elem_of_map. by exists q. }
  assert (Forall (Qle 0) qs) as Hpos
    by (eapply Forall_impl; [exact Hqs01|]; by intros q [? _]).
  apply Forall_forall. intros r Hr.
  apply list_elem_of_lookup in Hr as [i Hi].
  apply with_fdr_lookup in Hi as (_ & Hp & Hf). rewrite Hqs in Hp, Hf.
  change (map Some qs) with (Some <$> qs) in Hp.
  rewrite list_lookup_fmap in Hp.
  destruct (qs !! i) as [p|] eqn:Ei; [|done].
  simpl in Hp. injection Hp as Hp.
  destruct (multipletests_spec qs i p Hpos Ei) as (a & Hma & Hadj).
  exists p, a. split; [done|]. split.
  { apply (inj Some). etrans; [symmetry; exact Hf|exact Hma]. }
  split; [|by destruct Hadj].
  apply (bh_adjusted_ge qs); [done| |done].
  rewrite Forall_forall in Hqs01.
  by apply (Hqs01 p), list_elem_of_lookup_2 with i.
Qed.

Lemma adjusted_at_least_raw_witness :
  GeneAnalysis.analyze Fixture.spearmanr Fixture.model Fixture.crispr
    Fixture.omics_expr "Lung Cancer"
  = GeneAnalysis.Processed Fixture.lung_table Fixture.lung_summary
  ∧ Forall (λ r, ∃ p, GeneAnalysis.P r = Some p ∧ (0 <= p <= 1)%Q)
           Fixture.lung_table
  ∧ Forall (λ r, ∃ p a, GeneAnalysis.P r = Some p
                        ∧ GeneAnalysis.FDR r = Some a ∧ (p <= a <= 1)%Q)
           Fixture.lung_table.
Proof.
  assert (GeneAnalysis.analyze Fixture.spearmanr Fixture.model Fixture.crispr
            Fixture.omics_expr "Lung Cancer"
          = GeneAnalysis.Processed Fixture.lung_table Fixture.lung_summary)
    as Ha by (vm_compute; reflexivity).
  assert (Forall (λ r, ∃ p, GeneAnalysis.P r = Some p ∧ (0 <= p <= 1)%Q)
                 Fixture.lung_table) as Hraw.
  { vm_compute.
    repeat (constructor;
            [eexists; split; [reflexivity|split; discriminate]|]).
    constructor. }
  split; [exact Ha|]. split; [exact Hraw|].
  exact (adjusted_at_least_raw _ _ _ _ _ _ _ Ha Hraw).
Defined.

Example drop_duplicated_sample :
  Loading.drop_duplicated Sample.rows_with_duplicate
  = [("ACH-000001", 1%nat); ("ACH-000002", 2%nat)].
Proof. reflexivity. Qed.

Example cancer_of_file_lost :
  PostAnalysis.cancer_of_file (GeneAnalysis.out_file "CRISPR_TME")
  = "Results.csv".
Proof. reflexivity. Qed.

(** ** Gene frequencies and the presence matrix *)

Section counter_facts.
Import PostAnalysis.
Local Open Scope string_scope.

Local Abbreviation occ g l := (count_occ String.string_dec l g).

Lemma loc_counter_add cnt k g :
  Loading.loc (counter_add cnt k) g
  = if decide (g = k) then Some (S (counter_get cnt k)) else Loading.loc cnt g.
Proof.
  unfold counter_get. induction cnt as [|[k' n] t IH]; simpl.
  - destruct (String.eqb_spec k g) as [->|Hne].
    + by rewrite decide_True.
    + by rewrite decide_False.
  - destruct (String.eqb_spec k' k) as [->|Hne]; simpl.
    + destruct (String.eqb_spec k g) as [->|Hne'].
      * by rewrite decide_True.
      * by rewrite decide_False.
    + destruct (String.eqb_spec k' g) as [->|Hne'].
      * by rewrite decide_False.
      * exact IH.
Qed.

Lemma counter_get_add cnt k g :
  counter_get (counter_add cnt k) g
  = (counter_get cnt g + if decide (g = k) then 1 else 0)%nat.
Proof.
  unfold counter_get at 1. rewrite loc_counter_add.
  destruct (decide (g = k)) as [->|]; simpl; [lia|].
  unfold counter_get. lia.
Qed.

Lemma counter_get_update cnt l g :
  counter_get (counter_update cnt l) g = (counter_get cnt g + occ g l)%nat.
Proof.
  unfold counter_update. revert cnt.
  induction l as [|k l IH]; intros cnt; simpl; [lia|].
  rewrite IH, counter_get_add.
  destruct (String.string_dec k g) as [->|Hne].
  - rewrite decide_True by done. lia.
  - rewrite decide_False by done. lia.
Qed.

(** The invariant of a Counter: keys are distinct and counts positive. *)
Local Abbreviation counter_ok cnt :=
  (NoDup (map fst cnt) ∧ Forall (λ kv : string * nat, (0 < kv.2)%nat) cnt).

Lemma counter_add_keys cnt k :
  (counter_add cnt k).*1 = if decide (k ∈ cnt.*1) then cnt.*1 else (cnt.*1 ++ [k])%list.
Proof.
  induction cnt as [|[k' n] t IH]; [done|]. cbn [counter_add].
  destruct (String.eqb_spec k' k) as [->|Hne]; rewrite !fmap_cons; cbn [fst].
  - rewrite decide_True by left. done.
  - rewrite IH. destruct (decide (k ∈ t.*1)) as [Hin|Hnin].
    + rewrite decide_True by (by right). done.
    + rewrite decide_False; [done|].
      intros Hin. apply elem_of_cons in Hin as [ -> | Hin ]; done.
Qed.

Lemma counter_add_ok cnt k : counter_ok cnt → counter_ok (counter_add cnt k).
Proof.
  intros [Hnd Hpos]. split.
  - rewrite counter_add_keys. destruct (decide (k ∈ cnt.*1)); [done|].
    apply NoDup_app. split; [done|]. split; [|apply NoDup_singleton].
    intros x Hx Hk. apply list_elem_of_singleton in Hk as ->. done.
  - clear Hnd. induction cnt as [|[k' n] t IH]; simpl.
    + repeat constructor.
    + apply Forall_cons in Hpos as [Hn Ht].
      destruct (String.eqb k' k); constructor; simpl in *; auto with lia.
Qed.

Lemma counter_update_ok cnt l : counter_ok cnt → counter_ok (counter_update cnt l).
Proof.
  unfold counter_update. revert cnt.
  induction l as [|k l IH]; intros cnt H; simpl; [done|].
  by apply IH, counter_add_ok.
Qed.

Lemma loc_elem_of {A} (rows : list (string * A)) k v :
  NoDup rows.*1 → (k, v) ∈ rows → Loading.loc rows k = Some v.
Proof.
  induction rows as [|[k' v'] t IH]; simpl; intros Hnd Hin.
  - by apply elem_of_nil in Hin.
  - apply NoDup_cons in Hnd as [Hk Hnd].
    apply elem_of_cons in Hin as [[= -> ->]|Hin].
    + by rewrite String.eqb_refl.
    + destruct (String.eqb_spec k' k) as [->|Hne]; [|by apply IH].
      exfalso. apply Hk. apply list_elem_of_fmap. by exists (k, v).
Qed.

Lemma pos_counter_fold (st : Loaded) (cs : list string) cnt :
  (∀ c, c ∈ cs → is_Some (cancer_top_pos st !! c)) →
  foldl (λ acc c, cnt ← acc; l ← top_pos_of st c; Some (counter_update cnt l))
        (Some cnt) cs
  = Some (foldl (λ cnt c, counter_update cnt (default [] (cancer_top_pos st !! c)))
                cnt cs).
Proof.
  revert cnt. induction cs as [|c cs IH]; intros cnt H; simpl; [done|].
  destruct (H c) as [l Hl]; [left|]. unfold top_pos_of at 2. rewrite Hl. simpl.
  apply IH. intros c' Hc'. apply H. by right.
Qed.

Lemma counter_fold_get (top : string → list string) cs cnt g :
  counter_get (foldl (λ cnt c, counter_update cnt (top c)) cnt cs) g
  = (counter_get cnt g + sum_list ((λ c, occ g (top c)) <$> cs))%nat.
Proof.
  revert cnt. induction cs as [|c cs IH]; intros cnt; [simpl; lia|].
  rewrite fmap_cons. cbn [foldl sum_list sum_list_with].
  rewrite IH, counter_get_update. unfold id. lia.
Qed.

Lemma counter_fold_ok (top : string → list string) cs cnt :
  counter_ok cnt → counter_ok (foldl (λ cnt c, counter_update cnt (top c)) cnt cs).
Proof.
  revert cnt. induction cs as [|c cs IH]; intros cnt H; simpl; [done|].
  by apply IH, counter_update_ok.
Qed.

Lemma counter_items cnt g n :
  counter_ok cnt → (g, n) ∈ cnt ↔ (0 < n)%nat ∧ n = counter_get cnt g.
Proof.
  intros [Hnd Hpos]. split.
  - intros Hin. split.
    + by apply (proj1 (Forall_forall _ _) Hpos (g, n)).
    + unfold counter_get. by rewrite (loc_elem_of cnt g n).
  - intros [Hn ->]. unfold counter_get in *.
    destruct (Loading.loc cnt g) as [n|] eqn:E; [|simpl in Hn; lia].
    simpl. clear -E. induction cnt as [|[k v] t IH]; [done|]. simpl in E.
    destruct (String.eqb_spec k g) as [->|Hne].
    + injection E as ->. left.
    + right. by apply IH.
Qed.

Lemma pos_counter_eq st :
  keys_filed st →
  pos_counter st
  = Some (foldl (λ cnt c, counter_update cnt (default [] (cancer_top_pos st !! c)))
                [] (cancer_list st)).
Proof.
  intros H. apply pos_counter_fold. intros c Hc. by destruct (H c Hc).
Qed.

Lemma load_pos_counter files st :
  load files = Some st →
  ∃ cnt, pos_counter st = Some cnt ∧ NoDup (map fst cnt)
    ∧ ∀ g, counter_get cnt g
           = sum_list ((λ c, occ g (default [] (cancer_top_pos st !! c)))
                       <$> cancer_list st).
Proof.
  intros Hload. pose proof (load_keys _ _ Hload) as Hkeys.
  eexists. split; [by apply pos_counter_eq|]. split.
  - apply (counter_fold_ok _ (cancer_list st) []). split; constructor.
  - intros g. by rewrite counter_fold_get.
Qed.

End counter_facts.

(** X20. The frequency table of Step 5 is always built.  Its genes are
    distinct, and a gene is listed with count [n] exactly when [n] is
    positive and is the number of its occurrences in the positive lists,
    summed over [cancer_list]: a list filed under a name that two result
    files share is counted once per file. *)
Theorem frequency_table (files : list (string * list GeneAnalysis.AssocRow))
    (st : PostAnalysis.Loaded) :
  PostAnalysis.load files = Some st →
  ∃ cnt, PostAnalysis.pos_counter st = Some cnt
    ∧ NoDup (map fst cnt)
    ∧ ∀ g n, (g, n) ∈ cnt
        ↔ (0 < n)%nat
          ∧ n = sum_list
                  (map (λ c, count_occ String.string_dec
                               (default [] (PostAnalysis.cancer_top_pos st !! c)) g)
                       (PostAnalysis.cancer_list st)).
Proof.
  intros Hload. pose proof (load_keys _ _ Hload) as Hkeys.
  set (top := λ c, default [] (PostAnalysis.cancer_top_pos st !! c)).
  exists (foldl (λ cnt c, PostAnalysis.counter_update cnt (top c))
                [] (PostAnalysis.cancer_list st)).
  split; [by apply pos_counter_eq|].
  assert (Hok := counter_fold_ok top (PostAnalysis.cancer_list st) []
                   (conj (NoDup_nil_2 : NoDup (map fst [])) (Forall_nil_2 _))).
  split; [apply Hok|]. intros g n.
  rewrite (counter_items _ g n Hok), counter_fold_get. done.
Qed.

Lemma frequency_table_witness :
  PostAnalysis.load Sample.result_files = Some Sample.loaded
  ∧ ∃ cnt, PostAnalysis.pos_counter Sample.loaded = Some cnt
           ∧ NoDup (map fst cnt).
Proof.
  assert (PostAnalysis.load Sample.result_files = Some Sample.loaded) as H
    by reflexivity.
  split; [exact H|].
  destruct (frequency_table _ _ H) as (cnt & Hc & Hnd & _).
  exists cnt. split; [exact Hc|exact Hnd].
Defined.

Section top_genes_facts.
Import PostAnalysis.

#[local] Instance by_count_trans : Transitive by_count.
Proof. intros a b c. unfold by_count. lia. Qed.

#[local] Instance by_count_total : Total by_count.
Proof. intros a b. unfold by_count. lia. Qed.

Lemma sort_by_count_Permutation cnt : sort_by_count cnt ≡ₚ cnt.
Proof.
  unfold sort_by_count.
  rewrite reverse_Permutation, merge_sort_Permutation.
  apply reverse_Permutation.
Qed.

Lemma sort_by_count_sorted cnt :
  StronglySorted (flip by_count) (sort_by_count cnt).
Proof.
  apply StronglySorted_reverse, StronglySorted_merge_sort; apply _.
Qed.

Lemma top_genes_of_counter cnt :
  NoDup (map fst cnt) →
  length (top_genes (sort_by_count cnt)) = (M `min` length cnt)%nat
  ∧ NoDup (top_genes (sort_by_count cnt))
  ∧ (∀ g, g ∈ top_genes (sort_by_count cnt) → g ∈ map fst cnt)
  ∧ ∀ g h, g ∈ top_genes (sort_by_count cnt) → h ∈ map fst cnt →
           h ∉ top_genes (sort_by_count cnt) →
           (counter_get cnt h ≤ counter_get cnt g)%nat.
Proof.
  intros Hnd. set (df := sort_by_count cnt).
  assert (Hp : df ≡ₚ cnt) by apply sort_by_count_Permutation.
  assert (Hpk : map fst df ≡ₚ map fst cnt) by (by apply fmap_Permutation).
  assert (Hget : ∀ g n, (g, n) ∈ df → counter_get cnt g = n).
  { intros g n Hin. rewrite Hp in Hin. unfold counter_get.
    by rewrite (loc_elem_of cnt g n). }
  unfold top_genes. split; [|split; [|split]].
  - rewrite length_take, length_map, (Permutation_length Hp). done.
  - eapply sublist_NoDup; [|apply sublist_take]. by rewrite Hpk.
  - intros g Hg. rewrite <- Hpk. by eapply subseteq_take.
  - intros g h Hg Hh Hnot.
    assert (h ∈ drop M (map fst df)) as Hd.
    { rewrite <- Hpk, <- (take_drop M (map fst df)) in Hh.
      apply elem_of_app in Hh as [Hh|Hh]; done. }
    change (map fst df) with (fst <$> df) in Hg, Hd.
    rewrite <- fmap_take in Hg. rewrite <- fmap_drop in Hd.
    apply list_elem_of_fmap in Hg as ([g' n] & -> & Hg).
    apply list_elem_of_fmap in Hd as ([h' m] & -> & Hd).
    simpl.
    pose proof (sort_by_count_sorted cnt) as Hs. fold df in Hs.
    rewrite <- (take_drop M df) in Hs.
    pose proof (StronglySorted_app_1_elem_of _ _ _ _ _ Hs Hg Hd) as Hle.
    rewrite (Hget g' n), (Hget h' m).
    + exact Hle.
    + by eapply subseteq_drop.
    + by eapply subseteq_take.
Qed.

End top_genes_facts.

Section presence_facts.
Import PostAnalysis.

(** The 0/1 matrix of a predicate on row and column labels. *)
Local Abbreviation matrix P genes cl :=
  (map (λ g : string, map (λ c : string, if P g c : bool then 1%nat else 0%nat) cl)
       genes).

Lemma matrix_ext (P P' : string → string → bool) genes cl :
  (∀ g c, g ∈ genes → c ∈ cl → P g c = P' g c) →
  matrix P genes cl = matrix P' genes cl.
Proof.
  intros H. apply map_ext_in. intros g Hg%list_elem_of_In.
  apply map_ext_in. intros c Hc%list_elem_of_In. by rewrite H.
Qed.

Lemma matrix_zero genes cl :
  replicate (length genes) (replicate (length cl) 0%nat)
  = matrix (λ _ _, false) genes cl.
Proof.
  induction genes as [|g genes IH]; simpl; [done|]. f_equal; [|done].
  clear. induction cl as [|c cl IH]; simpl; [done|]. by f_equal.
Qed.

Lemma set_loc_matrix P genes cl g0 c0 :
  set_loc genes cl (matrix P genes cl) g0 c0
  = matrix (λ g c, P g c || (String.eqb g g0 && String.eqb c c0)) genes cl.
Proof.
  unfold set_loc. change (map ?f ?k) with (f <$> k).
  rewrite zip_with_fmap_r, zip_with_diag. apply list_fmap_ext.
  intros _ g _. destruct (String.eqb g g0).
  - rewrite zip_with_fmap_r, zip_with_diag. apply list_fmap_ext.
    intros _ c _. rewrite andb_true_l. destruct (String.eqb c c0).
    + by rewrite orb_true_r.
    + by rewrite orb_false_r.
  - apply list_fmap_ext. intros _ c _. by rewrite andb_false_l, orb_false_r.
Qed.

Lemma mark_matrix P genes cl g0 c0 :
  (if bool_decide (g0 ∈ genes)
   then set_loc genes cl (matrix P genes cl) g0 c0
   else matrix P genes cl)
  = matrix (λ g c, P g c || (String.eqb g g0 && String.eqb c c0)) genes cl.
Proof.
  case_bool_decide as Hin; [apply set_loc_matrix|].
  apply matrix_ext. intros g c Hg _.
  destruct (String.eqb_spec g g0) as [->|Hne]; [done|].
  by rewrite andb_false_l, orb_false_r.
Qed.

Lemma inner_matrix P genes cl c0 l :
  foldl (λ mat g, if bool_decide (g ∈ genes)
                  then set_loc genes cl mat g c0 else mat)
        (matrix P genes cl) l
  = matrix (λ g c, P g c || (bool_decide (g ∈ l) && String.eqb c c0)) genes cl.
Proof.
  revert P. induction l as [|g0 l IH]; intros P; cbn [foldl].
  - apply matrix_ext. intros g c _ _.
    rewrite bool_decide_false by apply not_elem_of_nil.
    by rewrite andb_false_l, orb_false_r.
  - rewrite mark_matrix, IH. apply matrix_ext. intros g c _ _.
    rewrite <- orb_assoc. f_equal. rewrite <- andb_orb_distrib_l. f_equal.
    destruct (String.eqb_spec g g0) as [->|Hne].
    + by rewrite (bool_decide_true (g0 ∈ g0 :: l)) by left.
    + rewrite orb_false_l. apply bool_decide_ext. rewrite elem_of_cons.
      tauto.
Qed.

Lemma outer_matrix (st : Loaded) P genes cl cs :
  (∀ c, c ∈ cs → is_Some (cancer_top_pos st !! c)) →
  foldl (λ acc c,
           mat ← acc;
           l ← top_pos_of st c;
           Some (foldl (λ mat g,
                          if bool_decide (g ∈ genes)
                          then set_loc genes cl mat g c
                          else mat)
                       mat l))
        (Some (matrix P genes cl)) cs
  = Some (matrix (λ g c, P g c
                         || (bool_decide (c ∈ cs)
                             && bool_decide
                                  (g ∈ default [] (cancer_top_pos st !! c))))
                 genes cl).
Proof.
  revert P. induction cs as [|c0 cs IH]; intros P H.
  - cbn [foldl]. f_equal. apply matrix_ext. intros g c _ _.
    rewrite bool_decide_false by apply not_elem_of_nil.
    by rewrite andb_false_l, orb_false_r.
  - cbn [foldl]. destruct (H c0) as [l Hl]; [left|].
    unfold top_pos_of at 2. rewrite Hl. cbn [mbind option_bind].
    rewrite inner_matrix, IH by (intros c' Hc'; apply H; by right).
    f_equal. apply matrix_ext. intros g c _ _.
    rewrite <- orb_assoc. f_equal.
    destruct (String.eqb_spec c c0) as [->|Hne].
    + rewrite Hl. simpl. rewrite (bool_decide_true (c0 ∈ c0 :: cs)) by left.
      rewrite andb_true_r, andb_true_l.
      destruct (bool_decide (g ∈ l)); [done|].
      by rewrite andb_false_r.
    + rewrite andb_false_r, orb_false_l. f_equal.
      apply bool_decide_ext. rewrite elem_of_cons. tauto.
Qed.

Lemma matrix_entry P genes cl i j g c :
  genes !! i = Some g → cl !! j = Some c →
  (matrix P genes cl !! i ≫= λ row, row !! j)
  = Some (if P g c then 1%nat else 0%nat).
Proof.
  intros Hi Hj. change (map ?f ?k) with (f <$> k).
  rewrite list_lookup_fmap, Hi. simpl.
  change (map ?f ?k) with (f <$> k).
  by rewrite list_lookup_fmap, Hj.
Qed.

End presence_facts.

(** X22. The presence matrix is always built, with one row per gene of
    its index and one column per result file; the entry in the row of gene
    [g] and the column of cancer [c] is 1 when [g] is in the positive list
    filed under [c], and 0 otherwise. *)
Theorem presence_matrix (files : list (string * list GeneAnalysis.AssocRow))
    (st : PostAnalysis.Loaded) (genes : list string) :
  PostAnalysis.load files = Some st →
  ∃ mat, PostAnalysis.presence st genes = Some mat
    ∧ length mat = length genes
    ∧ Forall (λ row, length row = length files) mat
    ∧ ∀ i j g c, genes !! i = Some g →
        PostAnalysis.cancer_list st !! j = Some c →
        ∃ l, PostAnalysis.cancer_top_pos st !! c = Some l
             ∧ (mat !! i ≫= λ row, row !! j)
               = Some (if bool_decide (g ∈ l) then 1%nat else 0%nat).
Proof.
  intros Hload. pose proof (load_keys _ _ Hload) as Hkeys.
  pose proof (load_cancer_list _ _ Hload) as Hlist.
  assert (length (PostAnalysis.cancer_list st) = length files) as Hlen
    by (by rewrite Hlist, length_map).
  eexists. split.
  { unfold PostAnalysis.presence. rewrite matrix_zero.
    apply (outer_matrix st (λ _ _, false) genes (PostAnalysis.cancer_list st)
             (PostAnalysis.cancer_list st)).
    intros c Hc. by destruct (Hkeys c Hc). }
  split; [by rewrite length_map|]. split.
  { apply Forall_forall. intros row Hrow.
    apply elem_of_map in Hrow as (a & -> & _). by rewrite length_map. }
  intros i j g c Hi Hj.
  assert (c ∈ PostAnalysis.cancer_list st) as Hc
    by (by eapply list_elem_of_lookup_2).
  destruct (Hkeys c Hc) as [[l Hl] _]. exists l. split; [done|].
  rewrite (matrix_entry _ _ _ i j g c Hi Hj). f_equal.
  rewrite Hl, bool_decide_true by done. done.
Qed.

Lemma presence_matrix_witness :
  PostAnalysis.load Sample.result_files = Some Sample.loaded
  ∧ ∃ mat, PostAnalysis.presence Sample.loaded ["TP53"; "BRAF"]%string
           = Some mat
           ∧ length mat = 2%nat.
Proof.
  assert (PostAnalysis.load Sample.result_files = Some Sample.loaded) as H
    by reflexivity.
  split; [exact H|].
  destruct (presence_matrix _ _ ["TP53"; "BRAF"]%string H)
    as (mat & Hm & Hl & _).
  exists mat. split; [exact Hm|exact Hl].
Defined.

(** X21. The rows of the presence matrix are the [M] most frequent genes:
    [top_genes] has [M] genes, or all of them when there are fewer, no gene
    twice, every one of them a gene of the frequency table, and no gene left
    out is counted more often than a gene taken. *)
Theorem top_genes_most_frequent
    (files : list (string * list GeneAnalysis.AssocRow))
    (st : PostAnalysis.Loaded) :
  PostAnalysis.load files = Some st →
  ∃ cnt, PostAnalysis.pos_counter st = Some cnt
    ∧ let top_genes := PostAnalysis.top_genes (PostAnalysis.sort_by_count cnt) in
      length top_genes = (PostAnalysis.M `min` length cnt)%nat
      ∧ NoDup top_genes
      ∧ (∀ g, g ∈ top_genes → g ∈ map fst cnt)
      ∧ ∀ g h, g ∈ top_genes → h ∈ map fst cnt → h ∉ top_genes →
               (PostAnalysis.counter_get cnt h
                ≤ PostAnalysis.counter_get cnt g)%nat.
Proof.
  intros Hload. destruct (load_pos_counter _ _ Hload) as (cnt & Hc & Hnd & _).
  exists cnt. split; [done|]. by apply top_genes_of_counter.
Qed.

Lemma top_genes_most_frequent_witness :
  PostAnalysis.load Sample.result_files = Some Sample.loaded
  ∧ ∃ cnt, PostAnalysis.pos_counter Sample.loaded = Some cnt
           ∧ NoDup (PostAnalysis.top_genes (PostAnalysis.sort_by_count cnt)).
Proof.
  assert (PostAnalysis.load Sample.result_files = Some Sample.loaded) as H
    by reflexivity.
  split; [exact H|].
  destruct (top_genes_most_frequent _ _ H) as (cnt & Hc & _ & Hnd & _).
  exists cnt. split; [exact Hc|exact Hnd].
Defined.

(** X23. The lists of Step 2 are cut by rank only, never by the sign of
    the coefficient: for a table of at most [TOP_N] rows the positive list
    holds the cleaned name of every row, and the negative list holds the
    same names. *)
Theorem short_table_lists (df : list GeneAnalysis.AssocRow) :
  (length df ≤ PostAnalysis.TOP_N)%nat →
  PostAnalysis.top_list false df
  ≡ₚ map PostAnalysis.gene_clean (map GeneAnalysis.Gene df)
  ∧ PostAnalysis.top_list true df ≡ₚ PostAnalysis.top_list false df.
Proof.
  intros Hlen.
  assert (H : ∀ b, PostAnalysis.top_list b df
                   ≡ₚ map PostAnalysis.gene_clean (map GeneAnalysis.Gene df)).
  { intros b. unfold PostAnalysis.top_list.
    rewrite take_ge.
    - change (map ?f ?k) with (f <$> k).
      by rewrite (sort_values_Permutation GeneAnalysis.Spearman_r b df).
    - by rewrite (Permutation_length
                    (sort_values_Permutation GeneAnalysis.Spearman_r b df)). }
  split; [apply H|]. by rewrite !H.
Qed.

Lemma short_table_lists_witness :
  (length Fixture.lung_table ≤ PostAnalysis.TOP_N)%nat
  ∧ PostAnalysis.top_list true Fixture.lung_table
    ≡ₚ PostAnalysis.top_list false Fixture.lung_table.
Proof.
  assert (length Fixture.lung_table ≤ PostAnalysis.TOP_N)%nat as H
    by (vm_compute; lia).
  split; [exact H|]. exact (proj2 (short_table_lists _ H)).
Defined.

(** ** Rank correlation of a strictly decreasing pair *)

Section rank_facts.
Import GeneAnalysis Spearman.

Lemma length_filter_Forall2 {A B} (P : A → bool) (Q : B → bool) xs ys :
  Forall2 (λ a b, P a = Q b) xs ys →
  length (List.filter P xs) = length (List.filter Q ys).
Proof.
  induction 1 as [|a b xs ys H _ IH]; [done|]. simpl. rewrite <- H.
  destruct (P a); simpl; by rewrite IH.
Qed.

Lemma length_filter_le {A} (P Q : A → bool) l :
  (∀ a, P a = true → Q a = true) →
  (length (List.filter P l) ≤ length (List.filter Q l))%nat.
Proof.
  intros H. induction l as [|a l IH]; simpl; [lia|].
  destruct (P a) eqn:E.
  - rewrite (H a E). simpl. lia.
  - destruct (Q a); simpl; lia.
Qed.

Lemma Qlt_negb_le (a b : Q) : negb (Qle_bool a b) = true ↔ (b < a)%Q.
Proof.
  rewrite negb_true_iff. split.
  - intros H. apply Qnot_le_lt. intros Hle.
    apply Qle_bool_iff in Hle. congruence.
  - intros H. destruct (Qle_bool a b) eqn:E; [|done].
    apply Qle_bool_iff in E. by apply Qle_not_lt in E.
Qed.

(** Below, tied and above make up the whole vector. *)
Lemma count_trichotomy (v : list Q) (a : Q) :
  (length (List.filter (λ b, negb (Qle_bool a b)) v)
   + length (List.filter (λ b, Qeq_bool b a) v)
   + length (List.filter (λ b, negb (Qle_bool b a)) v) = length v)%nat.
Proof.
  induction v as [|b v IH]; simpl; [done|].
  destruct (Qlt_le_dec b a) as [Hlt|Hle].
  - rewrite (proj2 (Qlt_negb_le a b) Hlt).
    assert (Qeq_bool b a = false) as ->.
    { apply not_true_iff_false. intros H%Qeq_bool_iff.
      rewrite H in Hlt. by apply Qlt_irrefl in Hlt. }
    assert (negb (Qle_bool b a) = false) as ->.
    { apply negb_false_iff, Qle_bool_iff. by apply Qlt_le_weak. }
    simpl. lia.
  - assert (negb (Qle_bool a b) = false) as ->
      by (by apply negb_false_iff, Qle_bool_iff).
    destruct (Qeq_bool b a) eqn:E.
    + apply Qeq_bool_iff in E.
      assert (negb (Qle_bool b a) = false) as ->.
      { apply negb_false_iff, Qle_bool_iff. rewrite E. apply Qle_refl. }
      simpl. lia.
    + assert (negb (Qle_bool b a) = true) as ->.
      { apply Qlt_negb_le. apply Qle_lt_or_eq in Hle as [H|H]; [done|].
        apply Qeq_bool_neq in E. exfalso. apply E. by symmetry. }
      simpl. lia.
Qed.

(** [ys] is strictly decreasing as a function of [xs]. *)
Local Abbreviation anti xs ys :=
  (∀ (i j : nat) (xi xj yi yj : Q),
     xs !! i = Some xi → xs !! j = Some xj →
     ys !! i = Some yi → ys !! j = Some yj →
     (xi < xj)%Q ↔ (yj < yi)%Q).

Lemma Qeq_not_lt (a b : Q) : (a == b)%Q ↔ ¬ (a < b)%Q ∧ ¬ (b < a)%Q.
Proof.
  split.
  - intros H. rewrite H. split; apply Qlt_irrefl.
  - intros [H1 H2]. apply Qle_antisym; by apply Qnot_lt_le.
Qed.

(** Reversing the order reverses the ranks: the rank of a value of [ys] and
    the rank of its partner in [xs] add up to [n + 1]. *)
Lemma rank2_anti (xs ys : list Q) (i : nat) (xi yi : Q) :
  length xs = length ys → anti xs ys →
  xs !! i = Some xi → ys !! i = Some yi →
  rank2 ys yi = (2 * Z.of_nat (length xs) + 2 - rank2 xs xi)%Z.
Proof.
  intros Hlen Hanti Hxi Hyi. unfold rank2.
  assert (length (List.filter (λ b, negb (Qle_bool yi b)) ys)
          = length (List.filter (λ b, negb (Qle_bool b xi)) xs)) as ->.
  { symmetry. apply length_filter_Forall2.
    apply Forall2_same_length_lookup_2; [done|].
    intros j xj yj Hxj Hyj.
    apply eq_true_iff_eq. rewrite !Qlt_negb_le. by eapply Hanti. }
  assert (length (List.filter (λ b, Qeq_bool b yi) ys)
          = length (List.filter (λ b, Qeq_bool b xi) xs)) as ->.
  { symmetry. apply length_filter_Forall2.
    apply Forall2_same_length_lookup_2; [done|].
    intros j xj yj Hxj Hyj.
    apply eq_true_iff_eq. rewrite !Qeq_bool_iff, !Qeq_not_lt.
    rewrite (Hanti j i xj xi yj yi), (Hanti i j xi xj yi yj) by done. tauto. }
  pose proof (count_trichotomy xs xi). lia.
Qed.

Lemma rank2_lt (v : list Q) (a b : Q) :
  a ∈ v → (a < b)%Q → (rank2 v a < rank2 v b)%Z.
Proof.
  intros Ha Hab. unfold rank2.
  assert (length (List.filter (λ c, negb (Qle_bool a c)) v)
          + length (List.filter (λ c, Qeq_bool c a) v)
          ≤ length (List.filter (λ c, negb (Qle_bool b c)) v))%nat as H1.
  { clear Ha. induction v as [|c v IH]; simpl; [lia|].
    destruct (negb (Qle_bool a c)) eqn:E1.
    - apply Qlt_negb_le in E1.
      assert (Qeq_bool c a = false) as ->.
      { apply not_true_iff_false. intros H%Qeq_bool_iff.
        rewrite H in E1. by apply Qlt_irrefl in E1. }
      rewrite (proj2 (Qlt_negb_le b c)) by (by eapply Qlt_trans).
      simpl. lia.
    - destruct (Qeq_bool c a) eqn:E2.
      + apply Qeq_bool_iff in E2.
        rewrite (proj2 (Qlt_negb_le b c)) by (by rewrite E2).
        simpl. lia.
      + destruct (negb (Qle_bool b c)); simpl; lia. }
  assert (1 ≤ length (List.filter (λ c, Qeq_bool c a) v))%nat as H2.
  { clear H1. induction v as [|c v IH]; [by apply elem_of_nil in Ha|].
    simpl. apply elem_of_cons in Ha as [->|Ha].
    - rewrite (proj2 (Qeq_bool_iff c c)) by reflexivity. simpl. lia.
    - destruct (Qeq_bool c a); simpl; [lia|by apply IH]. }
  lia.
Qed.

End rank_facts.

Section pearson_facts.
Import GeneAnalysis Spearman.
Local Open Scope Q_scope.

Local Abbreviation QN n := (inject_Z (Z.of_nat n)).
Local Abbreviation sq m a := ((a - m) * (a - m)).

Lemma QN_S (n : nat) : QN (S n) == QN n + 1.
Proof. by rewrite Nat2Z.inj_succ, <- Z.add_1_r, inject_Z_plus. Qed.

(** [w] is [u] reflected: [b = k - a] at every position. *)
Local Abbreviation reflected k u w := (Forall2 (λ a b : Q, b == k - a) u w).

Lemma Qsum_reflected (k : Q) (u w : list Q) :
  reflected k u w → Qsum w == QN (length u) * k - Qsum u.
Proof.
  induction 1 as [|a b u w H _ IH].
  - simpl. ring.
  - cbn [Qsum foldr length]. fold (Qsum u). fold (Qsum w).
    rewrite IH, H, (QN_S (length u)). ring.
Qed.

Lemma Qmean_reflected (k : Q) (u w : list Q) :
  u ≠ [] → reflected k u w → Qmean w == k - Qmean u.
Proof.
  intros Hne H. unfold Qmean.
  rewrite (Qsum_reflected k u w H), <- (Forall2_length _ _ _ H).
  assert (¬ QN (length u) == 0) as Hn.
  { intros E. assert (0 < QN (length u)) as H0.
    { apply QN_pos. destruct u; [done|simpl; lia]. }
    rewrite E in H0. by apply Qlt_irrefl in H0. }
  field. exact Hn.
Qed.

Lemma cross_reflected (k mu mw : Q) (u w : list Q) :
  reflected k u w → mw == k - mu →
  Qsum (zip_with (λ a b, (a - mu) * (b - mw)) u w)
  == - Qsum (map (λ a, sq mu a) u).
Proof.
  intros H Hm. induction H as [|a b u w H _ IH].
  - simpl. ring.
  - cbn [zip_with map Qsum foldr].
    fold (Qsum (zip_with (λ a b, (a - mu) * (b - mw)) u w)).
    fold (Qsum (map (λ a, sq mu a) u)).
    rewrite IH, H, Hm. ring.
Qed.

Lemma square_reflected (k mu mw : Q) (u w : list Q) :
  reflected k u w → mw == k - mu →
  Qsum (map (λ b, sq mw b) w) == Qsum (map (λ a, sq mu a) u).
Proof.
  intros H Hm. induction H as [|a b u w H _ IH].
  - simpl. ring.
  - cbn [map Qsum foldr].
    fold (Qsum (map (λ b, sq mw b) w)).
    fold (Qsum (map (λ a, sq mu a) u)).
    rewrite IH, H, Hm. ring.
Qed.

Lemma square_diag (m : Q) (u : list Q) :
  zip_with (λ a b, (a - m) * (b - m)) u u = map (λ a, sq m a) u.
Proof. induction u as [|a u IH]; simpl; [done|]. by rewrite IH. Qed.

Lemma Qsquare_nonneg (a : Q) : 0 <= a * a.
Proof.
  unfold Qle, Qmult. simpl. rewrite Z.mul_1_r. apply Z.square_nonneg.
Qed.

Lemma Qsum_squares_nonneg (m : Q) (u : list Q) :
  0 <= Qsum (map (λ a, sq m a) u).
Proof.
  induction u as [|a u IH]; simpl; [apply Qle_refl|].
  fold (Qsum (map (λ a, sq m a) u)).
  rewrite <- (Qplus_0_r 0). apply Qplus_le_compat; [|done].
  apply Qsquare_nonneg.
Qed.

(** A vector that takes two values has a positive sum of squares about any
    centre. *)
Lemma Qsum_squares_pos (m a b : Q) (u : list Q) :
  a ∈ u → b ∈ u → a < b → 0 < Qsum (map (λ a, sq m a) u).
Proof.
  intros Ha Hb Hab.
  assert (∃ c, c ∈ u ∧ ¬ c == m) as (c & Hc & Hcm).
  { destruct (Qeq_dec a m) as [E|E]; [|by exists a].
    exists b. split; [done|]. intros E'. rewrite E, E' in Hab.
    by apply Qlt_irrefl in Hab. }
  clear a b Ha Hb Hab. induction u as [|d u IH]; [by apply elem_of_nil in Hc|].
  simpl. fold (Qsum (map (λ a, sq m a) u)).
  apply elem_of_cons in Hc as [->|Hc].
  - rewrite <- (Qplus_0_r 0). apply Qplus_lt_le_compat.
    + assert (¬ d - m == 0) as Hd.
      { intros E. apply Hcm. rewrite <- (Qplus_0_l m), <- E. ring. }
      destruct (Qlt_le_dec 0 (sq m d)) as [H|H]; [done|].
      exfalso. apply Hd.
      apply Qle_antisym in H; [|apply Qsquare_nonneg].
      symmetry in H. by apply Qmult_integral in H as [H|H].
    + apply Qsum_squares_nonneg.
  - rewrite Qplus_comm, <- (Qplus_0_r 0).
    apply Qplus_lt_le_compat; [by apply IH|apply Qsquare_nonneg].
Qed.

End pearson_facts.

Section spearmanr_facts.
Import GeneAnalysis Spearman.
Local Open Scope Q_scope.

Variable sqrt : Q → Q.
Variable t_sf : Q → nat → Q.

(** The square root is exact on squares. *)
Hypothesis sqrt_square : ∀ q s : Q, 0 <= s → q == s * s → sqrt q == s.

Local Abbreviation QN n := (inject_Z (Z.of_nat n)).

Local Abbreviation anti xs ys :=
  (∀ (i j : nat) (xi xj yi yj : Q),
     xs !! i = Some xi → xs !! j = Some xj →
     ys !! i = Some yi → ys !! j = Some yj →
     (xi < xj)%Q ↔ (yj < yi)%Q).

Lemma rankdata_reflected (xs ys : list Q) :
  length xs = length ys → anti xs ys →
  Forall2 (λ a b : Q, b == (QN (length xs) + 1) - a)
          (rankdata xs) (rankdata ys).
Proof.
  intros Hlen Hanti. unfold rankdata.
  change (map ?f ?l) with (f <$> l). apply Forall2_fmap.
  apply Forall2_same_length_lookup_2; [done|].
  intros i xi yi Hxi Hyi.
  rewrite (rank2_anti xs ys i xi yi Hlen Hanti Hxi Hyi).
  unfold Zminus. rewrite !inject_Z_plus, inject_Z_opp, inject_Z_mult.
  change (inject_Z 2) with 2. field.
Qed.

Lemma rankdata_two_values (xs : list Q) (a b : Q) :
  a ∈ xs → b ∈ xs → a < b →
  ∃ ra rb, ra ∈ rankdata xs ∧ rb ∈ rankdata xs ∧ ra < rb.
Proof.
  intros Ha Hb Hab.
  exists (inject_Z (rank2 xs a) / 2), (inject_Z (rank2 xs b) / 2).
  split; [|split].
  - apply elem_of_map. by exists a.
  - apply elem_of_map. by exists b.
  - apply Qmult_lt_compat_r; [reflexivity|].
    rewrite <- Zlt_Qlt. by apply rank2_lt.
Qed.

Lemma clip_minus_one (r : Q) : r == -1 → Qmax (-1) (Qmin 1 r) == -1.
Proof.
  intros H. apply Q.max_l. rewrite Q.min_r; rewrite H; discriminate.
Qed.

(** Pearson's coefficient of a vector and its reflection is -1. *)
Lemma corrcoef_reflected (k : Q) (u w : list Q) (a b : Q) :
  Forall2 (λ a b : Q, b == k - a) u w →
  a ∈ u → b ∈ u → a < b →
  corrcoef sqrt u w == -1.
Proof.
  intros Hr Ha Hb Hab.
  assert (u ≠ []) as Hne by (intros ->; by apply elem_of_nil in Ha).
  assert (2 ≤ length u)%nat as Hlen.
  { destruct u as [|c [|d u]]; simpl; [done| |lia].
    apply list_elem_of_singleton in Ha, Hb. subst.
    by apply Qlt_irrefl in Hab. }
  pose proof (Qmean_reflected k u w Hne Hr) as Hm.
  set (mu := Qmean u) in *. set (mw := Qmean w) in *.
  set (SS := Qsum (map (λ a, (a - mu) * (a - mu)) u)).
  set (d := QN (length u) - 1).
  assert (0 < d) as Hd.
  { unfold d. change 1 with (inject_Z 1). unfold Qminus.
    rewrite <- inject_Z_opp, <- inject_Z_plus.
    change 0 with (inject_Z 0). rewrite <- Zlt_Qlt. lia. }
  assert (¬ d == 0) as Hd0.
  { intros E. rewrite E in Hd. by apply Qlt_irrefl in Hd. }
  assert (0 < SS) as HSS by (by apply (Qsum_squares_pos mu a b u)).
  assert (cov u w == - SS / d) as Huw.
  { unfold cov. fold mu mw d. by rewrite (cross_reflected k mu mw u w Hr Hm). }
  assert (cov u u == SS / d) as Huu.
  { unfold cov. fold mu d. by rewrite square_diag. }
  assert (cov w w == SS / d) as Hww.
  { unfold cov. fold mw. rewrite square_diag.
    rewrite (square_reflected k mu mw u w Hr Hm).
    by rewrite <- (Forall2_length _ _ _ Hr). }
  assert (0 < SS / d) as Hv.
  { apply Qlt_shift_div_l; [done|]. by rewrite Qmult_0_l. }
  assert (¬ SS / d == 0) as Hv0.
  { intros E. rewrite E in Hv. by apply Qlt_irrefl in Hv. }
  unfold corrcoef. apply clip_minus_one.
  rewrite (sqrt_square (cov u u * cov w w) (SS / d)).
  - rewrite Huw. field. split; [done|].
    intros E. rewrite E in HSS. by apply Qlt_irrefl in HSS.
  - by apply Qlt_le_weak.
  - by rewrite Huu, Hww.
Qed.

Lemma constant_two_values (v : list Q) (a b : Q) :
  a ∈ v → b ∈ v → a < b → constant v = false.
Proof.
  intros Ha Hb Hab. destruct v as [|c v]; [by apply elem_of_nil in Ha|].
  unfold constant. apply not_true_iff_false. intros H.
  rewrite forallb_forall in H.
  assert (c == a) as Ea by (by apply Qeq_bool_iff, H, list_elem_of_In).
  assert (c == b) as Eb by (by apply Qeq_bool_iff, H, list_elem_of_In).
  rewrite <- Ea, <- Eb in Hab. by apply Qlt_irrefl in Hab.
Qed.

Lemma existsb_isnan_Some (qs : list Q) : existsb isnan (map Some qs) = false.
Proof. induction qs as [|q qs IH]; [done|exact IH]. Qed.

(** On a pair of vectors of at least three numbers, the second strictly
    decreasing as a function of the first and not constant, the coefficient
    is -1 and the p-value 0. *)
Lemma spearmanr_anti (xs ys : list Q) :
  length xs = length ys → (3 ≤ length xs)%nat → anti xs ys →
  (∃ a b, a ∈ xs ∧ b ∈ xs ∧ a < b) →
  ∃ rho, spearmanr sqrt t_sf (map Some xs) (map Some ys)
         = (Some rho, Some 0)
         ∧ rho == -1.
Proof.
  intros Hlen Hn Hanti (a & b & Ha & Hb & Hab).
  assert (∃ a' b', a' ∈ ys ∧ b' ∈ ys ∧ a' < b') as (a' & b' & Ha' & Hb' & Hab').
  { apply list_elem_of_lookup in Ha as [i Hi], Hb as [j Hj].
    destruct (lookup_lt_is_Some_2 ys i) as [yi Hyi];
      [rewrite <- Hlen; by eapply lookup_lt_Some|].
    destruct (lookup_lt_is_Some_2 ys j) as [yj Hyj];
      [rewrite <- Hlen; by eapply lookup_lt_Some|].
    exists yj, yi. split; [by eapply list_elem_of_lookup_2|].
    split; [by eapply list_elem_of_lookup_2|].
    by apply (Hanti i j a b yi yj). }
  unfold spearmanr. rewrite length_map.
  destruct (length xs <=? 1)%nat eqn:E1; [apply Nat.leb_le in E1; lia|].
  rewrite !existsb_isnan_Some, !dropna_Some. cbn [orb].
  rewrite (constant_two_values xs a b Ha Hb Hab).
  rewrite (constant_two_values ys a' b' Ha' Hb' Hab'). cbn [orb].
  destruct (rankdata_two_values xs a b Ha Hb Hab) as (ra & rb & Hra & Hrb & Hr).
  pose proof (corrcoef_reflected _ _ _ ra rb
                (rankdata_reflected xs ys Hlen Hanti) Hra Hrb Hr) as Hrs.
  eexists. split; [|exact Hrs].
  f_equal.
  assert (Qeq_bool ((corrcoef sqrt (rankdata xs) (rankdata ys) + 1)
                    * (1 - corrcoef sqrt (rankdata xs) (rankdata ys))) 0
          = true) as ->.
  { apply Qeq_bool_iff. rewrite Hrs. reflexivity. }
  destruct (length xs - 2 =? 0)%nat eqn:E2; [apply Nat.eqb_eq in E2; lia|].
  done.
Qed.

End spearmanr_facts.

Section sqrt_facts.
Local Open Scope Q_scope.

Lemma Qred_canonical (q : Q) : Z.gcd (Qnum q) (QDen q) = 1%Z → Qred q = q.
Proof.
  destruct q as [n d]. unfold Qred. cbn [Qnum Qden]. intros H.
  pose proof (Z.ggcd_gcd n (Zpos d)) as Hg.
  pose proof (Z.ggcd_correct_divisors n (Zpos d)) as Hdiv.
  destruct (Z.ggcd n (Zpos d)) as [g [nn dd]]. cbn [fst snd] in *.
  rewrite H in Hg. subst g. destruct Hdiv as [Hn Hd].
  rewrite Z.mul_1_l in Hn, Hd. subst nn dd. done.
Qed.

Lemma gcd_square (a b : Z) :
  Z.gcd a b = 1%Z → Z.gcd (a * a) (b * b) = 1%Z.
Proof.
  intros H. apply Z.coprime_mul_l; by apply Z.coprime_mul_r.
Qed.

Lemma Pos_sqrt_square (b : positive) : Pos.sqrt (b * b) = b.
Proof.
  apply (inj Zpos).
  change (Zpos (Pos.sqrt (b * b))) with (Z.sqrt (Zpos (b * b))).
  rewrite Pos2Z.inj_mul. apply Z.sqrt_square. lia.
Qed.

(** [Sample.sqrt] is exact on squares. *)
Lemma sqrt_exact (q s : Q) : 0 <= s → q == s * s → Sample.sqrt q == s.
Proof.
  intros Hs Hq. unfold Sample.sqrt.
  rewrite <- (Qred_correct s) in Hq.
  pose proof (gcd_Qred s) as Hg.
  assert (0 <= Qnum (Qred s))%Z as Ha.
  { rewrite <- (Qred_correct s) in Hs. unfold Qle in Hs. simpl in Hs. lia. }
  transitivity (Qred s); [|apply Qred_correct].
  destruct (Qred s) as [a b]. cbn [Qnum Qden] in *.
  rewrite (Qred_complete _ _ Hq).
  rewrite Qred_canonical
    by (cbn [Qmult Qnum Qden]; rewrite Pos2Z.inj_mul; by apply gcd_square).
  cbn [Qmult Qnum Qden]. by rewrite Z.sqrt_square, Pos_sqrt_square.
Qed.

End sqrt_facts.

Section anticorrelated_facts.
Import GeneAnalysis.

Lemma filter_all {A} (P : A → bool) (l : list A) :
  (∀ a, a ∈ l → P a = true) → List.filter P l = l.
Proof.
  intros H. induction l as [|a l IH]; [done|]. simpl.
  rewrite (H a) by left. f_equal. apply IH. intros b Hb. apply H. by right.
Qed.

Lemma lookup_dropna_map {A} (f : A → float) (l : list A) (i : nat) (q : Q) :
  (∀ a, a ∈ l → f a ≠ NaN) →
  dropna (map f l) !! i = Some q ↔ ∃ a, l !! i = Some a ∧ f a = Some q.
Proof.
  intros H.
  assert (map Some (dropna (map f l)) = map f l) as E.
  { apply map_Some_dropna, Forall_forall. intros x Hx.
    apply elem_of_map in Hx as (a & -> & Ha). by apply H. }
  assert (map Some (dropna (map f l)) !! i = map f l !! i) as E'
    by (by rewrite E).
  change (map Some ?k) with (Some <$> k) in E'.
  change (map f l !! i) with ((f <$> l) !! i) in E'.
  rewrite !list_lookup_fmap in E'.
  destruct (dropna (map f l) !! i) as [q'|],
           (l !! i) as [a|]; simpl in E'; try done.
  - split.
    + intros [= ->]. exists a. split; [done|]. congruence.
    + intros (a' & [= <-] & Hq). congruence.
  - split; [done|]. intros (a' & ? & _). done.
Qed.

(** A boolean check, over a list of models, that two columns hold numbers
    and that the first is strictly decreasing as a function of the second. *)
Lemma strictly_decreasing_check (fitness proxy : string → float)
    (common : list string) :
  forallb (λ m,
    forallb (λ m',
      match proxy m, proxy m', fitness m', fitness m with
      | Some a, Some b, Some c, Some d =>
          Bool.eqb (negb (Qle_bool b a)) (negb (Qle_bool d c))
      | _, _, _, _ => false
      end) common) common = true →
  (∀ m, m ∈ common → fitness m ≠ NaN ∧ proxy m ≠ NaN)
  ∧ (∀ m m', m ∈ common → m' ∈ common →
       float_lt (proxy m) (proxy m') ↔ float_lt (fitness m') (fitness m)).
Proof.
  intros H. rewrite forallb_forall in H.
  assert (H' : ∀ m m', m ∈ common → m' ∈ common →
            match proxy m, proxy m', fitness m', fitness m with
            | Some a, Some b, Some c, Some d =>
                Bool.eqb (negb (Qle_bool b a)) (negb (Qle_bool d c))
            | _, _, _, _ => false
            end = true).
  { intros m m' Hm Hm'. apply list_elem_of_In in Hm, Hm'.
    specialize (H m Hm). rewrite forallb_forall in H. by apply H. }
  split.
  - intros m Hm. specialize (H' m m Hm Hm).
    by destruct (proxy m), (fitness m).
  - intros m m' Hm Hm'. specialize (H' m m' Hm Hm').
    destruct (proxy m) as [a|], (proxy m') as [b|],
             (fitness m') as [c|], (fitness m) as [d|]; try done.
    simpl. apply Bool.eqb_prop in H'.
    rewrite <- !Qlt_negb_le, H'. done.
Qed.

End anticorrelated_facts.

(** C8. Take a cohort of at least five models (thirty in the scenario) and
    a gene whose fitness values and the proxy scores are all numbers, the
    fitness strictly decreasing as a function of the proxy, the proxy not
    constant over the cohort.  Then [spearmanr] returns a coefficient equal
    to -1 and the p-value 0, and that is the record the gene loop produces
    for the gene.  The square root the routine calls is only required to be
    exact on squares; nothing is required of the t distribution. *)
Theorem anticorrelated_gene (sqrt : Q → Q) (t_sf : Q → nat → Q)
    model crispr omics_expr cancer (gene : string) :
  let common := GeneAnalysis.common_models model crispr omics_expr cancer in
  let fitness := GeneAnalysis.cell crispr gene in
  let proxy := λ m,
    GeneAnalysis.mean
      (map (GeneAnalysis.cell omics_expr m)
           (GeneAnalysis.immune_genes omics_expr)) in
  (∀ q s : Q, (0 <= s)%Q → (q == s * s)%Q → (sqrt q == s)%Q) →
  (5 ≤ length common)%nat →
  (∀ m, m ∈ common → fitness m ≠ NaN ∧ proxy m ≠ NaN) →
  (∀ m m', m ∈ common → m' ∈ common →
     float_lt (proxy m) (proxy m') ↔ float_lt (fitness m') (fitness m)) →
  (∃ m m', m ∈ common ∧ m' ∈ common ∧ float_lt (proxy m) (proxy m')) →
  ∃ rho : Q,
    (rho == -1)%Q
    ∧ Spearman.spearmanr sqrt t_sf (map fitness common) (map proxy common)
      = (Some rho, Some 0%Q)
    ∧ GeneAnalysis.gene_result (Spearman.spearmanr sqrt t_sf)
        crispr omics_expr common gene
      = Some (gene, Some rho, Some 0%Q)
    ∧ (gene ∈ GeneAnalysis.index crispr →
       (gene, Some rho, Some 0%Q)
       ∈ GeneAnalysis.results (Spearman.spearmanr sqrt t_sf)
           crispr omics_expr common).
Proof.
  intros common fitness proxy Hsqrt Hn Hnum Hanti (m0 & m1 & Hm0 & Hm1 & Hlt).
  set (xs := GeneAnalysis.dropna (map fitness common)).
  set (ys := GeneAnalysis.dropna (map proxy common)).
  assert (map Some xs = map fitness common) as Hxs.
  { apply map_Some_dropna, Forall_forall. intros x Hx.
    apply elem_of_map in Hx as (a & -> & Ha). by apply Hnum. }
  assert (map Some ys = map proxy common) as Hys.
  { apply map_Some_dropna, Forall_forall. intros x Hx.
    apply elem_of_map in Hx as (a & -> & Ha). by apply Hnum. }
  assert (length xs = length common) as Hlx
    by (by rewrite <- (length_map Some xs), Hxs, length_map).
  assert (length ys = length common) as Hly
    by (by rewrite <- (length_map Some ys), Hys, length_map).
  assert (Hx : ∀ i q, xs !! i = Some q ↔
                      ∃ m, common !! i = Some m ∧ fitness m = Some q).
  { intros i q. apply lookup_dropna_map. intros a Ha. by apply Hnum. }
  assert (Hy : ∀ i q, ys !! i = Some q ↔
                      ∃ m, common !! i = Some m ∧ proxy m = Some q).
  { intros i q. apply lookup_dropna_map. intros a Ha. by apply Hnum. }
  destruct (spearmanr_anti sqrt t_sf Hsqrt xs ys) as (rho & Hs & Hrho).
  - by rewrite Hlx, Hly.
  - rewrite Hlx. lia.
  - intros i j xi xj yi yj Hxi Hxj Hyi Hyj.
    apply Hx in Hxi as (mi & Hmi & Hfi), Hxj as (mj & Hmj & Hfj).
    apply Hy in Hyi as (mi' & Hmi' & Hpi), Hyj as (mj' & Hmj' & Hpj).
    assert (mi' = mi) as -> by congruence.
    assert (mj' = mj) as -> by congruence.
    pose proof (Hanti mj mi (list_elem_of_lookup_2 _ _ _ Hmj)
                  (list_elem_of_lookup_2 _ _ _ Hmi)) as H.
    rewrite Hpi, Hpj, Hfi, Hfj in H. simpl in H. by symmetry.
  - pose proof (proj1 (Hanti m0 m1 Hm0 Hm1) Hlt) as Hf.
    destruct (fitness m1) as [a|] eqn:E1; [|done].
    destruct (fitness m0) as [b|] eqn:E0; [|done].
    apply list_elem_of_lookup in Hm0 as [i0 Hi0], Hm1 as [i1 Hi1].
    exists a, b. split; [|split; [|exact Hf]].
    + eapply list_elem_of_lookup_2, Hx. by exists m1.
    + eapply list_elem_of_lookup_2, Hx. by exists m0.
  - rewrite Hxs, Hys in Hs. exists rho. split; [done|]. split; [done|].
    assert (GeneAnalysis.gene_result (Spearman.spearmanr sqrt t_sf)
              crispr omics_expr common gene
            = Some (gene, Some rho, Some 0%Q)) as Hg.
    { rewrite gene_result_spec, filter_all.
      - destruct (length common <? 5)%nat eqn:E;
          [apply Nat.ltb_lt in E; lia|].
        unfold fitness, proxy in Hs. by rewrite Hs.
      - intros m Hm. destruct (Hnum m Hm) as [H1 H2].
        unfold fitness, proxy in H1, H2.
        by destruct (GeneAnalysis.cell crispr gene m), (GeneAnalysis.mean _). }
    split; [exact Hg|]. intros Hin.
    unfold GeneAnalysis.results. apply list_elem_of_omap. by exists gene.
Qed.

Lemma anticorrelated_gene_witness :
  length (GeneAnalysis.common_models Sample.breast_model Sample.breast_crispr
            Sample.breast_omics "Breast Cancer") = 30%nat
  ∧ ∃ rho : Q,
      (rho == -1)%Q
      ∧ GeneAnalysis.gene_result Sample.spearmanr Sample.breast_crispr
          Sample.breast_omics
          (GeneAnalysis.common_models Sample.breast_model Sample.breast_crispr
             Sample.breast_omics "Breast Cancer")
          "DOWN (1)"
        = Some ("DOWN (1)"%string, Some rho, Some 0%Q).
Proof.
  split; [vm_compute; reflexivity|].
  destruct (strictly_decreasing_check
              (GeneAnalysis.cell Sample.breast_crispr "DOWN (1)")
              (λ m, GeneAnalysis.mean
                      (map (GeneAnalysis.cell Sample.breast_omics m)
                           (GeneAnalysis.immune_genes Sample.breast_omics)))
              (GeneAnalysis.common_models Sample.breast_model
                 Sample.breast_crispr Sample.breast_omics "Breast Cancer"))
    as [Hnum Hanti]; [vm_compute; reflexivity|].
  destruct (anticorrelated_gene Sample.sqrt Sample.t_sf Sample.breast_model
              Sample.breast_crispr Sample.breast_omics "Breast Cancer"
              "DOWN (1)" sqrt_exact) as (rho & Hrho & _ & Hg & _).
  - vm_compute. lia.
  - exact Hnum.
  - exact Hanti.
  - exists "ACH-000101"%string, "ACH-000102"%string.
    split; [vm_compute; left|]. split; [vm_compute; right; left|].
    vm_compute. reflexivity.
  - exists rho. split; [exact Hrho|exact Hg].
Defined.
